(** * The dialogue engine of the memory-management chatbot

    A shallow embedding of [src/chatbot.cpp] and [src/graphnode.cpp]:
    the edit-distance matcher [ChatBot::ComputeLevenshteinDistance], the
    traversal step [ChatBot::ReceiveMessageFromUser] and the hand-over of
    the chatbot between graph nodes ([GraphNode::MoveChatbotToNewNode],
    [GraphNode::MoveChatbotHere], [ChatBot::SetCurrentNode]).

    Conventions.
    - [size_t] is the 64-bit unsigned type and [int] the 32-bit signed type
      of the LP64 targets the program is built for; values are carried in
      [Z] and every place where the C++ code can wrap is written out.
    - A [std::string] is a list of bytes ([ascii]).
    - What C++ leaves undefined (an out-of-range subscript, a null or
      dangling pointer, a violated library precondition) is the outcome
      [Undefined]; a C++ exception is the outcome [Throw]. *)

From Stdlib Require Import ZArith Ascii String Lia Sorting.Sorted.
From stdpp Require Import base list numbers strings.

Local Open Scope Z_scope.

(** ** Machine integers *)

Module Machine.

Definition SIZE_MODULUS : Z := 2 ^ 64.
Definition INT_MODULUS : Z := 2 ^ 32.
Definition INT_MAX : Z := 2 ^ 31 - 1.
Definition INT_MIN : Z := - 2 ^ 31.

(** Unsigned arithmetic on [size_t] and the conversion [int -> size_t]. *)
Definition to_size_t (z : Z) : Z := z mod SIZE_MODULUS.

(** The narrowing conversion [size_t -> int] (modular, as GCC and Clang
    define it and as C++20 requires). *)
Definition to_int (z : Z) : Z := (z + 2 ^ 31) mod INT_MODULUS - 2 ^ 31.

(** [PTRDIFF_MAX]: no contiguous container holds more elements. *)
Definition PTRDIFF_MAX : Z := 2 ^ 63 - 1.

End Machine.
Export Machine.

Arguments to_size_t : simpl never.
Arguments to_int : simpl never.

(** ** Outcomes of a call *)

Inductive exception : Type :=
  | out_of_range.

Inductive result (A : Type) : Type :=
  | Ok (a : A)
  | Throw (e : exception)
  | Undefined.

Arguments Ok {A} a.
Arguments Throw {A} e.
Arguments Undefined {A}.

Definition bind {A B : Type} (r : result A) (k : A -> result B) : result B :=
  match r with
  | Ok a => k a
  | Throw e => Throw e
  | Undefined => Undefined
  end.

Notation "'do' x <- r ; k" := (bind r (fun x => k))
  (at level 10, x name, r at level 100, k at level 200).

(** ** Strings *)

Abbreviation cstring := (list ascii).

Definition str (s : string) : cstring := list_ascii_of_string s.

(** [s.size()]. *)
Definition size {A : Type} (s : list A) : Z := Z.of_nat (length s).

(** [::toupper] in the "C" locale: the 26 lower-case letters move to upper
    case, every other byte (those above 127 too) is returned as it is. *)
Definition toupper (c : ascii) : ascii :=
  let n := N_of_ascii c in
  if ((97 <=? n) && (n <=? 122))%N then ascii_of_N (n - 32) else c.

(** [std::transform(s.begin(), s.end(), s.begin(), ::toupper)]. *)
Definition transform_toupper (s : cstring) : cstring := map toupper s.

(** ** The edit-distance matcher *)

(** The cost row is a heap array [size_t costs[n + 1]]; a subscript outside
    it is undefined. *)
Definition read (costs : list Z) (k : Z) : result Z :=
  match costs !! Z.to_nat k with
  | Some v => Ok v
  | None => Undefined
  end.

Definition write (costs : list Z) (k : Z) (v : Z) : result (list Z) :=
  if decide (Z.to_nat k < length costs)%nat
  then Ok (<[Z.to_nat k := v]> costs)
  else Undefined.

(** [for (k = 0; k <= n; k++) costs[k] = k;] on the fresh array. *)
Definition init_costs (n : nat) : list Z := map Z.of_nat (seq 0 (S n)).

(** The inner loop: [it2] runs over [s2] while [j] counts. *)
Fixpoint inner_loop (c1 : ascii) (s2 : cstring) (j corner : Z) (costs : list Z)
  : result (list Z) :=
  match s2 with
  | [] => Ok costs
  | c2 :: s2' =>
      do upper <- read costs (to_size_t (j + 1));
      do costs' <-
        (if Ascii.eqb c1 c2
         then write costs (to_size_t (j + 1)) corner
         else
           let t := if upper <? corner then upper else corner in
           do cj <- read costs j;
           write costs (to_size_t (j + 1))
                 (to_size_t ((if cj <? t then cj else t) + 1)));
      inner_loop c1 s2' (to_size_t (j + 1)) upper costs'
  end.

(** The outer loop: [it1] runs over [s1] while [i] counts. *)
Fixpoint outer_loop (s1 s2 : cstring) (i : Z) (costs : list Z)
  : result (list Z) :=
  match s1 with
  | [] => Ok costs
  | c1 :: s1' =>
      do costs0 <- write costs 0 (to_size_t (i + 1));
      do costs' <- inner_loop c1 s2 0 i costs0;
      outer_loop s1' s2 (to_size_t (i + 1)) costs'
  end.

Definition ComputeLevenshteinDistance (s1 s2 : cstring) : result Z :=
  let s1 := transform_toupper s1 in
  let s2 := transform_toupper s2 in
  let m := size s1 in
  let n := size s2 in
  if m =? 0 then Ok (to_int n)
  else if n =? 0 then Ok (to_int m)
  else
    do costs <- outer_loop s1 s2 0 (init_costs (length s2));
    do r <- read costs n;
    Ok (to_int r).

(** ** The C++ library, by contract

    [std::sort], [std::mt19937] and [std::uniform_int_distribution] are not
    code of this repository: the engine is verified against what the C++
    standard promises of them, for every implementation that keeps the
    promise.  The implementation of GNU libstdc++ is embedded further below
    and shown to keep it. *)

(** The comparator requirement of [std::sort]. *)
Definition strict_weak_order {A : Type} (comp : A -> A -> bool) : Prop :=
  (forall x, comp x x = false) /\
  (forall x y z, comp x y = true -> comp y z = true -> comp x z = true) /\
  (forall x y z, comp x y = false -> comp y z = false -> comp x z = false).

(** Sorted with respect to [comp]: no element is ordered before one that
    stands earlier. *)
Definition sorted_by {A : Type} (comp : A -> A -> bool) (l : list A) : Prop :=
  forall i j x y, (i < j)%nat -> l !! i = Some x -> l !! j = Some y -> comp y x = false.

(** [std::sort(first, last, comp)]: the elements are rearranged into sorted
    order.  The order of equivalent elements is left open. *)
Class StdSort : Type := {
  std_sort : forall {A : Type}, (A -> A -> bool) -> list A -> list A;
  std_sort_permutation :
    forall (A : Type) (comp : A -> A -> bool) (l : list A),
      strict_weak_order comp -> std_sort comp l ≡ₚ l;
  std_sort_sorted :
    forall (A : Type) (comp : A -> A -> bool) (l : list A),
      strict_weak_order comp -> sorted_by comp (std_sort comp l)
}.

(** Neither element is ordered before the other. *)
Definition equivalent {A : Type} (comp : A -> A -> bool) (x y : A) : bool :=
  negb (comp x y) && negb (comp y x).

(** What [std::stable_sort] adds, and [std::sort] does not promise:
    equivalent elements keep their relative order. *)
Definition stable (S : StdSort) : Prop :=
  forall (A : Type) (comp : A -> A -> bool) (l : list A) (x : A),
    strict_weak_order comp ->
    List.filter (equivalent comp x) (std_sort comp l) = List.filter (equivalent comp x) l.

(** [uniform_int seed a b] is the first draw [dis(generator)] of
    [std::uniform_int_distribution<int> dis(a, b)] from a
    [std::mt19937 generator(seed)]; the distribution requires [a <= b]. *)
Class StdRandom : Type := {
  uniform_int : Z -> Z -> Z -> Z;
  uniform_int_range :
    forall seed a b, a <= b -> a <= uniform_int seed a b <= b
}.

(** ** The dialogue graph *)

(** A [GraphNode *]: [None] is [nullptr], [Some a] the address of the node
    held at index [a] of the node store; an address outside the store
    dangles. *)
Definition node_ptr : Type := option nat.

(** Modelled from the spec: [graphedge.h] is not among the sources.  Of an
    edge the engine reads its keywords ([GetKeywords]) and its target
    ([GetChildNode]). *)
Record GraphEdge : Type := {
  _keywords : list cstring;
  _childNode : node_ptr
}.

(** The chatbot's non-owned handles.  The image and the chat-logic handle
    are window plumbing; both are taken to be attached. *)
Record ChatBot : Type := {
  _currentNode : node_ptr;
  _rootNode : node_ptr
}.

(** A node owns its outgoing edges, its answers and, since
    [MoveChatbotHere] takes the chatbot by value, a chatbot of its own. *)
Record GraphNode : Type := {
  _childEdges : list GraphEdge;
  _answers : list cstring;
  _chatBot : ChatBot
}.

(** Modelled from the spec: [chatlogic.h] is not among the sources.  The
    chat logic owns the nodes, points at the chatbot in use
    ([SetChatbotHandle]: the chatbot member of the node recorded here) and
    hands answers to the panel ([SendMessageToUser]). *)
Record ChatLogic : Type := {
  _nodes : list GraphNode;
  _chatBotHandle : node_ptr;
  _panelDialog : list cstring
}.

(** Following a node pointer; a null or dangling one is undefined. *)
Definition deref (w : ChatLogic) (p : node_ptr) : result GraphNode :=
  match p with
  | Some a => match _nodes w !! a with Some n => Ok n | None => Undefined end
  | None => Undefined
  end.

(** [GraphNode::AddToken], [GraphNode::AddEdgeToChildNode]. *)
Definition AddToken (token : cstring) (n : GraphNode) : GraphNode :=
  {| _childEdges := _childEdges n; _answers := _answers n ++ [token];
     _chatBot := _chatBot n |}.

Definition AddEdgeToChildNode (edge : GraphEdge) (n : GraphNode) : GraphNode :=
  {| _childEdges := _childEdges n ++ [edge]; _answers := _answers n;
     _chatBot := _chatBot n |}.

(** Modelled from the spec: [graphnode.h] is not among the sources;
    [GetNumberOfChildEdges] is the size of the outgoing-edge list and
    [GetAnswers] the response list. *)
Definition GetNumberOfChildEdges (n : GraphNode) : Z := size (_childEdges n).

(** [_childEdges[index].get()]: the [int] is converted to the vector's
    [size_type]; the subscript is unchecked. *)
Definition GetChildEdgeAtIndex (n : GraphNode) (index : Z) : result GraphEdge :=
  match _childEdges n !! Z.to_nat (to_size_t index) with
  | Some e => Ok e
  | None => Undefined
  end.

(** [std::pair<GraphEdge *, int>]; the pointer is carried as the edge it
    points to (edges do not change during a traversal). *)
Definition EdgeDist : Type := GraphEdge * Z.

(** [for (auto keyword : edge->GetKeywords())]. *)
Fixpoint keyword_loop (edge : GraphEdge) (keywords : list cstring) (message : cstring)
    (levDists : list EdgeDist) : result (list EdgeDist) :=
  match keywords with
  | [] => Ok levDists
  | keyword :: rest =>
      do d <- ComputeLevenshteinDistance keyword message;
      keyword_loop edge rest message (levDists ++ [(edge, d)])
  end.

(** [for (size_t i = 0; i < GetNumberOfChildEdges(); ++i)]: the body runs
    once for each [i] below the edge count, [remaining] being the number of
    iterations still to go; at the call [i] narrows to the accessor's
    [int]. *)
Fixpoint edge_loop (node : GraphNode) (remaining : nat) (i : Z) (message : cstring)
    (levDists : list EdgeDist) : result (list EdgeDist) :=
  match remaining with
  | O => Ok levDists
  | S remaining' =>
      do edge <- GetChildEdgeAtIndex node (to_int i);
      do levDists' <- keyword_loop edge (_keywords edge) message levDists;
      edge_loop node remaining' (to_size_t (i + 1)) message levDists'
  end.

Definition enumerate_pairs (node : GraphNode) (message : cstring)
  : result (list EdgeDist) :=
  edge_loop node (length (_childEdges node)) 0 message [].

(** The comparator handed to [std::sort]. *)
Definition closer (a b : EdgeDist) : bool := a.2 <? b.2.

Definition select_new_node {S : StdSort} (bot : ChatBot) (levDists : list EdgeDist)
  : result node_ptr :=
  if 0 <? size levDists then
    match std_sort closer levDists !! 0%nat with
    | Some best => Ok (_childNode best.1)
    | None => Throw out_of_range
    end
  else Ok (_rootNode bot).

(** Assignment to the [_chatBot] member of the node at [a]. *)
Definition set_chatBot (a : nat) (bot : ChatBot) (w : ChatLogic) : ChatLogic :=
  match _nodes w !! a with
  | Some n =>
      {| _nodes := <[a := {| _childEdges := _childEdges n; _answers := _answers n;
                             _chatBot := bot |}]> (_nodes w);
         _chatBotHandle := _chatBotHandle w;
         _panelDialog := _panelDialog w |}
  | None => w
  end.

(** Modelled from the spec: the two operations of the chat logic the
    chatbot calls, [SetChatbotHandle] (from its copy and move operations)
    and [SendMessageToUser] (the output sink). *)
Definition SetChatbotHandle (a : nat) (w : ChatLogic) : ChatLogic :=
  {| _nodes := _nodes w; _chatBotHandle := Some a; _panelDialog := _panelDialog w |}.

Definition SendMessageToUser (message : cstring) (w : ChatLogic) : ChatLogic :=
  {| _nodes := _nodes w; _chatBotHandle := _chatBotHandle w;
     _panelDialog := _panelDialog w ++ [message] |}.

(** [v.at(n)]: the bounds-checked subscript. *)
Definition vector_at {A : Type} (v : list A) (n : Z) : result A :=
  match v !! Z.to_nat (to_size_t n) with
  | Some x => Ok x
  | None => Throw out_of_range
  end.

(** [ChatBot::SetCurrentNode], called on the chatbot held by node [this];
    [now] is what [std::time(0)] returns during the call.  The upper bound
    [answers.size() - 1] is computed in [size_t] and narrows to the [int]
    of the distribution; a bound below 0 breaks the requirement [a <= b]
    of [std::uniform_int_distribution], which is undefined. *)
Definition SetCurrentNode {R : StdRandom} (this : nat) (node : node_ptr) (now : Z)
    (w : ChatLogic) : result ChatLogic :=
  do holder <- deref w (Some this);
  let w := set_chatBot this {| _currentNode := node;
                               _rootNode := _rootNode (_chatBot holder) |} w in
  do current <- deref w node;
  let answers := _answers current in
  let last := to_int (to_size_t (size answers - 1)) in
  if last <? 0 then Undefined
  else
    do answer <- vector_at answers (uniform_int (to_int now) 0 last);
    Ok (SendMessageToUser answer w).

(** [GraphNode::MoveChatbotHere], called on node [this]: the copy
    assignment [_chatBot = chatbot] stores the chatbot in the node and
    re-points the chat logic at it (the handle set for the by-value
    parameter just before is overwritten here). *)
Definition MoveChatbotHere {R : StdRandom} (this : nat) (chatbot : ChatBot) (now : Z)
    (w : ChatLogic) : result ChatLogic :=
  do _ <- deref w (Some this);
  let w := SetChatbotHandle this (set_chatBot this chatbot w) in
  SetCurrentNode this (Some this) now w.

(** [GraphNode::MoveChatbotToNewNode], called on node [this]. *)
Definition MoveChatbotToNewNode {R : StdRandom} (this : nat) (newNode : node_ptr)
    (now : Z) (w : ChatLogic) : result ChatLogic :=
  do node <- deref w (Some this);
  match newNode with
  | Some target => MoveChatbotHere target (_chatBot node) now w
  | None => Undefined
  end.

(** [ChatBot::ReceiveMessageFromUser], called on the chatbot held by node
    [this]. *)
Definition ReceiveMessageFromUser {S : StdSort} {R : StdRandom} (this : nat)
    (message : cstring) (now : Z) (w : ChatLogic) : result ChatLogic :=
  do holder <- deref w (Some this);
  let bot := _chatBot holder in
  do current <- deref w (_currentNode bot);
  do levDists <- enumerate_pairs current message;
  do newNode <- select_new_node bot levDists;
  match _currentNode bot with
  | Some c => MoveChatbotToNewNode c newNode now w
  | None => Undefined
  end.

(** Modelled from the spec: the engine's [receiveMessage], which the chat
    logic forwards to the chatbot its handle points at. *)
Definition SendMessageToChatbot {S : StdSort} {R : StdRandom} (message : cstring)
    (now : Z) (w : ChatLogic) : result ChatLogic :=
  match _chatBotHandle w with
  | Some this => ReceiveMessageFromUser this message now w
  | None => Undefined
  end.

(** The conversation cursor: the current node of the chatbot in use. *)
Definition currentNode (w : ChatLogic) : node_ptr :=
  match deref w (_chatBotHandle w) with
  | Ok holder => _currentNode (_chatBot holder)
  | _ => None
  end.

(** A conversation: each message comes with the clock reading of its call;
    the result is the sequence of answers handed to the panel. *)
Fixpoint converse {S : StdSort} {R : StdRandom} (inputs : list (cstring * Z))
    (w : ChatLogic) : result (list cstring) :=
  match inputs with
  | [] => Ok []
  | (message, now) :: rest =>
      do w' <- SendMessageToChatbot message now w;
      do later <- converse rest w';
      Ok (drop (length (_panelDialog w)) (_panelDialog w') ++ later)
  end.

(** ** Reference notions the claims are stated with *)

(** *** Edit distance, in the words of the specification *)

(** One single-character insertion, deletion or substitution, anywhere in
    the string ([edit1_skip] moves past a character left alone). *)
Inductive edit1 : cstring -> cstring -> Prop :=
  | edit1_insert c s : edit1 s (c :: s)
  | edit1_delete c s : edit1 (c :: s) s
  | edit1_substitute c d s : edit1 (c :: s) (d :: s)
  | edit1_skip c s t : edit1 s t -> edit1 (c :: s) (c :: t).

(** [edits n a b]: [n] single-character edits transform [a] into [b]. *)
Inductive edits : nat -> cstring -> cstring -> Prop :=
  | edits_done a : edits 0 a a
  | edits_step n a b c : edit1 a b -> edits n b c -> edits (S n) a c.

(** The minimum number of edits that transform [a] into [b]. *)
Definition edit_distance (a b : cstring) (d : nat) : Prop :=
  edits d a b /\ forall k, edits k a b -> (d <= k)%nat.

(** The recurrence the cost row runs, on whole strings. *)
Fixpoint lev (a b : cstring) {struct a} : nat :=
  match a with
  | [] => length b
  | x :: a' =>
      (fix lev_row (b : cstring) : nat :=
         match b with
         | [] => S (length a')
         | y :: b' =>
             if Ascii.eqb x y then lev a' b'
             else S (Nat.min (lev_row b') (Nat.min (lev a' (y :: b')) (lev a' b')))
         end) b
  end.

(** Entry [k] of the cost row once the characters [rev U] of [s1] are
    consumed, and the rows between two iterations of the loops. *)
Definition cell (s2 U : cstring) (k : nat) : Z :=
  Z.of_nat (lev U (rev (take k s2))).

Definition is_row (s2 U : cstring) (costs : list Z) : Prop :=
  length costs = S (length s2) /\
  forall k, (k <= length s2)%nat -> costs !! k = Some (cell s2 U k).

Definition mixed_row (s2 : cstring) (x : ascii) (U : cstring) (j : nat)
    (costs : list Z) : Prop :=
  length costs = S (length s2) /\
  forall k, (k <= length s2)%nat ->
    costs !! k = Some (if decide (k <= j)%nat then cell s2 (x :: U) k else cell s2 U k).

(** [::tolower] in the "C" locale. *)
Definition tolower (c : ascii) : ascii :=
  let n := N_of_ascii c in
  if ((65 <=? n) && (n <=? 90))%N then ascii_of_N (n + 32) else c.

(** Two strings that differ in the case of their letters only. *)
Definition same_modulo_case (a a' : cstring) : Prop :=
  Forall2 (fun c c' => toupper c = toupper c') a a'.

(** A [std::string] holds at most [max_size()] characters, and [max_size()]
    is at most [PTRDIFF_MAX]. *)
Definition std_string (s : cstring) : Prop := size s <= PTRDIFF_MAX.

(** The number the matcher returns (it always returns one, see
    [ComputeLevenshteinDistance_distance]). *)
Definition distance (a b : cstring) : Z :=
  match ComputeLevenshteinDistance a b with
  | Ok d => d
  | _ => 0
  end.

(** *** The enumeration of step 1 *)

Definition pairs_of (message : cstring) (edge : GraphEdge) : list EdgeDist :=
  (fun keyword => (edge, distance keyword message)) <$> _keywords edge.

(** Every (edge, keyword) pair of a node with its distance: edges in the
    order of the outgoing-edge list, keywords in the order of each edge. *)
Definition all_pairs (node : GraphNode) (message : cstring) : list EdgeDist :=
  _childEdges node ≫= pairs_of message.

(** The first pair, in enumeration order, that attains the minimum. *)
Fixpoint first_min (l : list EdgeDist) : option EdgeDist :=
  match l with
  | [] => None
  | p :: l' =>
      match first_min l' with
      | Some q => if q.2 <? p.2 then Some q else Some p
      | None => Some p
      end
  end.

(** The arguments [edge_loop] passes to [GetChildEdgeAtIndex], in order,
    and the loop read as a visit of them ([edge_loop_visit]). *)
Fixpoint accessor_calls (remaining : nat) (i : Z) : list Z :=
  match remaining with
  | O => []
  | S remaining' => to_int i :: accessor_calls remaining' (to_size_t (i + 1))
  end.

Fixpoint visit_edges (node : GraphNode) (indices : list Z) (message : cstring)
    (levDists : list EdgeDist) : result (list EdgeDist) :=
  match indices with
  | [] => Ok levDists
  | index :: rest =>
      do edge <- GetChildEdgeAtIndex node index;
      do levDists' <- keyword_loop edge (_keywords edge) message levDists;
      visit_edges node rest message levDists'
  end.

(** The node steps 3 and 4 choose. *)
Definition destination {S : StdSort} (hn : GraphNode) (message : cstring)
  : result node_ptr :=
  select_new_node (_chatBot hn) (all_pairs hn message).

(** Step 6 as [SetCurrentNode] runs it on a response list. *)
Definition select_answer {R : StdRandom} (now : Z) (answers : list cstring)
  : result cstring :=
  let last := to_int (to_size_t (size answers - 1)) in
  if last <? 0 then Undefined
  else vector_at answers (uniform_int (to_int now) 0 last).

(** The state after the chatbot, carrying [root], has moved to node [t]
    and handed [answer] to the panel. *)
Definition arrive (w : ChatLogic) (root : node_ptr) (t : nat) (tn : GraphNode)
    (answer : cstring) : ChatLogic :=
  {| _nodes := <[t := {| _childEdges := _childEdges tn; _answers := _answers tn;
                         _chatBot := {| _currentNode := Some t; _rootNode := root |} |}]>
                 (_nodes w);
     _chatBotHandle := Some t;
     _panelDialog := _panelDialog w ++ [answer] |}.

(** *** Well-formed graphs *)

Definition valid_ptr (w : ChatLogic) (p : node_ptr) : Prop :=
  exists a, p = Some a /\ is_Some (_nodes w !! a).

(** The edge count is within reach of the accessor's [int] index. *)
Definition edges_fit (n : GraphNode) : Prop := size (_childEdges n) <= INT_MAX + 1.

(** The response list is non-empty and its last index is an [int]. *)
Definition answers_fit (n : GraphNode) : Prop := 1 <= size (_answers n) <= INT_MAX + 1.

Definition node_ok (w : ChatLogic) (n : GraphNode) : Prop :=
  edges_fit n /\ answers_fit n /\
  Forall (fun e => valid_ptr w (_childNode e)) (_childEdges n).

(** The chat logic points at the chatbot of node [h], which is [hn], and
    that chatbot's cursor is its own node. *)
Definition engine_at (w : ChatLogic) (h : nat) (hn : GraphNode) : Prop :=
  _chatBotHandle w = Some h /\ _nodes w !! h = Some hn /\
  _currentNode (_chatBot hn) = Some h.

(** The invariants of the data model, for a graph the [int]-typed accessor
    and distribution bound can address: every edge leads to a node, every
    node has a response, the cursor and the root are nodes, and no node has
    more than [2^31] edges or responses. *)
Definition well_formed (w : ChatLogic) : Prop :=
  Forall (node_ok w) (_nodes w) /\
  exists h hn, engine_at w h hn /\ valid_ptr w (_rootNode (_chatBot hn)).

(** *** Two engines over one graph *)

Definition graph_of (w : ChatLogic) : list (list GraphEdge * list cstring) :=
  (fun n => (_childEdges n, _answers n)) <$> _nodes w.

(** Same graph, same cursor, same root; the panels and the chatbots left
    behind in other nodes may differ. *)
Definition same_engine (w1 w2 : ChatLogic) : Prop :=
  graph_of w1 = graph_of w2 /\
  exists h n1 n2,
    engine_at w1 h n1 /\ engine_at w2 h n2 /\
    _rootNode (_chatBot n1) = _rootNode (_chatBot n2).

Definition same_outcome (w1 w2 : ChatLogic) (r1 r2 : result ChatLogic) : Prop :=
  match r1, r2 with
  | Ok a, Ok b =>
      same_engine a b /\
      drop (length (_panelDialog w1)) (_panelDialog a) =
      drop (length (_panelDialog w2)) (_panelDialog b)
  | Throw e1, Throw e2 => e1 = e2
  | Undefined, Undefined => True
  | _, _ => False
  end.

(** ** The C++ library, as the program is built with it

    The program is built with GCC, whose library is GNU libstdc++.  Its
    [std::sort] ([bits/stl_algo.h], [bits/stl_heap.h]), its [std::mt19937]
    ([bits/random.tcc]) and its [std::uniform_int_distribution]
    ([bits/uniform_int_dist.h]) are embedded here as they are written in
    release 12; they are shown below to meet the contracts above. *)

Module Libstdcxx.

Section Sort.
Context {A : Type} (__comp : A -> A -> bool).
Local Open Scope nat_scope.

(** A random-access iterator into the vector is carried as its distance
    from [begin()]; [*it] outside the vector is undefined. *)
Definition iter_read (v : list A) (it : nat) : result A :=
  match v !! it with
  | Some x => Ok x
  | None => Undefined
  end.

Definition iter_write (v : list A) (it : nat) (x : A) : result (list A) :=
  if decide (it < length v) then Ok (<[it := x]> v) else Undefined.

(** [std::iter_swap(a, b)]. *)
Definition iter_swap (v : list A) (a b : nat) : result (list A) :=
  do x <- iter_read v a;
  do y <- iter_read v b;
  do v <- iter_write v a y;
  iter_write v b x.

(** *** [bits/stl_heap.h] *)

(** The loop of [__push_heap]; [__parent] is [(__holeIndex - 1) / 2], which
    is 0 for the hole 0 in C++ as it is here. *)
Fixpoint __push_heap_loop (fuel : nat) (v : list A) (__first __holeIndex __topIndex : nat)
    (__value : A) : result (list A) :=
  let __parent := (__holeIndex - 1) / 2 in
  if decide (__topIndex < __holeIndex) then
    do up <- iter_read v (__first + __parent);
    if __comp up __value then
      match fuel with
      | O => Undefined
      | S fuel' =>
          do v <- iter_write v (__first + __holeIndex) up;
          __push_heap_loop fuel' v __first __parent __topIndex __value
      end
    else iter_write v (__first + __holeIndex) __value
  else iter_write v (__first + __holeIndex) __value.

(** The hole rises by at least one position in every round. *)
Definition __push_heap (v : list A) (__first __holeIndex __topIndex : nat) (__value : A)
  : result (list A) :=
  __push_heap_loop __holeIndex v __first __holeIndex __topIndex __value.

(** The first loop of [__adjust_heap]: the hole sinks along the larger
    children; the result is the vector with [__holeIndex] and
    [__secondChild], which are equal when the loop ends. *)
Fixpoint __adjust_heap_loop (fuel : nat) (v : list A) (__first __holeIndex __len : nat)
    : result (list A * nat) :=
  if decide (__holeIndex < (__len - 1) / 2) then
    match fuel with
    | O => Undefined
    | S fuel' =>
        let __secondChild := 2 * (__holeIndex + 1) in
        do right <- iter_read v (__first + __secondChild);
        do left <- iter_read v (__first + (__secondChild - 1));
        let __secondChild :=
          if __comp right left then __secondChild - 1 else __secondChild in
        do child <- iter_read v (__first + __secondChild);
        do v <- iter_write v (__first + __holeIndex) child;
        __adjust_heap_loop fuel' v __first __secondChild __len
    end
  else Ok (v, __holeIndex).

Definition __adjust_heap (v : list A) (__first __holeIndex __len : nat) (__value : A)
  : result (list A) :=
  let __topIndex := __holeIndex in
  do sunk <- __adjust_heap_loop __len v __first __holeIndex __len;
  let '(v, __secondChild) := sunk in
  let __holeIndex := __secondChild in
  if decide (__len mod 2 = 0 /\ __secondChild = (__len - 2) / 2) then
    let __secondChild := 2 * (__secondChild + 1) in
    do child <- iter_read v (__first + (__secondChild - 1));
    do v <- iter_write v (__first + __holeIndex) child;
    let __holeIndex := __secondChild - 1 in
    __push_heap v __first __holeIndex __topIndex __value
  else __push_heap v __first __holeIndex __topIndex __value.

Definition __pop_heap (v : list A) (__first __last __result : nat) : result (list A) :=
  do __value <- iter_read v __result;
  do top <- iter_read v __first;
  do v <- iter_write v __result top;
  __adjust_heap v __first 0 (__last - __first) __value.

(** The loop of [__make_heap], from [__parent] down to 0. *)
Fixpoint __make_heap_loop (v : list A) (__first __len __parent : nat) : result (list A) :=
  do __value <- iter_read v (__first + __parent);
  do v <- __adjust_heap v __first __parent __len __value;
  match __parent with
  | O => Ok v
  | S __parent' => __make_heap_loop v __first __len __parent'
  end.

Definition __make_heap (v : list A) (__first __last : nat) : result (list A) :=
  if decide (__last - __first < 2) then Ok v
  else
    let __len := __last - __first in
    __make_heap_loop v __first __len ((__len - 2) / 2).

(** [__sort_heap]: [rounds] is the number of rounds of the loop,
    [__last - __first - 1]. *)
Fixpoint __sort_heap_loop (rounds : nat) (v : list A) (__first __last : nat)
    : result (list A) :=
  match rounds with
  | O => Ok v
  | S rounds' =>
      let __last := __last - 1 in
      do v <- __pop_heap v __first __last __last;
      __sort_heap_loop rounds' v __first __last
  end.

Definition __sort_heap (v : list A) (__first __last : nat) : result (list A) :=
  __sort_heap_loop (__last - __first - 1) v __first __last.

(** *** [bits/stl_algo.h] *)

Definition __move_median_to_first (v : list A) (__result __a __b __c : nat)
  : result (list A) :=
  do a <- iter_read v __a;
  do b <- iter_read v __b;
  do c <- iter_read v __c;
  if __comp a b then
    if __comp b c then iter_swap v __result __b
    else if __comp a c then iter_swap v __result __c
    else iter_swap v __result __a
  else if __comp a c then iter_swap v __result __a
  else if __comp b c then iter_swap v __result __c
  else iter_swap v __result __b.

(** [__heap_select(first, middle, last)] with [middle = last], as
    [__partial_sort(first, last, last)] calls it: the loop over
    [[middle, last)] has no round. *)
Definition __heap_select (v : list A) (__first __middle : nat) : result (list A) :=
  __make_heap v __first __middle.

Definition __partial_sort (v : list A) (__first __middle : nat) : result (list A) :=
  do v <- __heap_select v __first __middle;
  __sort_heap v __first __middle.

(** The loop of [__unguarded_linear_insert]: [__next] is [__last - 1];
    stepping below [begin()] is undefined. *)
Fixpoint __unguarded_linear_insert_loop (v : list A) (__val : A) (__last : nat)
    : result (list A) :=
  match __last with
  | O => Undefined
  | S __next =>
      do x <- iter_read v __next;
      if __comp __val x then
        do v <- iter_write v __last x;
        __unguarded_linear_insert_loop v __val __next
      else iter_write v __last __val
  end.

Definition __unguarded_linear_insert (v : list A) (__last : nat) : result (list A) :=
  do __val <- iter_read v __last;
  __unguarded_linear_insert_loop v __val __last.

(** [std::move_backward(first, last, last + 1)]. *)
Fixpoint move_backward (v : list A) (__first __last : nat) : result (list A) :=
  match __last with
  | O => if decide (__first = 0) then Ok v else Undefined
  | S __last' =>
      if decide (__first = __last) then Ok v
      else
        do x <- iter_read v __last';
        do v <- iter_write v __last x;
        move_backward v __first __last'
  end.

(** The loop of [__insertion_sort]: [rounds] is the number of rounds,
    [__last - __i]. *)
Fixpoint __insertion_sort_loop (rounds : nat) (v : list A) (__first __i : nat)
    : result (list A) :=
  match rounds with
  | O => Ok v
  | S rounds' =>
      do x <- iter_read v __i;
      do low <- iter_read v __first;
      do v <-
        (if __comp x low then
           do v <- move_backward v __first __i;
           iter_write v __first x
         else __unguarded_linear_insert v __i);
      __insertion_sort_loop rounds' v __first (S __i)
  end.

Definition __insertion_sort (v : list A) (__first __last : nat) : result (list A) :=
  if decide (__first = __last) then Ok v
  else __insertion_sort_loop (__last - (__first + 1)) v __first (__first + 1).

Fixpoint __unguarded_insertion_sort_loop (rounds : nat) (v : list A) (__i : nat)
    : result (list A) :=
  match rounds with
  | O => Ok v
  | S rounds' =>
      do v <- __unguarded_linear_insert v __i;
      __unguarded_insertion_sort_loop rounds' v (S __i)
  end.

Definition __unguarded_insertion_sort (v : list A) (__first __last : nat)
  : result (list A) :=
  __unguarded_insertion_sort_loop (__last - __first) v __first.

Definition _S_threshold : nat := 16.

Definition __final_insertion_sort (v : list A) (__first __last : nat) : result (list A) :=
  if decide (_S_threshold < __last - __first) then
    do v <- __insertion_sort v __first (__first + _S_threshold);
    __unguarded_insertion_sort v (__first + _S_threshold) __last
  else __insertion_sort v __first __last.

(** [while (__comp(__first, __pivot)) ++__first;]: [rest] is what the
    vector holds from [__first] on. *)
Fixpoint advance (rest : list A) (pivot : A) (__first : nat) : result nat :=
  match rest with
  | [] => Undefined
  | x :: rest' => if __comp x pivot then advance rest' pivot (S __first) else Ok __first
  end.

(** [while (__comp(__pivot, __last)) --__last;]. *)
Fixpoint retreat (v : list A) (pivot : A) (__last : nat) : result nat :=
  do y <- iter_read v __last;
  if __comp pivot y then
    match __last with
    | O => Undefined
    | S __last' => retreat v pivot __last'
    end
  else Ok __last.

(** [__unguarded_partition]: [__first] grows in every round and is read
    inside the vector, so [length v] rounds are never exceeded. *)
Fixpoint __unguarded_partition_loop (fuel : nat) (v : list A) (__first __last __pivot : nat)
    : result (list A * nat) :=
  do pivot <- iter_read v __pivot;
  do __first <- advance (drop __first v) pivot __first;
  match __last with
  | O => Undefined
  | S __last =>
      do __last <- retreat v pivot __last;
      if decide (__first < __last) then
        match fuel with
        | O => Undefined
        | S fuel' =>
            do v <- iter_swap v __first __last;
            __unguarded_partition_loop fuel' v (S __first) __last __pivot
        end
      else Ok (v, __first)
  end.

Definition __unguarded_partition (v : list A) (__first __last __pivot : nat)
  : result (list A * nat) :=
  __unguarded_partition_loop (length v) v __first __last __pivot.

Definition __unguarded_partition_pivot (v : list A) (__first __last : nat)
  : result (list A * nat) :=
  let __mid := __first + (__last - __first) / 2 in
  do v <- __move_median_to_first v __first (__first + 1) __mid (__last - 1);
  __unguarded_partition v (__first + 1) __last __first.

(** [__introsort_loop]: every round of the loop, like the call it makes,
    goes on with [__depth_limit] one less. *)
Fixpoint __introsort_loop (v : list A) (__first __last __depth_limit : nat)
    : result (list A) :=
  if decide (_S_threshold < __last - __first) then
    match __depth_limit with
    | O => __partial_sort v __first __last
    | S __depth_limit =>
        do parted <- __unguarded_partition_pivot v __first __last;
        let '(v, __cut) := parted in
        do v <- __introsort_loop v __cut __last __depth_limit;
        __introsort_loop v __first __cut __depth_limit
    end
  else Ok v.

(** [std::__lg]. *)
Definition __lg (n : nat) : nat := Nat.log2 n.

Definition __sort (v : list A) (__first __last : nat) : result (list A) :=
  if decide (__first = __last) then Ok v
  else
    do v <- __introsort_loop v __first __last (__lg (__last - __first) * 2);
    __final_insertion_sort v __first __last.

(** [std::sort(v.begin(), v.end(), comp)]. *)
Definition sort (v : list A) : result (list A) := __sort v 0 (length v).

End Sort.

(** *** [bits/random.h], [bits/random.tcc]: [std::mt19937]

    [mersenne_twister_engine<uint_fast32_t, 32, 624, 397, 31, 0x9908b0df,
    11, 0xffffffff, 7, 0x9d2c5680, 15, 0xefc60000, 18, 1812433253>];
    [uint_fast32_t] is the 64-bit [unsigned long]. *)

Definition to_unsigned_long (z : Z) : Z := z mod 2 ^ 64.

Definition state_size : nat := 624.

(** The state: the words [_M_x[state_size]] and the position [_M_p]. *)
Record mt19937 : Type := {
  _M_x : list Z;
  _M_p : nat
}.

(** The loop of [seed(result_type)], from [__i] on, [rounds] rounds;
    [__mod<_UIntType, __n>(__i)] is [__i mod 624] and
    [__mod<_UIntType, 2^32>(__x)] is [__x mod 2^32]. *)
Fixpoint seed_loop (rounds : nat) (__i : Z) (previous : Z) : list Z :=
  match rounds with
  | O => []
  | S rounds' =>
      let __x := previous in
      let __x := Z.lxor __x (Z.shiftr __x 30) in
      let __x := to_unsigned_long (__x * 1812433253) in
      let __x := to_unsigned_long (__x + __i mod 624) in
      let word := __x mod 2 ^ 32 in
      word :: seed_loop rounds' (__i + 1) word
  end.

(** [mersenne_twister_engine(result_type __sd)]. *)
Definition seed (__sd : Z) : mt19937 :=
  let first := __sd mod 2 ^ 32 in
  {| _M_x := first :: seed_loop (state_size - 1) 1 first; _M_p := state_size |}.

Definition __upper_mask : Z := to_unsigned_long (Z.shiftl (2 ^ 64 - 1) 31).
Definition __lower_mask : Z := 2 ^ 64 - 1 - __upper_mask.

(** One round of the loops of [_M_gen_rand]: word [k] from the words [k],
    [next] and [far].  The positions are below [state_size] in every
    round. *)
Definition twist (x : list Z) (k next far : nat) : list Z :=
  let __y := Z.lor (Z.land (x !!! k) __upper_mask) (Z.land (x !!! next) __lower_mask) in
  <[k := Z.lxor (Z.lxor (x !!! far) (Z.shiftr __y 1))
                (if Z.land __y 1 =? 0 then 0 else 2567483615)]> x.

Definition _M_gen_rand (g : mt19937) : mt19937 :=
  let x := _M_x g in
  let x := foldl (fun x k => twist x k (k + 1) (k + 397)) x (seq 0 (624 - 397)) in
  let x := foldl (fun x k => twist x k (k + 1) (k - (624 - 397))) x
                 (seq (624 - 397) (397 - 1)) in
  let x := twist x (624 - 1) 0 (397 - 1) in
  {| _M_x := x; _M_p := 0 |}.

(** [operator()]: the number drawn and the engine after the draw. *)
Definition draw (g : mt19937) : Z * mt19937 :=
  let g := if decide (state_size <= _M_p g)%nat then _M_gen_rand g else g in
  let __z := _M_x g !!! _M_p g in
  let g := {| _M_x := _M_x g; _M_p := S (_M_p g) |} in
  let __z := Z.lxor __z (Z.land (Z.shiftr __z 11) 4294967295) in
  let __z := Z.lxor __z (Z.land (to_unsigned_long (Z.shiftl __z 7)) 2636928640) in
  let __z := Z.lxor __z (Z.land (to_unsigned_long (Z.shiftl __z 15)) 4022730752) in
  let __z := Z.lxor __z (Z.shiftr __z 18) in
  (__z, g).

(** *** [bits/uniform_int_dist.h]: [std::uniform_int_distribution<int>] *)

(** The loop of [_S_nd]: as long as [__low] is below [__threshold] another
    number is drawn.  [patience] bounds the redraws of the model; it is
    not reached unless that many draws in a row are turned down. *)
Fixpoint _S_nd_loop (patience : nat) (g : mt19937) (__range __threshold __product : Z) : Z :=
  let __low := __product mod 2 ^ 32 in
  if __low <? __threshold then
    match patience with
    | O => __product
    | S patience' =>
        let '(number, g) := draw g in
        _S_nd_loop patience' g __range __threshold (to_unsigned_long (number * __range))
    end
  else __product.

(** [_S_nd<uint64_t>(__g, __range)] with a 32-bit [__range]: Lemire's
    nearly divisionless algorithm. *)
Definition _S_nd (g : mt19937) (__range : Z) : Z :=
  let '(number, g) := draw g in
  let __product := to_unsigned_long (number * __range) in
  let __low := __product mod 2 ^ 32 in
  let __product :=
    if __low <? __range then
      let __threshold := ((- __range) mod 2 ^ 32) mod __range in
      _S_nd_loop (Z.to_nat (2 ^ 16)) g __range __threshold __product
    else __product in
  Z.shiftr __product 32.

(** [operator()(__urng, __param)] on an [mt19937] and [int] bounds [a <= b]:
    [__urngrange] is [2^32 - 1], so the branch that widens the range of the
    generator is never taken. *)
Definition uniform_int_distribution (g : mt19937) (a b : Z) : Z :=
  let __urngrange := 2 ^ 32 - 1 in
  let __urange := to_unsigned_long (to_unsigned_long b - to_unsigned_long a) in
  let __ret :=
    if __urange <? __urngrange then
      let __uerange := to_unsigned_long (__urange + 1) in
      _S_nd g (__uerange mod 2 ^ 32)
    else (draw g).1 in
  to_int (to_unsigned_long (__ret + to_unsigned_long a)).

(** [std::mt19937 generator(seed); dis(generator)] for
    [std::uniform_int_distribution<int> dis(a, b)]; the [int] seed is
    converted to the [unsigned long] of the constructor. *)
Definition first_draw (seed_value a b : Z) : Z :=
  uniform_int_distribution (seed (to_unsigned_long seed_value)) a b.

End Libstdcxx.

(** *** What the sort of the library is shown to do *)

Section SortNotions.
Context {A : Type} (comp : A -> A -> bool).
Local Open Scope nat_scope.

(** [x] is not ordered after [y]. *)
Definition not_after (x y : A) : Prop := comp y x = false.

(** The elements of [v] at the positions [[first, last)]. *)
Definition range (v : list A) (first last : nat) : list A :=
  take (last - first) (drop first v).

(** [v'] is [v] with the elements at [[first, last)] rearranged and all
    others in place. *)
Definition rearranged (first last : nat) (v v' : list A) : Prop :=
  v' ≡ₚ v /\ forall k, k < first \/ last <= k -> v' !! k = v !! k.

(** The positions [[first, last)] hold their elements in sorted order. *)
Definition ascending (v : list A) (first last : nat) : Prop :=
  forall i j x y,
    first <= i -> i < j -> j < last ->
    v !! i = Some x -> v !! j = Some y -> not_after x y.

(** No element of [[first, cut)] is ordered after one of [[cut, last)]. *)
Definition parted (v : list A) (first cut last : nat) : Prop :=
  forall x y, x ∈ range v first cut -> y ∈ range v cut last -> not_after x y.

(** What [__introsort_loop] leaves for [__unguarded_insertion_sort]:
    every element [_S_threshold] or more positions into the range has
    before it, in the range, one that is not ordered after it. *)
Definition guarded (v : list A) (first last : nat) : Prop :=
  forall i y,
    first + Libstdcxx._S_threshold <= i -> i < last -> v !! i = Some y ->
    exists x, x ∈ range v first i /\ not_after x y.

(** The heap of [len] elements at [first], from [top] on: no element
    whose parent is at [top] or beyond is ordered after its parent. *)
Definition heap_from (v : list A) (first top len : nat) : Prop :=
  forall i x y,
    0 < i -> i < len -> top <= (i - 1) / 2 ->
    v !! (first + (i - 1) / 2) = Some x -> v !! (first + i) = Some y ->
    not_after y x.

(** The positions of the heap below [top], [top] included. *)
Inductive below (top : nat) : nat -> Prop :=
  | below_top : below top top
  | below_left p : below top p -> below top (2 * p + 1)
  | below_right p : below top p -> below top (2 * p + 2).

End SortNotions.

(** The earlier element, unless the later one is ordered before it. *)
Definition pick {A : Type} (comp : A -> A -> bool) (q x : A) : A :=
  if comp x q then x else q.

(** ** Sorts and generators that meet the contracts *)

(** [std::sort] of GNU libstdc++ as the engine calls it. *)
Definition gnu_sort {A : Type} (comp : A -> A -> bool) (l : list A) : list A :=
  match Libstdcxx.sort comp l with
  | Ok sorted => sorted
  | _ => l
  end.

(** [dis(generator)] as the engine runs it.  The bounds of the
    distribution are [int]s; for others, which no call can pass, the draw
    is [a]. *)
Definition gnu_uniform_int (seed_value a b : Z) : Z :=
  if decide (INT_MIN <= a /\ b <= INT_MAX) then Libstdcxx.first_draw seed_value a b else a.

Fixpoint insert_sorted {A : Type} (comp : A -> A -> bool) (x : A) (l : list A) : list A :=
  match l with
  | [] => [x]
  | y :: l' => if comp y x then y :: insert_sorted comp x l' else x :: y :: l'
  end.

(** Insertion sort: it keeps equivalent elements in their order.  It is
    another sort that meets the contract, not the one of the library. *)
Definition insertion_sort {A : Type} (comp : A -> A -> bool) (l : list A) : list A :=
  foldr (insert_sorted comp) [] l.

(** A generator whose first draw is the seed reduced to the range: another
    generator that meets the contract, not the one of the library. *)
Definition clock_draw (seed a b : Z) : Z := a + seed mod (b - a + 1).

(** ** Example graphs *)

Definition no_bot : ChatBot := {| _currentNode := None; _rootNode := None |}.

Definition at_root : ChatBot := {| _currentNode := Some 0%nat; _rootNode := Some 0%nat |}.

Definition leaf (answers : list cstring) (bot : ChatBot) : GraphNode :=
  {| _childEdges := []; _answers := answers; _chatBot := bot |}.

(** The root of the specification's example: edge A on "hi", edge B on
    "hello". *)
Definition greeting_root : GraphNode :=
  {| _childEdges := [ {| _keywords := [str "hi"]; _childNode := Some 1%nat |};
                      {| _keywords := [str "hello"]; _childNode := Some 2%nat |} ];
     _answers := [str "Welcome"];
     _chatBot := at_root |}.

Definition greeting_graph : ChatLogic :=
  {| _nodes := [ greeting_root;
                 leaf [str "Hi there"; str "Hey"] no_bot;
                 leaf [str "Hello to you"; str "Good day"] no_bot ];
     _chatBotHandle := Some 0%nat;
     _panelDialog := [] |}.

(** The same graph, back at the root after a first exchange. *)
Definition greeting_graph_later : ChatLogic :=
  {| _nodes := [ greeting_root;
                 leaf [str "Hi there"; str "Hey"]
                      {| _currentNode := Some 1%nat; _rootNode := Some 0%nat |};
                 leaf [str "Hello to you"; str "Good day"] no_bot ];
     _chatBotHandle := Some 0%nat;
     _panelDialog := [str "Hey"; str "Welcome"] |}.

(** The same graph with the chatbot on the leaf behind edge A. *)
Definition greeted : GraphNode :=
  leaf [str "Hi there"; str "Hey"]
       {| _currentNode := Some 1%nat; _rootNode := Some 0%nat |}.

Definition greeted_graph : ChatLogic :=
  {| _nodes := [ greeting_root; greeted;
                 leaf [str "Hello to you"; str "Good day"] no_bot ];
     _chatBotHandle := Some 1%nat;
     _panelDialog := [str "Hey"] |}.

(** Two edges whose keywords are equally far from "aa". *)
Definition tie_root : GraphNode :=
  {| _childEdges := [ {| _keywords := [str "ab"]; _childNode := Some 1%nat |};
                      {| _keywords := [str "ba"]; _childNode := Some 2%nat |} ];
     _answers := [str "Welcome"];
     _chatBot := at_root |}.

Definition tie_graph : ChatLogic :=
  {| _nodes := [ tie_root; leaf [str "first"] no_bot; leaf [str "second"] no_bot ];
     _chatBotHandle := Some 0%nat;
     _panelDialog := [] |}.

(** An edge into a node without responses. *)
Definition silent_root : GraphNode :=
  {| _childEdges := [ {| _keywords := [str "hi"]; _childNode := Some 1%nat |} ];
     _answers := [str "Welcome"];
     _chatBot := at_root |}.

Definition silent_graph : ChatLogic :=
  {| _nodes := [ silent_root; leaf [] no_bot ];
     _chatBotHandle := Some 0%nat;
     _panelDialog := [] |}.

(** A node with [2^31 + 1] outgoing edges. *)
Definition crowded_node : GraphNode :=
  {| _childEdges :=
       replicate (Z.to_nat (2 ^ 31 + 1)) {| _keywords := []; _childNode := None |};
     _answers := [str "Welcome"];
     _chatBot := no_bot |}.

(** A keyword of [2^31] characters. *)
Definition long_keyword : cstring := replicate (Z.to_nat (2 ^ 31)) "A"%char.

(** A leaf that holds a chatbot whose root was never set. *)
Definition rootless_leaf : GraphNode :=
  leaf [str "Welcome"] {| _currentNode := Some 0%nat; _rootNode := None |}.

Definition rootless_graph : ChatLogic :=
  {| _nodes := [rootless_leaf]; _chatBotHandle := Some 0%nat; _panelDialog := [] |}.






(** ** The chatbot as an object: the image it owns and the rule of five

    The engine above carries of a chatbot its two node handles.  Here the
    chatbot is the C++ object: it owns a [wxBitmap] on the free store,
    points at the chat logic, lives in a node or on the stack, and is
    created, copied, moved and destroyed by the special member functions of
    [src/chatbot.cpp]. *)

Module Objects.

(** The records of the engine, built under names that the records of this
    module do not hide. *)
Abbreviation engine_ChatBot := Build_ChatBot.
Abbreviation engine_GraphNode := Build_GraphNode.
Abbreviation engine_ChatLogic := Build_ChatLogic.

(** wxWidgets is not code of this repository.  Of a [wxBitmap] the chatbot
    uses the default constructor, the constructor from a PNG file and the
    assignment; an image is carried as what it shows. *)
Inductive wxBitmap : Type :=
  | wxBitmap_empty
  | wxBitmap_png (filename : cstring).

(** A member that a constructor leaves uninitialised holds an
    indeterminate value, and reading it is undefined. *)
Inductive value (A : Type) : Type :=
  | indeterminate
  | determinate (a : A).

Arguments indeterminate {A}.
Arguments determinate {A} a.

Definition rvalue {A : Type} (v : value A) : result A :=
  match v with
  | determinate a => Ok a
  | indeterminate => Undefined
  end.

(** A [ChatBot *]: the chatbot member of a node, or a chatbot with
    automatic storage (a local variable, a by-value parameter), by its
    position on the stack. *)
Inductive chatbot_ptr : Type :=
  | member (node : nat)
  | automatic (slot : nat).

#[global] Instance chatbot_ptr_eq_dec : EqDecision chatbot_ptr.
Proof. solve_decision. Defined.

(** [_image] is [None] for [NULL] and else an address of the free store;
    [_chatLogic] is [None] for [nullptr] and else points at the one chat
    logic of the program. *)
Record ChatBot : Type := {
  _image : option nat;
  _currentNode : value node_ptr;
  _rootNode : node_ptr;
  _chatLogic : option unit
}.

(** Modelled from the spec: [graphnode.h] is not among the sources.  A node
    has its id, the edges that lead to it (not owned), the edges that leave
    it (owned), its answers and its chatbot. *)
Record GraphNode : Type := {
  _id : Z;
  _parentEdges : list GraphEdge;
  _childEdges : list GraphEdge;
  _answers : list cstring;
  _chatBot : ChatBot
}.

(** What the special member functions print on [std::cout], with the
    addresses they print. *)
Inductive cout_line : Type :=
  | Constructor_line (this : chatbot_ptr)
  | Destructor_line (this : chatbot_ptr)
  | CopyConstructor_line (source this : chatbot_ptr)
  | CopyAssignment_line (source this : chatbot_ptr)
  | MoveConstructor_line (source this : chatbot_ptr)
  | MoveAssignment_line (source this : chatbot_ptr).

(** The running program: the chat logic with its nodes, its chatbot handle
    and its panel, the free store of images (an address is never handed out
    twice; [None] marks a deleted image), the chatbots with automatic
    storage, and the lines printed. *)
Record Process : Type := {
  _nodes : list GraphNode;
  _chatBotHandle : option chatbot_ptr;
  _panelDialog : list cstring;
  free_store : list (option wxBitmap);
  stack : list ChatBot;
  cout : list cout_line
}.

(** *** What the engine sees of the objects *)

Definition erase_value (v : value node_ptr) : node_ptr :=
  match v with
  | determinate p => p
  | indeterminate => None
  end.

Definition erase_ChatBot (bot : ChatBot) :=
  engine_ChatBot (erase_value (_currentNode bot)) (_rootNode bot).

Definition erase_GraphNode (n : GraphNode) :=
  engine_GraphNode (_childEdges n) (_answers n) (erase_ChatBot (_chatBot n)).

Definition erase_ptr (p : option chatbot_ptr) : node_ptr :=
  match p with
  | Some (member a) => Some a
  | _ => None
  end.

Definition erase (p : Process) :=
  engine_ChatLogic (erase_GraphNode <$> _nodes p) (erase_ptr (_chatBotHandle p))
                   (_panelDialog p).

(** *** Updates of one component *)

Definition with_nodes (nodes : list GraphNode) (p : Process) : Process :=
  {| _nodes := nodes; _chatBotHandle := _chatBotHandle p;
     _panelDialog := _panelDialog p; free_store := free_store p;
     stack := stack p; cout := cout p |}.

Definition with_free_store (store : list (option wxBitmap)) (p : Process) : Process :=
  {| _nodes := _nodes p; _chatBotHandle := _chatBotHandle p;
     _panelDialog := _panelDialog p; free_store := store;
     stack := stack p; cout := cout p |}.

Definition with_stack (objects : list ChatBot) (p : Process) : Process :=
  {| _nodes := _nodes p; _chatBotHandle := _chatBotHandle p;
     _panelDialog := _panelDialog p; free_store := free_store p;
     stack := objects; cout := cout p |}.

Definition with_chatBot (bot : ChatBot) (n : GraphNode) : GraphNode :=
  {| _id := _id n; _parentEdges := _parentEdges n; _childEdges := _childEdges n;
     _answers := _answers n; _chatBot := bot |}.

(** [std::cout << ... << std::endl]. *)
Definition print (line : cout_line) (p : Process) : Process :=
  {| _nodes := _nodes p; _chatBotHandle := _chatBotHandle p;
     _panelDialog := _panelDialog p; free_store := free_store p;
     stack := stack p; cout := cout p ++ [line] |}.

(** Modelled from the spec, as for the engine: [ChatLogic::SetChatbotHandle]
    and [ChatLogic::SendMessageToUser]. *)
Definition SetChatbotHandle (chatbot : chatbot_ptr) (p : Process) : Process :=
  {| _nodes := _nodes p; _chatBotHandle := Some chatbot;
     _panelDialog := _panelDialog p; free_store := free_store p;
     stack := stack p; cout := cout p |}.

Definition SendMessageToUser (message : cstring) (p : Process) : Process :=
  {| _nodes := _nodes p; _chatBotHandle := _chatBotHandle p;
     _panelDialog := _panelDialog p ++ [message]; free_store := free_store p;
     stack := stack p; cout := cout p |}.

(** *** The free store *)

(** [new wxBitmap(...)]: the image is placed at a fresh address.  (That the
    store is exhausted and [new] throws is left out.) *)
Definition new (bitmap : wxBitmap) (p : Process) : nat * Process :=
  (length (free_store p), with_free_store (free_store p ++ [Some bitmap]) p).

(** [delete image]: deleting what is not a live image is undefined. *)
Definition delete (image : nat) (p : Process) : result Process :=
  match free_store p !! image with
  | Some (Some _) => Ok (with_free_store (<[image := None]> (free_store p)) p)
  | _ => Undefined
  end.

(** [*image] read: through [NULL] or a deleted image it is undefined. *)
Definition bitmap_at (image : option nat) (p : Process) : result wxBitmap :=
  match image with
  | Some a =>
      match free_store p !! a with
      | Some (Some bitmap) => Ok bitmap
      | _ => Undefined
      end
  | None => Undefined
  end.

(** [*image = bitmap]. *)
Definition assign_bitmap (image : nat) (bitmap : wxBitmap) (p : Process) : result Process :=
  match free_store p !! image with
  | Some (Some _) => Ok (with_free_store (<[image := Some bitmap]> (free_store p)) p)
  | _ => Undefined
  end.

(** [if (_image != NULL) { delete _image; }]. *)
Definition delete_if_not_null (image : option nat) (p : Process) : result Process :=
  match image with
  | Some a => delete a p
  | None => Ok p
  end.

(** *** Chatbot objects *)

(** Reading the chatbot a pointer points at; a pointer to no node or to no
    slot of the stack dangles. *)
Definition get (this : chatbot_ptr) (p : Process) : result ChatBot :=
  match this with
  | member a =>
      match _nodes p !! a with
      | Some n => Ok (_chatBot n)
      | None => Undefined
      end
  | automatic k =>
      match stack p !! k with
      | Some bot => Ok bot
      | None => Undefined
      end
  end.

(** Writing the members of the chatbot a pointer points at. *)
Definition put (this : chatbot_ptr) (bot : ChatBot) (p : Process) : Process :=
  match this with
  | member a => with_nodes (alter (with_chatBot bot) a (_nodes p)) p
  | automatic k => with_stack (<[k := bot]> (stack p)) p
  end.

(** The constructors below build a chatbot with automatic storage, in the
    next slot of the stack: the program builds no other (the chatbot member
    of a node is default-constructed with its node). *)
Definition top (p : Process) : chatbot_ptr := automatic (length (stack p)).

Definition declare (bot : ChatBot) (p : Process) : Process :=
  with_stack (stack p ++ [bot]) p.

(** The storage of the automatic object declared last is released. *)
Definition release (p : Process) : Process :=
  with_stack (take (length (stack p) - 1) (stack p)) p.

(** [_chatLogic->...]: a call through [nullptr] is undefined. *)
Definition arrow (chatLogic : option unit) : result unit :=
  match chatLogic with
  | Some logic => Ok logic
  | None => Undefined
  end.

(** *** The special member functions *)

(** [ChatBot::ChatBot()]: the three handles it sets; [_currentNode] is
    left as it is. *)
Definition ChatBot_default : ChatBot :=
  {| _image := None; _currentNode := indeterminate; _rootNode := None;
     _chatLogic := None |}.

(** [ChatBot::ChatBot(std::string filename)]. *)
Definition ChatBot_from_file (filename : cstring) (p : Process) : Process :=
  let this := top p in
  let p := print (Constructor_line this) p in
  let '(image, p) := new (wxBitmap_png filename) p in
  declare {| _image := Some image; _currentNode := indeterminate;
             _rootNode := None; _chatLogic := None |} p.

(** [ChatBot::~ChatBot()]. *)
Definition destructor (this : chatbot_ptr) (p : Process) : result Process :=
  let p := print (Destructor_line this) p in
  do bot <- get this p;
  match _image bot with
  | Some image =>
      do p <- delete image p;
      Ok (put this {| _image := None; _currentNode := _currentNode bot;
                      _rootNode := _rootNode bot; _chatLogic := _chatLogic bot |} p)
  | None => Ok p
  end.

(** [ChatBot::ChatBot(const ChatBot &source)]. *)
Definition copy_constructor (source : chatbot_ptr) (p : Process) : result Process :=
  let this := top p in
  let p := print (CopyConstructor_line source this) p in
  do src <- get source p;
  let '(image, p) := new wxBitmap_empty p in
  do bitmap <- bitmap_at (_image src) p;
  do p <- assign_bitmap image bitmap p;
  do currentNode <- rvalue (_currentNode src);
  let p := declare {| _image := Some image; _currentNode := determinate currentNode;
                      _rootNode := _rootNode src; _chatLogic := _chatLogic src |} p in
  do _ <- arrow (_chatLogic src);
  Ok (SetChatbotHandle this p).

(** [ChatBot::operator=(const ChatBot &source)]. *)
Definition copy_assignment (this source : chatbot_ptr) (p : Process) : result Process :=
  let p := print (CopyAssignment_line source this) p in
  if decide (this = source) then Ok p
  else
    do self <- get this p;
    do p <- delete_if_not_null (_image self) p;
    let '(image, p) := new wxBitmap_empty p in
    do src <- get source p;
    do bitmap <- bitmap_at (_image src) p;
    do p <- assign_bitmap image bitmap p;
    do currentNode <- rvalue (_currentNode src);
    let p := put this {| _image := Some image; _currentNode := determinate currentNode;
                         _rootNode := _rootNode src; _chatLogic := _chatLogic src |} p in
    do _ <- arrow (_chatLogic src);
    Ok (SetChatbotHandle this p).

(** What the move operations leave in the source. *)
Definition moved_from : ChatBot :=
  {| _image := None; _currentNode := determinate None; _rootNode := None;
     _chatLogic := None |}.

(** The chatbot a copy or a move makes of [src]: its handles, with the
    cursor read as [node], and the image given. *)
Definition taking (image : option nat) (node : node_ptr) (src : ChatBot) : ChatBot :=
  {| _image := image; _currentNode := determinate node;
     _rootNode := _rootNode src; _chatLogic := _chatLogic src |}.

(** [ChatBot::ChatBot(ChatBot &&source)]. *)
Definition move_constructor (source : chatbot_ptr) (p : Process) : result Process :=
  let this := top p in
  let p := print (MoveConstructor_line source this) p in
  do src <- get source p;
  do currentNode <- rvalue (_currentNode src);
  let p := declare {| _image := _image src; _currentNode := determinate currentNode;
                      _rootNode := _rootNode src; _chatLogic := _chatLogic src |} p in
  do _ <- arrow (_chatLogic src);
  Ok (put source moved_from (SetChatbotHandle this p)).

(** [ChatBot::operator=(ChatBot &&source)]. *)
Definition move_assignment (this source : chatbot_ptr) (p : Process) : result Process :=
  let p := print (MoveAssignment_line source this) p in
  if decide (this = source) then Ok p
  else
    do self <- get this p;
    do p <- delete_if_not_null (_image self) p;
    do src <- get source p;
    do currentNode <- rvalue (_currentNode src);
    let p := put this {| _image := _image src; _currentNode := determinate currentNode;
                         _rootNode := _rootNode src; _chatLogic := _chatLogic src |} p in
    do _ <- arrow (_chatLogic src);
    Ok (put source moved_from (SetChatbotHandle this p)).

(** The chatbot declared last goes out of scope: it is destroyed and its
    storage is released. *)
Definition leave_scope (p : Process) : result Process :=
  do p <- destructor (automatic (length (stack p) - 1)) p;
  Ok (release p).

(** The ways a program creates, copies, moves and destroys chatbots:
    [ChatBot x;], [ChatBot x(filename);], [ChatBot x(source);],
    [ChatBot x(std::move(source));], [target = source;],
    [target = std::move(source);] and the end of the scope of the chatbot
    declared last. *)
Inductive special_member : Type :=
  | declare_default
  | declare_from_file (filename : cstring)
  | declare_copy (source : chatbot_ptr)
  | declare_move (source : chatbot_ptr)
  | assign_copy (target source : chatbot_ptr)
  | assign_move (target source : chatbot_ptr)
  | end_of_scope.

Definition call (f : special_member) (p : Process) : result Process :=
  match f with
  | declare_default => Ok (declare ChatBot_default p)
  | declare_from_file filename => Ok (ChatBot_from_file filename p)
  | declare_copy source => copy_constructor source p
  | declare_move source => move_constructor source p
  | assign_copy target source => copy_assignment target source p
  | assign_move target source => move_assignment target source p
  | end_of_scope => leave_scope p
  end.

Fixpoint calls (fs : list special_member) (p : Process) : result Process :=
  match fs with
  | [] => Ok p
  | f :: rest => do p' <- call f p; calls rest p'
  end.

(** *** The graph store and the hand-over, on objects *)

(** [GraphNode::GraphNode(int id)]: the vectors start empty and the chatbot
    member is default-constructed. *)
Definition GraphNode_new (id : Z) : GraphNode :=
  {| _id := id; _parentEdges := []; _childEdges := []; _answers := [];
     _chatBot := ChatBot_default |}.

Definition AddToken (token : cstring) (n : GraphNode) : GraphNode :=
  {| _id := _id n; _parentEdges := _parentEdges n; _childEdges := _childEdges n;
     _answers := _answers n ++ [token]; _chatBot := _chatBot n |}.

Definition AddEdgeToParentNode (edge : GraphEdge) (n : GraphNode) : GraphNode :=
  {| _id := _id n; _parentEdges := _parentEdges n ++ [edge];
     _childEdges := _childEdges n; _answers := _answers n; _chatBot := _chatBot n |}.

Definition AddEdgeToChildNode (edge : GraphEdge) (n : GraphNode) : GraphNode :=
  {| _id := _id n; _parentEdges := _parentEdges n;
     _childEdges := _childEdges n ++ [edge]; _answers := _answers n;
     _chatBot := _chatBot n |}.

(** [GraphNode::~GraphNode()], on the node at [node]: the body is empty,
    and the chatbot member is destroyed with its node. *)
Definition GraphNode_destructor (node : nat) (p : Process) : result Process :=
  destructor (member node) p.

(** Modelled from the spec: the chat logic owns the nodes, and at the end
    of the program they are destroyed one after the other. *)
Fixpoint destroy_nodes (nodes : list nat) (p : Process) : result Process :=
  match nodes with
  | [] => Ok p
  | node :: rest => do p' <- GraphNode_destructor node p; destroy_nodes rest p'
  end.

Definition tear_down (p : Process) : result Process :=
  destroy_nodes (seq 0 (length (_nodes p))) p.

(** Following a node pointer. *)
Definition deref (p : Process) (node : node_ptr) : result GraphNode :=
  match node with
  | Some a => match _nodes p !! a with Some n => Ok n | None => Undefined end
  | None => Undefined
  end.

(** [ChatBot::SetCurrentNode], on the chatbot [this] points at. *)
Definition SetCurrentNode {R : StdRandom} (this : chatbot_ptr) (node : node_ptr) (now : Z)
    (p : Process) : result Process :=
  do bot <- get this p;
  let p := put this {| _image := _image bot; _currentNode := determinate node;
                       _rootNode := _rootNode bot; _chatLogic := _chatLogic bot |} p in
  do current <- deref p node;
  let answers := _answers current in
  let last := to_int (to_size_t (size answers - 1)) in
  if last <? 0 then Undefined
  else
    do answer <- vector_at answers (uniform_int (to_int now) 0 last);
    do _ <- arrow (_chatLogic bot);
    Ok (SendMessageToUser answer p).

(** [GraphNode::MoveChatbotHere(ChatBot chatbot)], called on node [this];
    [chatbot] points at the by-value parameter. *)
Definition MoveChatbotHere {R : StdRandom} (this : nat) (chatbot : chatbot_ptr) (now : Z)
    (p : Process) : result Process :=
  do _ <- deref p (Some this);
  do p <- copy_assignment (member this) chatbot p;
  SetCurrentNode (member this) (Some this) now p.

(** [GraphNode::MoveChatbotToNewNode], called on node [this]: the argument
    [_chatBot] is an lvalue, so the parameter of [MoveChatbotHere] is
    copy-constructed from it on the stack; it is destroyed when the call
    returns. *)
Definition MoveChatbotToNewNode {R : StdRandom} (this : nat) (newNode : node_ptr) (now : Z)
    (p : Process) : result Process :=
  do _ <- deref p (Some this);
  let chatbot := top p in
  do p <- copy_constructor (member this) p;
  match newNode with
  | Some target =>
      do p <- MoveChatbotHere target chatbot now p;
      do p <- destructor chatbot p;
      Ok (release p)
  | None => Undefined
  end.

(** [ChatBot::ReceiveMessageFromUser], on the chatbot [this] points at; the
    enumeration and the selection are those of the engine. *)
Definition ReceiveMessageFromUser {S : StdSort} {R : StdRandom} (this : chatbot_ptr)
    (message : cstring) (now : Z) (p : Process) : result Process :=
  do bot <- get this p;
  do currentNode <- rvalue (_currentNode bot);
  do current <- deref p currentNode;
  do levDists <- enumerate_pairs (erase_GraphNode current) message;
  do newNode <- select_new_node (erase_ChatBot bot) levDists;
  match currentNode with
  | Some c => MoveChatbotToNewNode c newNode now p
  | None => Undefined
  end.

(** The chat logic forwards a message to the chatbot its handle points
    at. *)
Definition SendMessageToChatbot {S : StdSort} {R : StdRandom} (message : cstring)
    (now : Z) (p : Process) : result Process :=
  match _chatBotHandle p with
  | Some this => ReceiveMessageFromUser this message now p
  | None => Undefined
  end.

(** A conversation, as for the engine: the answers handed to the panel. *)
Fixpoint converse {S : StdSort} {R : StdRandom} (inputs : list (cstring * Z))
    (p : Process) : result (list cstring) :=
  match inputs with
  | [] => Ok []
  | (message, now) :: rest =>
      do p' <- SendMessageToChatbot message now p;
      do later <- converse rest p';
      Ok (drop (length (_panelDialog p)) (_panelDialog p') ++ later)
  end.

(** *** Ownership *)

(** The image a pointer's chatbot holds, if the pointer points at a
    chatbot and that chatbot holds one. *)
Definition image_of (p : Process) (this : chatbot_ptr) : option nat :=
  match get this p with
  | Ok bot => _image bot
  | _ => None
  end.

(** An address of the free store holds an image that was not deleted. *)
Definition live (p : Process) (image : nat) : Prop :=
  exists bitmap, free_store p !! image = Some (Some bitmap).

(** The free store once the image a chatbot held, if it held one, is
    deleted. *)
Definition released (image : option nat) (store : list (option wxBitmap))
  : list (option wxBitmap) :=
  match image with
  | Some a => <[a := None]> store
  | None => store
  end.

(** The policy, for any assignment of images to chatbots and any set of
    live images. *)
Definition ownership (O : chatbot_ptr -> option nat) (L : nat -> Prop) : Prop :=
  (forall this image, O this = Some image -> L image) /\
  (forall this other image, O this = Some image -> O other = Some image -> this = other) /\
  (forall image, L image -> exists this, O this = Some image).

(** The assignment once [this] holds [v]. *)
Definition update (O : chatbot_ptr -> option nat) (this : chatbot_ptr) (v : option nat)
  : chatbot_ptr -> option nat :=
  fun other => if decide (other = this) then v else O other.

(** The ownership policy of the chatbot: no chatbot holds a deleted image,
    no two chatbots hold the same image, and no image is left without a
    chatbot that holds it. *)
Definition exclusive_ownership (p : Process) : Prop :=
  ownership (image_of p) (live p).

(** A chatbot that can be copied and moved: it holds an image, its cursor
    was set and it is attached to the chat logic. *)
Definition in_service (bot : ChatBot) : Prop :=
  is_Some (_image bot) /\
  (exists node, _currentNode bot = determinate node) /\
  is_Some (_chatLogic bot).

(** The chat logic points at the chatbot of node [h], which is in service
    with its cursor on [h], and no call is in progress. *)
Definition serving (p : Process) (h : nat) : Prop :=
  _chatBotHandle p = Some (member h) /\
  stack p = [] /\
  exists bot,
    get (member h) p = Ok bot /\ in_service bot /\
    _currentNode bot = determinate (Some h).

(** The process after the chatbot [src] of node [this] has been handed to
    node [target], which was [tn]: [bitmap] is the picture of the chatbot's
    image and [answer] the answer chosen. *)
Definition handed_over (p : Process) (this : nat) (src : ChatBot) (target : nat)
    (tn : GraphNode) (bitmap : wxBitmap) (answer : cstring) : Process :=
  {| _nodes :=
       <[target := with_chatBot {| _image := Some (S (length (free_store p)));
                                   _currentNode := determinate (Some target);
                                   _rootNode := _rootNode src;
                                   _chatLogic := _chatLogic src |} tn]> (_nodes p);
     _chatBotHandle := Some (member target);
     _panelDialog := _panelDialog p ++ [answer];
     free_store := released (_image (_chatBot tn)) (free_store p) ++ [None; Some bitmap];
     stack := stack p;
     cout := cout p ++ [ CopyConstructor_line (member this) (top p);
                         CopyAssignment_line (top p) (member target);
                         Destructor_line (top p) ] |}.

(** The outcome of the objects against the outcome of the engine. *)
Definition refines (r : result Process) (r' : result ChatLogic) : Prop :=
  match r, r' with
  | Ok p, Ok w => erase p = w
  | Throw e, Throw e' => e = e'
  | Undefined, Undefined => True
  | _, _ => False
  end.

End Objects.

(** ** Example processes *)

(** The chatbot of the greeting graph, in service on the root. *)
Definition chatbot_at_root : Objects.ChatBot :=
  {| Objects._image := Some 0%nat;
     Objects._currentNode := Objects.determinate (Some 0%nat);
     Objects._rootNode := Some 0%nat;
     Objects._chatLogic := Some tt |}.

(** The greeting graph as the loader builds it, node by node. *)
Definition greeting_nodes : list Objects.GraphNode :=
  [ Objects.with_chatBot chatbot_at_root
      (Objects.AddEdgeToChildNode {| _keywords := [str "hello"]; _childNode := Some 2%nat |}
         (Objects.AddEdgeToChildNode {| _keywords := [str "hi"]; _childNode := Some 1%nat |}
            (Objects.AddToken (str "Welcome") (Objects.GraphNode_new 0))));
    Objects.AddEdgeToParentNode {| _keywords := [str "hi"]; _childNode := Some 1%nat |}
      (Objects.AddToken (str "Hey")
         (Objects.AddToken (str "Hi there") (Objects.GraphNode_new 1)));
    Objects.AddEdgeToParentNode {| _keywords := [str "hello"]; _childNode := Some 2%nat |}
      (Objects.AddToken (str "Good day")
         (Objects.AddToken (str "Hello to you") (Objects.GraphNode_new 2))) ].

Definition greeting_process : Objects.Process :=
  {| Objects._nodes := greeting_nodes;
     Objects._chatBotHandle := Some (Objects.member 0);
     Objects._panelDialog := [];
     Objects.free_store := [Some (Objects.wxBitmap_png (str "chatbot.png"))];
     Objects.stack := [];
     Objects.cout := [] |}.

(** The same with a second chatbot, in a local variable, that holds an
    image of its own. *)
Definition visiting_process : Objects.Process :=
  {| Objects._nodes := greeting_nodes;
     Objects._chatBotHandle := Some (Objects.member 0);
     Objects._panelDialog := [];
     Objects.free_store := [ Some (Objects.wxBitmap_png (str "chatbot.png"));
                             Some (Objects.wxBitmap_png (str "visitor.png")) ];
     Objects.stack := [ {| Objects._image := Some 1%nat;
                           Objects._currentNode := Objects.determinate (Some 1%nat);
                           Objects._rootNode := Some 0%nat;
                           Objects._chatLogic := Some tt |} ];
     Objects.cout := [] |}.

(** A visit: a guest chatbot is loaded, the chatbot of the root is copied
    into a local variable, and images change hands until both locals are
    gone. *)
Definition visit : list Objects.special_member :=
  [ Objects.declare_from_file (str "guest.png");
    Objects.declare_copy (Objects.member 0);
    Objects.assign_move (Objects.automatic 0) (Objects.automatic 2);
    Objects.assign_copy (Objects.member 1) (Objects.automatic 0);
    Objects.end_of_scope;
    Objects.declare_move (Objects.automatic 0);
    Objects.end_of_scope ].

(** * Proofs *)

(** ** The recurrence [lev] is the edit distance *)

Section Recurrence.
Local Open Scope nat_scope.

Lemma lev_nil_l b : lev [] b = length b.
Proof. reflexivity. Qed.

Lemma lev_nil_r a : lev a [] = length a.
Proof. destruct a; reflexivity. Qed.

Lemma lev_cons_cons x a y b :
  lev (x :: a) (y :: b) =
  if Ascii.eqb x y then lev a b
  else S (Nat.min (lev (x :: a) b) (Nat.min (lev a (y :: b)) (lev a b))).
Proof. reflexivity. Qed.

Lemma lev_sym a : forall b, lev a b = lev b a.
Proof.
  induction a as [|x a IHa]; intros b.
  - rewrite lev_nil_l, lev_nil_r. reflexivity.
  - induction b as [|y b IHb].
    + rewrite lev_nil_l, lev_nil_r. reflexivity.
    + rewrite !lev_cons_cons, (Ascii.eqb_sym y x).
      rewrite IHb, (IHa (y :: b)), (IHa b).
      destruct (Ascii.eqb x y); [reflexivity|]. f_equal. lia.
Qed.

Lemma lev_refl a : lev a a = 0.
Proof.
  induction a as [|x a IH]; [reflexivity|].
  rewrite lev_cons_cons, Ascii.eqb_refl. exact IH.
Qed.

Lemma lev_le_max a : forall b, lev a b <= Nat.max (length a) (length b).
Proof.
  induction a as [|x a IHa]; intros b.
  - rewrite lev_nil_l. lia.
  - induction b as [|y b IHb].
    + rewrite lev_nil_r. lia.
    + rewrite lev_cons_cons. specialize (IHa b). cbn [length].
      destruct (Ascii.eqb x y); lia.
Qed.

(** Adding a character in front of one argument moves the distance by at
    most one, in either direction. *)
Lemma lev_cons_l_aux n :
  forall a b, length a + length b <= n ->
    forall x, lev (x :: a) b <= S (lev a b) /\ lev a b <= S (lev (x :: a) b).
Proof.
  induction n as [|n IH]; intros a b Hn x.
  - destruct a, b; cbn in Hn; try lia. cbn. lia.
  - destruct b as [|y b].
    + rewrite !lev_nil_r. cbn [length]. lia.
    + cbn [length] in Hn.
      assert (Hb : forall z, lev a (z :: b) <= S (lev a b) /\ lev a b <= S (lev a (z :: b))).
      { intros z. rewrite !(lev_sym a). apply IH. lia. }
      assert (Ha : lev (x :: a) b <= S (lev a b) /\ lev a b <= S (lev (x :: a) b)).
      { apply IH. lia. }
      rewrite lev_cons_cons. specialize (Hb y).
      destruct (Ascii.eqb x y); lia.
Qed.

Lemma lev_cons_l x a b : lev (x :: a) b <= S (lev a b).
Proof. eapply lev_cons_l_aux. reflexivity. Qed.

Lemma lev_uncons_l x a b : lev a b <= S (lev (x :: a) b).
Proof. eapply lev_cons_l_aux. reflexivity. Qed.

Lemma lev_substitute_l x d a : forall b, lev (x :: a) b <= S (lev (d :: a) b).
Proof.
  induction b as [|y b IH].
  - rewrite !lev_nil_r. cbn. lia.
  - rewrite !lev_cons_cons.
    pose proof (lev_uncons_l d a b). pose proof (lev_uncons_l y b a) as H1.
    rewrite <- !(lev_sym a) in H1.
    destruct (Ascii.eqb x y), (Ascii.eqb d y); lia.
Qed.

(** One edit of the first string moves [lev] by at most one. *)
Lemma lev_edit1 a b : edit1 a b -> forall c, lev a c <= S (lev b c).
Proof.
  induction 1 as [x s|x s|x d s|x s t _ IH]; intros c.
  - apply lev_uncons_l.
  - apply lev_cons_l.
  - apply lev_substitute_l.
  - induction c as [|y c IHc].
    + specialize (IH []). rewrite !lev_nil_r in *. cbn [length]. lia.
    + rewrite !lev_cons_cons. pose proof (IH (y :: c)). pose proof (IH c).
      destruct (Ascii.eqb x y); lia.
Qed.

(** No sequence of edits is shorter than [lev]. *)
Lemma lev_lower_bound k a b : edits k a b -> lev a b <= k.
Proof.
  induction 1 as [a|n a b c H1 _ IH].
  - rewrite lev_refl. lia.
  - pose proof (lev_edit1 _ _ H1 c). lia.
Qed.

Lemma edits_trans n m a b c : edits n a b -> edits m b c -> edits (n + m) a c.
Proof.
  induction 1 as [a|n a b' b H1 _ IH]; intros H2; [exact H2|].
  cbn. eapply edits_step; [exact H1|]. apply IH, H2.
Qed.

Lemma edits_one a b : edit1 a b -> edits 1 a b.
Proof. intros H. eapply edits_step; [exact H|]. constructor. Qed.

Lemma edits_skip x n a b : edits n a b -> edits n (x :: a) (x :: b).
Proof.
  induction 1 as [a|n a b c H1 _ IH]; [constructor|].
  eapply edits_step; [apply edit1_skip, H1|exact IH].
Qed.

Lemma edits_snoc n a b c : edits n a b -> edit1 b c -> edits (S n) a c.
Proof.
  intros H1 H2. replace (S n) with (n + 1) by lia.
  eapply edits_trans; [exact H1|]. apply edits_one, H2.
Qed.

Lemma edits_insert_all b : edits (length b) [] b.
Proof.
  induction b as [|y b IH]; [constructor|].
  cbn [length]. eapply edits_snoc; [exact IH|]. constructor.
Qed.

Lemma edits_delete_all a : edits (length a) a [].
Proof.
  induction a as [|x a IH]; [constructor|].
  cbn [length]. eapply edits_step; [apply edit1_delete|exact IH].
Qed.

(** [lev] edits suffice. *)
Lemma lev_upper_bound a : forall b, edits (lev a b) a b.
Proof.
  induction a as [|x a IHa]; intros b.
  - rewrite lev_nil_l. apply edits_insert_all.
  - induction b as [|y b IHb].
    + rewrite lev_nil_r. apply edits_delete_all.
    + rewrite lev_cons_cons. destruct (Ascii.eqb_spec x y) as [->|Hxy].
      * apply edits_skip, IHa.
      * destruct (Nat.min_spec (lev (x :: a) b) (Nat.min (lev a (y :: b)) (lev a b)))
          as [[_ ->]|[_ ->]].
        { eapply edits_snoc; [exact IHb|]. constructor. }
        destruct (Nat.min_spec (lev a (y :: b)) (lev a b)) as [[_ ->]|[_ ->]].
        { eapply edits_step; [apply edit1_delete|]. apply IHa. }
        { eapply edits_step; [apply (edit1_substitute x y)|]. apply edits_skip, IHa. }
Qed.

Lemma lev_edit_distance a b : edit_distance a b (lev a b).
Proof. split; [apply lev_upper_bound|]. intros k. apply lev_lower_bound. Qed.

Lemma edit1_app_l p s t : edit1 s t -> edit1 (p ++ s) (p ++ t).
Proof. intros H. induction p as [|c p IH]; [exact H|]. cbn. apply edit1_skip, IH. Qed.

Lemma edit1_app_r q s t : edit1 s t -> edit1 (s ++ q) (t ++ q).
Proof. induction 1; cbn; constructor; assumption. Qed.

(** An edit touches one position: the inductive reading of [edit1] and the
    reading by prefix and suffix agree. *)
Lemma edit1_position a b :
  edit1 a b <->
  exists p s,
    (exists c, a = p ++ s /\ b = p ++ c :: s) \/
    (exists c, a = p ++ c :: s /\ b = p ++ s) \/
    (exists c d, a = p ++ c :: s /\ b = p ++ d :: s).
Proof.
  split.
  - induction 1 as [c s|c s|c d s|c s t _ (p & s' & IH)].
    + exists [], s. left. eauto.
    + exists [], s. right. left. eauto.
    + exists [], s. right. right. eauto.
    + exists (c :: p), s'.
      destruct IH as [(x & -> & ->)|[(x & -> & ->)|(x & y & -> & ->)]]; cbn; eauto 6.
  - intros (p & s & [(c & -> & ->)|[(c & -> & ->)|(c & d & -> & ->)]]);
      apply edit1_app_l; constructor.
Qed.

Lemma edit1_rev a b : edit1 a b -> edit1 (rev a) (rev b).
Proof.
  induction 1 as [c s|c s|c d s|c s t _ IH]; cbn [rev].
  - rewrite <- (app_nil_r (rev s)) at 1. apply edit1_app_l. constructor.
  - rewrite <- (app_nil_r (rev s)) at 2. apply edit1_app_l. constructor.
  - apply edit1_app_l. constructor.
  - apply edit1_app_r, IH.
Qed.

Lemma edits_rev n a b : edits n a b -> edits n (rev a) (rev b).
Proof.
  induction 1 as [a|n a b c H1 _ IH]; [constructor|].
  eapply edits_step; [apply edit1_rev, H1|exact IH].
Qed.

(** Reading both strings backwards does not change [lev]: the cost row
    works on prefixes, the recurrence on suffixes. *)
Lemma lev_rev a b : lev (rev a) (rev b) = lev a b.
Proof.
  apply Nat.le_antisymm.
  - apply lev_lower_bound, edits_rev, lev_upper_bound.
  - apply lev_lower_bound.
    pose proof (edits_rev _ _ _ (lev_upper_bound (rev a) (rev b))) as H.
    rewrite !rev_involutive in H. exact H.
Qed.

Lemma lev_triangle a b c : lev a c <= lev a b + lev b c.
Proof.
  apply lev_lower_bound.
  eapply edits_trans; apply lev_upper_bound.
Qed.

End Recurrence.

(** ** The cost row computes [lev] *)

Lemma to_size_t_small z : 0 <= z < SIZE_MODULUS -> to_size_t z = z.
Proof. intros H. unfold to_size_t. apply Z.mod_small, H. Qed.

Lemma to_size_t_range z : 0 <= to_size_t z < SIZE_MODULUS.
Proof. unfold to_size_t. apply Z.mod_pos_bound. reflexivity. Qed.

Lemma to_size_t_le z : 0 <= z -> to_size_t z <= z.
Proof. intros H. unfold to_size_t. apply Z.mod_le; [exact H|reflexivity]. Qed.

Lemma read_lookup costs k v : costs !! Z.to_nat k = Some v -> read costs k = Ok v.
Proof. unfold read. intros ->. reflexivity. Qed.

Lemma write_insert costs k v :
(Z.to_nat k < length costs)%nat -> write costs k v = Ok (<[Z.to_nat k := v]> costs).
Proof. unfold write. intros H. destruct (decide _); [reflexivity|contradiction]. Qed.

Lemma bind_ok {A B} (r : result A) (k : A -> result B) a :
r = Ok a -> bind r k = k a.
Proof. intros ->. reflexivity. Qed.

Section Rows.
Variable s2 : cstring.
Hypothesis s2_fits : size s2 < SIZE_MODULUS.

Lemma cell_0 U : cell s2 U 0 = size U.
Proof. unfold cell, size. cbn. rewrite lev_nil_r. reflexivity. Qed.

Lemma cell_nil k : (k <= length s2)%nat -> cell s2 [] k = Z.of_nat k.
Proof.
  intros H. unfold cell. rewrite lev_nil_l, length_rev, length_take. f_equal. lia.
Qed.

Lemma cell_bound U k : cell s2 U k <= Z.max (size U) (size s2).
Proof.
  unfold cell, size. pose proof (lev_le_max U (rev (take k s2))) as H.
  rewrite length_rev, length_take in H. lia.
Qed.

Lemma cell_step x U j c2 :
  s2 !! j = Some c2 ->
  cell s2 (x :: U) (S j) =
  if Ascii.eqb x c2 then cell s2 U j
  else Z.min (cell s2 (x :: U) j) (Z.min (cell s2 U (S j)) (cell s2 U j)) + 1.
Proof.
  intros Hj. unfold cell. rewrite (take_S_r _ _ _ Hj), rev_unit, lev_cons_cons.
  destruct (Ascii.eqb x c2); [reflexivity|]. lia.
Qed.

Lemma init_costs_row : is_row s2 [] (init_costs (length s2)).
Proof.
  unfold init_costs. split.
  - rewrite length_map, length_seq. reflexivity.
  - intros k Hk. rewrite list_lookup_fmap, lookup_seq_lt by lia.
    cbn. rewrite cell_nil by exact Hk. reflexivity.
Qed.

(** The inner loop turns the row of [U] into the row of [x :: U]. *)
Lemma inner_loop_row x U :
  size U + 1 < SIZE_MODULUS ->
  forall todo j costs,
    drop j s2 = todo ->
    mixed_row s2 x U j costs ->
    exists costs',
      inner_loop x todo (Z.of_nat j) (cell s2 U j) costs = Ok costs' /\
      is_row s2 (x :: U) costs'.
Proof.
  intros HU. induction todo as [|c2 todo IH]; intros j costs Hdrop [Hlen Hrow].
  - exists costs. split; [reflexivity|]. split; [exact Hlen|].
    intros k Hk. rewrite (Hrow k Hk). destruct (decide _) as [|Hn]; [reflexivity|].
    exfalso. apply Hn. assert (length (drop j s2) = 0%nat) as H0 by (rewrite Hdrop; reflexivity).
    rewrite length_drop in H0. lia.
  - assert (Hj : s2 !! j = Some c2).
    { rewrite <- (Nat.add_0_r j), <- lookup_drop, Hdrop. reflexivity. }
    assert (Hjlt : (j < length s2)%nat) by (eapply lookup_lt_Some; exact Hj).
    assert (Hdrop' : drop (S j) s2 = todo).
    { rewrite (drop_S _ _ _ Hj) in Hdrop. congruence. }
    unfold size in *.
    assert (Hidx : Z.to_nat (to_size_t (Z.of_nat j + 1)) = S j).
    { rewrite to_size_t_small by lia. lia. }
    assert (HjS : to_size_t (Z.of_nat j + 1) = Z.of_nat (S j)).
    { rewrite to_size_t_small by lia. lia. }
    cbn [inner_loop].
    rewrite (bind_ok _ _ (cell s2 U (S j))).
    2:{ apply read_lookup. rewrite Hidx, (Hrow (S j)) by lia.
        destruct (decide _); [lia|reflexivity]. }
    set (v := cell s2 (x :: U) (S j)).
    rewrite (bind_ok _ _ (<[S j := v]> costs)).
    2:{ pose proof (cell_step x U j c2 Hj) as Hstep.
        pose proof (cell_bound (x :: U) (S j)) as Hb. fold v in Hstep, Hb.
        unfold size in Hb. cbn [length] in Hb.
        destruct (Ascii.eqb x c2).
        - rewrite write_insert by (rewrite Hidx; lia).
          rewrite Hidx, Hstep. reflexivity.
        - rewrite (bind_ok _ _ (cell s2 (x :: U) j)).
          2:{ apply read_lookup. rewrite Nat2Z.id, (Hrow j) by lia.
              destruct (decide _); [reflexivity|lia]. }
          rewrite write_insert by (rewrite Hidx; lia). rewrite Hidx.
          do 2 f_equal.
          assert (0 <= v) by (unfold v, cell; lia).
          rewrite <- (to_size_t_small v) by lia. f_equal. rewrite Hstep.
          destruct (Z.ltb_spec (cell s2 U (S j)) (cell s2 U j));
            match goal with
            | |- context [?p <? ?q] => destruct (Z.ltb_spec p q)
            end; lia. }
    rewrite HjS. apply IH; [exact Hdrop'|]. split.
    + rewrite length_insert. exact Hlen.
    + intros k Hk. destruct (decide (k = S j)) as [->|Hne].
      * rewrite list_lookup_insert_eq by lia. destruct (decide _); [reflexivity|lia].
      * rewrite list_lookup_insert_ne by lia. rewrite (Hrow k Hk).
        destruct (decide (k <= j)%nat), (decide (k <= S j)%nat); try reflexivity; lia.
Qed.

(** The outer loop consumes [todo] row by row. *)
Lemma outer_loop_row :
  forall todo U costs,
    size U + size todo < SIZE_MODULUS ->
    is_row s2 U costs ->
    exists costs',
      outer_loop todo s2 (size U) costs = Ok costs' /\
      is_row s2 (rev todo ++ U) costs'.
Proof.
  induction todo as [|x todo IH]; intros U costs Hfit [Hlen Hrow].
  - exists costs. split; [reflexivity|]. split; assumption.
  - unfold size in *. cbn [length] in Hfit. cbn [outer_loop].
    rewrite write_insert by (cbn; lia). cbn [bind].
    change (Z.to_nat 0) with 0%nat.
    rewrite to_size_t_small by lia.
    destruct (inner_loop_row x U ltac:(unfold size; lia) (drop 0 s2) 0%nat
                (<[0%nat := Z.of_nat (length U) + 1]> costs) eq_refl)
      as (costs1 & Hrun & Hrow1).
    { split; [rewrite length_insert; exact Hlen|].
      intros k Hk. destruct k as [|k].
      - rewrite list_lookup_insert_eq by lia. destruct (decide _); [|lia].
        rewrite cell_0. unfold size. cbn [length]. f_equal. lia.
      - rewrite list_lookup_insert_ne by lia. rewrite (Hrow _ Hk).
        destruct (decide _); [lia|reflexivity]. }
    rewrite cell_0 in Hrun. unfold size in Hrun.
    change (drop 0 s2) with s2 in Hrun. change (Z.of_nat 0) with 0 in Hrun.
    rewrite Hrun. cbn [bind].
    destruct (IH (x :: U) costs1) as (costs' & Hrun' & Hrow');
      [cbn [length]; lia|exact Hrow1|].
    exists costs'. split.
    + cbn [length] in Hrun'. rewrite <- Hrun'. f_equal. lia.
    + cbn [rev]. rewrite <- app_assoc. exact Hrow'.
Qed.
End Rows.

Lemma size_transform_toupper s : size (transform_toupper s) = size s.
Proof. unfold size, transform_toupper. rewrite length_map. reflexivity. Qed.

(** The rolling row computes the recurrence [lev] on the upper-cased
  strings, narrowed to [int]. *)
Lemma ComputeLevenshteinDistance_lev s1 s2 :
size s1 < SIZE_MODULUS -> size s2 < SIZE_MODULUS ->
ComputeLevenshteinDistance s1 s2 =
Ok (to_int (Z.of_nat (lev (transform_toupper s1) (transform_toupper s2)))).
Proof.
intros H1 H2. unfold ComputeLevenshteinDistance.
rewrite <- size_transform_toupper in H1, H2.
set (a := transform_toupper s1) in *. set (b := transform_toupper s2) in *.
destruct (Z.eqb_spec (size a) 0) as [Ea|Ea].
{ destruct a; [|discriminate]. reflexivity. }
destruct (Z.eqb_spec (size b) 0) as [Eb|Eb].
{ destruct b; [|discriminate]. rewrite lev_nil_r. reflexivity. }
destruct (outer_loop_row b H2 a [] (init_costs (length b))) as (costs & Hrun & Hrow).
{ unfold size in *. cbn. lia. }
{ apply init_costs_row. }
change (size []) with 0 in Hrun. rewrite Hrun. cbn [bind].
destruct Hrow as [_ Hrow]. rewrite app_nil_r in Hrow.
rewrite (read_lookup _ _ (cell b (rev a) (length b))).
2:{ unfold size. rewrite Nat2Z.id. apply Hrow. lia. }
cbn [bind]. unfold cell. rewrite firstn_all, lev_rev. reflexivity.
Qed.

Lemma inner_loop_total c1 :
  forall todo j corner costs,
    0 <= j ->
    (Z.to_nat j + length todo < length costs)%nat ->
    exists costs',
      inner_loop c1 todo j corner costs = Ok costs' /\ length costs' = length costs.
Proof.
  induction todo as [|c2 todo IH]; intros j corner costs Hj Hlen.
  - exists costs. split; reflexivity.
  - cbn [length] in Hlen. cbn [inner_loop].
    pose proof (to_size_t_le (j + 1) ltac:(lia)) as Hle.
    pose proof (to_size_t_range (j + 1)) as [H0 _].
    set (j' := to_size_t (j + 1)) in *.
    assert (Hj' : (Z.to_nat j' < length costs)%nat) by lia.
    destruct (lookup_lt_is_Some_2 costs (Z.to_nat j') Hj') as [upper Hup].
    rewrite (read_lookup _ _ _ Hup). cbn [bind].
    assert (exists costs1,
      (if Ascii.eqb c1 c2 then write costs j' corner
       else do cj <- read costs j;
            write costs j'
              (to_size_t ((if cj <? (if upper <? corner then upper else corner)
                           then cj else (if upper <? corner then upper else corner)) + 1)))
      = Ok costs1 /\ length costs1 = length costs) as (costs1 & -> & Hlen1).
    { destruct (Ascii.eqb c1 c2).
      - rewrite write_insert by exact Hj'. eexists. split; [reflexivity|].
        apply length_insert.
      - destruct (lookup_lt_is_Some_2 costs (Z.to_nat j) ltac:(lia)) as [cj Hcj].
        rewrite (read_lookup _ _ _ Hcj). cbn [bind].
        rewrite write_insert by exact Hj'. eexists. split; [reflexivity|].
        apply length_insert. }
    cbn [bind]. destruct (IH j' upper costs1 H0 ltac:(lia)) as (costs' & Hrun & Hlen').
    exists costs'. split; [exact Hrun|lia].
Qed.

Lemma outer_loop_total s2 :
  forall todo i costs,
    (length s2 < length costs)%nat ->
    exists costs',
      outer_loop todo s2 i costs = Ok costs' /\ length costs' = length costs.
Proof.
  induction todo as [|c1 todo IH]; intros i costs Hlen.
  - exists costs. split; reflexivity.
  - cbn [outer_loop]. rewrite write_insert by (cbn; lia). cbn [bind].
    destruct (inner_loop_total c1 s2 0 i (<[Z.to_nat 0 := to_size_t (i + 1)]> costs))
      as (costs1 & -> & Hlen1); [lia|rewrite length_insert; cbn; lia|].
    cbn [bind]. rewrite length_insert in Hlen1.
    destruct (IH (to_size_t (i + 1)) costs1 ltac:(lia)) as (costs' & Hrun & Hlen').
    exists costs'. split; [exact Hrun|lia].
Qed.

Lemma to_int_range z : INT_MIN <= to_int z <= INT_MAX.
Proof.
  unfold to_int, INT_MIN, INT_MAX, INT_MODULUS.
  pose proof (Z.mod_pos_bound (z + 2 ^ 31) (2 ^ 32) ltac:(reflexivity)). lia.
Qed.

Lemma to_int_small z : INT_MIN <= z <= INT_MAX -> to_int z = z.
Proof.
  unfold to_int, INT_MIN, INT_MAX, INT_MODULUS. intros H.
  rewrite Z.mod_small; lia.
Qed.

Lemma to_int_le z : 0 <= z -> to_int z <= z.
Proof.
  unfold to_int, INT_MODULUS. intros H.
  pose proof (Z.mod_le (z + 2 ^ 31) (2 ^ 32) ltac:(lia) ltac:(reflexivity)). lia.
Qed.

(** The matcher never fails: every subscript of the cost row is in range,
    whatever the two strings are, and the value returned is an [int]. *)
Lemma ComputeLevenshteinDistance_total s1 s2 :
  exists d, ComputeLevenshteinDistance s1 s2 = Ok d /\ INT_MIN <= d <= INT_MAX.
Proof.
  unfold ComputeLevenshteinDistance.
  destruct (size (transform_toupper s1) =? 0); [eexists; split; [reflexivity|apply to_int_range]|].
  destruct (size (transform_toupper s2) =? 0); [eexists; split; [reflexivity|apply to_int_range]|].
  set (b := transform_toupper s2).
  destruct (outer_loop_total b (transform_toupper s1) 0 (init_costs (length b)))
    as (costs & -> & Hlen).
  { unfold init_costs. rewrite length_map, length_seq. lia. }
  cbn [bind]. unfold init_costs in Hlen. rewrite length_map, length_seq in Hlen.
  destruct (lookup_lt_is_Some_2 costs (Z.to_nat (size b))) as [r Hr].
  { unfold size. lia. }
  rewrite (read_lookup _ _ _ Hr). cbn [bind].
  eexists; split; [reflexivity|apply to_int_range].
Qed.

Lemma length_transform_toupper s : length (transform_toupper s) = length s.
Proof. apply length_map. Qed.

Lemma toupper_idempotent c : toupper (toupper c) = toupper c.
Proof. destruct c as [[] [] [] [] [] [] [] []]; reflexivity. Qed.

Lemma toupper_tolower c : toupper (tolower c) = toupper c.
Proof. destruct c as [[] [] [] [] [] [] [] []]; reflexivity. Qed.

Lemma same_modulo_case_toupper a a' :
  same_modulo_case a a' <-> transform_toupper a = transform_toupper a'.
Proof.
  unfold same_modulo_case, transform_toupper. split.
  - induction 1; cbn; congruence.
  - revert a'. induction a as [|c a IH]; intros [|c' a'] H; try discriminate; constructor.
    + cbn in H. congruence.
    + apply IH. cbn in H. congruence.
Qed.

Lemma ComputeLevenshteinDistance_toupper a a' b b' :
  transform_toupper a = transform_toupper a' ->
  transform_toupper b = transform_toupper b' ->
  ComputeLevenshteinDistance a b = ComputeLevenshteinDistance a' b'.
Proof. unfold ComputeLevenshteinDistance. intros -> ->. reflexivity. Qed.

(** Below [2^31] characters the narrowing to [int] loses nothing. *)
Lemma ComputeLevenshteinDistance_small a b :
  size a <= INT_MAX -> size b <= INT_MAX ->
  ComputeLevenshteinDistance a b =
  Ok (Z.of_nat (lev (transform_toupper a) (transform_toupper b))).
Proof.
  intros Ha Hb. unfold INT_MAX in *.
  rewrite ComputeLevenshteinDistance_lev by (unfold SIZE_MODULUS; lia).
  f_equal. apply to_int_small.
  pose proof (lev_le_max (transform_toupper a) (transform_toupper b)) as H.
  rewrite !length_transform_toupper in H.
  unfold size, INT_MIN, INT_MAX in *. lia.
Qed.

(** ** Sorting: models of the [std::sort] contract *)

Section InsertionSort.
Context {A : Type} (comp : A -> A -> bool).
Hypothesis comp_swo : strict_weak_order comp.

Lemma swo_asymmetric x y : comp x y = true -> comp y x = false.
Proof.
  destruct comp_swo as (Hirr & Htr & _). intros Hxy.
  destruct (comp y x) eqn:Hyx; [|reflexivity].
  rewrite <- (Hirr x). symmetry. eapply Htr; eassumption.
Qed.

Lemma insert_sorted_permutation x l : insert_sorted comp x l ≡ₚ x :: l.
Proof.
  induction l as [|y l IH]; [reflexivity|]. cbn.
  destruct (comp y x); [|reflexivity].
  rewrite IH. apply Permutation_swap.
Qed.

Lemma insertion_sort_permutation l : insertion_sort comp l ≡ₚ l.
Proof.
  induction l as [|x l IH]; [reflexivity|].
  cbn. rewrite insert_sorted_permutation, IH. reflexivity.
Qed.

Lemma insert_sorted_strongly x l :
  StronglySorted (fun a b => comp b a = false) l ->
  StronglySorted (fun a b => comp b a = false) (insert_sorted comp x l).
Proof.
  destruct comp_swo as (_ & _ & Hneg).
  induction 1 as [|y l Hl IH Hy]; cbn.
  - repeat constructor.
  - destruct (comp y x) eqn:Hyx.
    + constructor; [exact IH|].
      rewrite insert_sorted_permutation. constructor; [|exact Hy].
      apply swo_asymmetric, Hyx.
    + constructor; [constructor; assumption|].
      constructor; [exact Hyx|].
      eapply Forall_impl; [exact Hy|]. cbn. intros z Hz. eapply Hneg; eassumption.
Qed.

Lemma insertion_sort_strongly l :
  StronglySorted (fun a b => comp b a = false) (insertion_sort comp l).
Proof.
  induction l as [|x l IH]; [constructor|]. cbn. apply insert_sorted_strongly, IH.
Qed.

Lemma strongly_sorted_by l :
  StronglySorted (fun a b => comp b a = false) l -> sorted_by comp l.
Proof.
  induction 1 as [|x l _ IH Hx]; intros i j a b Hij Ha Hb.
  - rewrite lookup_nil in Ha. discriminate.
  - destruct j as [|j]; [lia|]. cbn in Hb. destruct i as [|i].
    + cbn in Ha. injection Ha as <-.
      rewrite Forall_forall in Hx. apply Hx. eapply list_elem_of_lookup_2, Hb.
    + cbn in Ha. eapply (IH i j); [lia|eassumption..].
Qed.

Lemma insertion_sort_sorted l : sorted_by comp (insertion_sort comp l).
Proof. apply strongly_sorted_by, insertion_sort_strongly. Qed.

Lemma insert_sorted_filter a x l :
  List.filter (equivalent comp a) (insert_sorted comp x l) =
  List.filter (equivalent comp a) (x :: l).
Proof.
  destruct comp_swo as (_ & _ & Hneg).
  induction l as [|y l IH]; [reflexivity|]. cbn [insert_sorted].
  destruct (comp y x) eqn:Hyx; [|reflexivity].
  cbn [List.filter] in *. rewrite IH.
  destruct (equivalent comp a y) eqn:Hay, (equivalent comp a x) eqn:Hax; try reflexivity.
  exfalso. unfold equivalent in Hay, Hax.
  apply andb_prop in Hay as [_ Hya], Hax as [Hax _].
  apply negb_true_iff in Hya, Hax.
  rewrite (Hneg y a x Hya Hax) in Hyx. discriminate.
Qed.

(** Insertion sort is stable. *)
Lemma insertion_sort_filter a l :
  List.filter (equivalent comp a) (insertion_sort comp l) =
  List.filter (equivalent comp a) l.
Proof.
  induction l as [|x l IH]; [reflexivity|].
  cbn [insertion_sort foldr]. rewrite insert_sorted_filter.
  cbn [List.filter]. unfold insertion_sort in IH. rewrite IH. reflexivity.
Qed.
End InsertionSort.

Definition stable_sort_model : StdSort :=
  {| std_sort := @insertion_sort;
     std_sort_permutation := fun A comp l H => insertion_sort_permutation comp l;
     std_sort_sorted := fun A comp l H => insertion_sort_sorted comp H l |}.

Lemma stable_sort_model_stable : stable stable_sort_model.
Proof. intros A comp l x H. apply insertion_sort_filter, H. Qed.

Lemma clock_draw_range seed a b : a <= b -> a <= clock_draw seed a b <= b.
Proof.
  intros H. unfold clock_draw.
  pose proof (Z.mod_pos_bound seed (b - a + 1) ltac:(lia)). lia.
Qed.

Definition clock_random_model : StdRandom :=
  {| uniform_int := clock_draw; uniform_int_range := clock_draw_range |}.

Lemma closer_strict_weak_order : strict_weak_order closer.
Proof.
  unfold closer. repeat split.
  - intros x. apply Z.ltb_irrefl.
  - intros x y z H1 H2. apply Z.ltb_lt in H1, H2. apply Z.ltb_lt. lia.
  - intros x y z H1 H2. apply Z.ltb_ge in H1, H2. apply Z.ltb_ge. lia.
Qed.

(** ** The sort of the library meets the contract of [std::sort] *)

Section Ordering.
Context {A : Type} (comp : A -> A -> bool) (Hswo : strict_weak_order comp).

Lemma not_after_refl x : not_after comp x x.
Proof. apply Hswo. Qed.

Lemma not_after_trans x y z :
  not_after comp x y -> not_after comp y z -> not_after comp x z.
Proof.
  unfold not_after. intros Hxy Hyz.
  destruct Hswo as (_ & _ & Hneg). exact (Hneg z y x Hyz Hxy).
Qed.

Lemma before_not_after x y : comp x y = true -> not_after comp x y.
Proof.
  unfold not_after. intros Hxy. destruct (comp y x) eqn:Hyx; [|reflexivity].
  destruct Hswo as (Hirr & Htrans & _).
  rewrite <- (Hirr x). symmetry. exact (Htrans x y x Hxy Hyx).
Qed.

Lemma not_after_before x y z :
  not_after comp x y -> comp y z = true -> comp x z = true.
Proof.
  unfold not_after. intros Hxy Hyz. destruct (comp x z) eqn:Hxz; [reflexivity|].
  destruct Hswo as (_ & _ & Hneg).
  rewrite <- Hyz. symmetry. exact (Hneg y x z Hxy Hxz).
Qed.

Lemma before_not_after_trans x y z :
  comp x y = true -> not_after comp y z -> comp x z = true.
Proof.
  unfold not_after. intros Hxy Hyz. destruct (comp x z) eqn:Hxz; [reflexivity|].
  destruct Hswo as (_ & _ & Hneg).
  rewrite <- Hxy. symmetry. exact (Hneg x z y Hxz Hyz).
Qed.

End Ordering.

Section Vectors.
Context {A : Type}.
Implicit Types v : list A.
Local Open Scope nat_scope.

Lemma iter_read_Ok v it x : v !! it = Some x -> Libstdcxx.iter_read v it = Ok x.
Proof. unfold Libstdcxx.iter_read. intros ->. reflexivity. Qed.

Lemma iter_write_Ok v it x :
  it < length v -> Libstdcxx.iter_write v it x = Ok (<[it := x]> v).
Proof. unfold Libstdcxx.iter_write. intros H. rewrite decide_True by exact H. reflexivity. Qed.

Lemma iter_swap_Ok v a b x y :
  v !! a = Some x -> v !! b = Some y ->
  Libstdcxx.iter_swap v a b = Ok (<[b := x]> (<[a := y]> v)).
Proof.
  intros Ha Hb. unfold Libstdcxx.iter_swap.
  rewrite (iter_read_Ok _ _ _ Ha), (iter_read_Ok _ _ _ Hb). cbn [bind].
  rewrite iter_write_Ok by (eapply lookup_lt_Some, Ha). cbn [bind].
  rewrite iter_write_Ok by (rewrite length_insert; eapply lookup_lt_Some, Hb).
  reflexivity.
Qed.

Lemma elem_of_range v first last x :
  x ∈ range v first last <-> exists k, first <= k /\ k < last /\ v !! k = Some x.
Proof.
  unfold range. rewrite elem_of_take. split.
  - intros (i & Hi & Hlt). rewrite lookup_drop in Hi.
    exists (first + i). split; [lia|]. split; [lia|exact Hi].
  - intros (k & Hge & Hlt & Hk). exists (k - first). split; [|lia].
    rewrite lookup_drop. replace (first + (k - first)) with k by lia. exact Hk.
Qed.

Lemma range_split v first last :
  first <= last -> v = take first v ++ range v first last ++ drop last v.
Proof.
  intros Hle. unfold range.
  rewrite <- (take_drop first v) at 1. f_equal.
  rewrite <- (take_drop (last - first) (drop first v)) at 1. f_equal.
  rewrite drop_drop. f_equal. lia.
Qed.

Lemma range_mono v first last first' last' x :
  first' <= first -> last <= last' ->
  x ∈ range v first last -> x ∈ range v first' last'.
Proof.
  rewrite !elem_of_range. intros H1 H2 (k & ? & ? & ?). exists k.
  split; [lia|]. split; [lia|assumption].
Qed.

Lemma rearranged_refl first last v : rearranged first last v v.
Proof. split; [reflexivity|]. intros; reflexivity. Qed.

Lemma rearranged_length first last v v' :
  rearranged first last v v' -> length v' = length v.
Proof. intros [H _]. apply Permutation_length, H. Qed.

Lemma rearranged_trans first last v v' v'' :
  rearranged first last v v' -> rearranged first last v' v'' ->
  rearranged first last v v''.
Proof.
  intros [P1 F1] [P2 F2]. split; [etrans; eassumption|].
  intros k Hk. rewrite (F2 k Hk). apply F1, Hk.
Qed.

Lemma rearranged_mono first last first' last' v v' :
  first' <= first -> last <= last' ->
  rearranged first last v v' -> rearranged first' last' v v'.
Proof. intros H1 H2 [P F]. split; [exact P|]. intros k Hk. apply F. lia. Qed.

Lemma rearranged_take first last v v' :
  rearranged first last v v' -> take first v' = take first v.
Proof.
  intros [P F]. apply list_eq. intros k.
  destruct (decide (k < first)) as [Hlt|Hge].
  - rewrite !lookup_take_lt by exact Hlt. apply F. lia.
  - rewrite !lookup_take_ge by lia. reflexivity.
Qed.

Lemma rearranged_drop first last v v' :
  rearranged first last v v' -> drop last v' = drop last v.
Proof.
  intros [P F]. apply list_eq. intros k. rewrite !lookup_drop. apply F. lia.
Qed.

Lemma rearranged_range first last v v' :
  first <= last -> rearranged first last v v' ->
  range v' first last ≡ₚ range v first last.
Proof.
  intros Hle Hr. pose proof Hr as [P _].
  assert (P' : take first v' ++ range v' first last ++ drop last v' ≡ₚ
               take first v ++ range v first last ++ drop last v).
  { rewrite <- !range_split by exact Hle. exact P. }
  rewrite (rearranged_take _ _ _ _ Hr), (rearranged_drop _ _ _ _ Hr) in P'.
  apply (inj (take first v ++.)) in P'. apply (inj (.++ drop last v)) in P'. exact P'.
Qed.

Lemma rearranged_elem_of first last v v' x :
  first <= last -> rearranged first last v v' ->
  x ∈ range v' first last <-> x ∈ range v first last.
Proof. intros Hle Hr. rewrite (rearranged_range _ _ _ _ Hle Hr). reflexivity. Qed.

(** A range that the rearrangement does not reach. *)
Lemma rearranged_apart first last v v' f l x :
  rearranged first last v v' -> l <= first \/ last <= f ->
  x ∈ range v' f l <-> x ∈ range v f l.
Proof.
  intros [_ F] Hdis. rewrite !elem_of_range.
  split; intros (k & H1 & H2 & Hk); exists k; (split; [lia|]); (split; [lia|]).
  - rewrite <- F by lia. exact Hk.
  - rewrite F by lia. exact Hk.
Qed.

Lemma rearranged_swap first last v a b x y :
  first <= a -> a < last -> first <= b -> b < last ->
  v !! a = Some x -> v !! b = Some y ->
  rearranged first last v (<[b := x]> (<[a := y]> v)).
Proof.
  intros Ha1 Ha2 Hb1 Hb2 Ha Hb. split.
  - apply Permutation_insert_swap; assumption.
  - intros k Hk. rewrite !list_lookup_insert_ne by lia. reflexivity.
Qed.

End Vectors.

(** *** Insertion sort *)

Ltac solve_app := repeat (rewrite <- ?app_assoc; cbn [app]); reflexivity.

Section Insertion.
Context {A : Type} (comp : A -> A -> bool) (Hswo : strict_weak_order comp).
Implicit Types v p rest : list A.
Local Open Scope nat_scope.

Lemma sorted_app p1 p2 :
  StronglySorted (not_after comp) (p1 ++ p2) <->
  StronglySorted (not_after comp) p1 /\ StronglySorted (not_after comp) p2 /\
  forall x y, x ∈ p1 -> y ∈ p2 -> not_after comp x y.
Proof.
  induction p1 as [|a p1 IH]; cbn [app].
  - split; [intros H|intros (_ & H & _); exact H].
    split; [constructor|]. split; [exact H|]. intros x y Hx. inversion Hx.
  - split.
    + intros H. inversion H as [|? ? Hs Ha]; subst.
      apply IH in Hs as (H1 & H2 & H12). rewrite Forall_app in Ha. destruct Ha as [Ha1 Ha2].
      split; [constructor; assumption|]. split; [exact H2|].
      intros x y Hx Hy. apply elem_of_cons in Hx as [->|Hx].
      * rewrite Forall_forall in Ha2. apply Ha2, Hy.
      * apply H12; assumption.
    + intros (H1 & H2 & H12). inversion H1 as [|? ? Hs Ha]; subst.
      constructor.
      * apply IH. split; [exact Hs|]. split; [exact H2|].
        intros x y Hx Hy. apply H12; [right; exact Hx|exact Hy].
      * rewrite Forall_app. split; [exact Ha|].
        rewrite Forall_forall. intros y Hy. apply H12; [left|exact Hy].
Qed.

Lemma sorted_cons a p :
  StronglySorted (not_after comp) (a :: p) <->
  StronglySorted (not_after comp) p /\ forall y, y ∈ p -> not_after comp a y.
Proof.
  split.
  - intros H. inversion H as [|? ? Hs Ha]; subst. split; [exact Hs|].
    rewrite Forall_forall in Ha. exact Ha.
  - intros [Hs Ha]. constructor; [exact Hs|]. rewrite Forall_forall. exact Ha.
Qed.

Lemma sorted_permutation_head a p y :
  StronglySorted (not_after comp) (a :: p) -> y ∈ a :: p -> not_after comp a y.
Proof.
  intros H Hy. apply elem_of_cons in Hy as [->|Hy]; [apply not_after_refl, Hswo|].
  apply sorted_cons in H as [_ H]. apply H, Hy.
Qed.

(** The loop stops at the nearest element that is not ordered after
    [val]; all it passed move up by one position. *)
Lemma __unguarded_linear_insert_loop_stop val p2 :
  forall p1 x h post,
    comp val x = false -> Forall (fun y => comp val y = true) p2 ->
    Libstdcxx.__unguarded_linear_insert_loop comp (p1 ++ x :: p2 ++ h :: post) val
      (length (p1 ++ x :: p2)) =
    Ok (p1 ++ x :: val :: p2 ++ post).
Proof.
  induction p2 as [|y p2 IH] using rev_ind; intros p1 x h post Hx Hp2.
  - cbn [app]. rewrite length_app, Nat.add_comm. cbn [length Nat.add].
    cbn [Libstdcxx.__unguarded_linear_insert_loop].
    rewrite (iter_read_Ok _ _ x) by (rewrite lookup_app_r, Nat.sub_diag by lia; reflexivity).
    cbn [bind]. rewrite Hx.
    rewrite iter_write_Ok by (rewrite length_app; cbn; lia).
    f_equal. rewrite insert_app_r_alt by lia.
    replace (S (length p1) - length p1) with 1 by lia. reflexivity.
  - apply Forall_app in Hp2 as [Hp2 Hy]. apply Forall_inv in Hy.
    replace (p1 ++ x :: (p2 ++ [y]) ++ h :: post)
      with ((p1 ++ x :: p2) ++ y :: h :: post)
      by solve_app.
    replace (length (p1 ++ x :: p2 ++ [y])) with (S (length (p1 ++ x :: p2)))
      by (rewrite !length_app; cbn; rewrite length_app; cbn; lia).
    cbn [Libstdcxx.__unguarded_linear_insert_loop].
    rewrite (iter_read_Ok _ _ y) by (rewrite lookup_app_r, Nat.sub_diag by lia; reflexivity).
    cbn [bind]. rewrite Hy.
    rewrite iter_write_Ok by (rewrite !length_app; cbn; lia). cbn [bind].
    rewrite insert_app_r_alt by lia.
    replace (S (length (p1 ++ x :: p2)) - length (p1 ++ x :: p2)) with 1 by lia.
    cbn [insert list_insert].
    replace ((p1 ++ x :: p2) ++ y :: y :: post) with (p1 ++ x :: p2 ++ y :: y :: post)
      by solve_app.
    rewrite (IH p1 x y (y :: post) Hx Hp2).
    f_equal. f_equal. f_equal. f_equal. rewrite <- app_assoc. reflexivity.
Qed.

(** Where the loop stops: the last element that is not ordered after
    [val]. *)
Lemma split_at_last_not_after val p :
  (exists x, x ∈ p /\ comp val x = false) ->
  exists p1 x p2,
    p = p1 ++ x :: p2 /\ comp val x = false /\ Forall (fun y => comp val y = true) p2.
Proof.
  induction p as [|y p IH] using rev_ind; intros (x & Hx & Hc).
  - inversion Hx.
  - destruct (comp val y) eqn:Hy.
    + apply elem_of_app in Hx as [Hx|Hx].
      * destruct (IH (ex_intro _ x (conj Hx Hc))) as (p1 & x' & p2 & -> & Hc' & Hp2).
        exists p1, x', (p2 ++ [y]). split; [rewrite <- app_assoc; reflexivity|].
        split; [exact Hc'|]. apply Forall_app. split; [exact Hp2|].
        apply Forall_singleton, Hy.
      * apply list_elem_of_singleton in Hx as ->. congruence.
    + exists p, y, []. split; [reflexivity|]. split; [exact Hy|constructor].
Qed.

(** One element more in the sorted part. *)
Lemma __unguarded_linear_insert_sorted p val rest :
  StronglySorted (not_after comp) p ->
  (exists x, x ∈ p /\ not_after comp x val) ->
  exists p',
    Libstdcxx.__unguarded_linear_insert comp (p ++ val :: rest) (length p) = Ok (p' ++ rest) /\
    p' ≡ₚ p ++ [val] /\ StronglySorted (not_after comp) p'.
Proof.
  intros Hp Hguard.
  destruct (split_at_last_not_after val p Hguard) as (p1 & x & p2 & -> & Hx & Hp2).
  exists (p1 ++ x :: val :: p2). split; [|split].
  - unfold Libstdcxx.__unguarded_linear_insert.
    rewrite (iter_read_Ok _ _ val) by (rewrite lookup_app_r, Nat.sub_diag by lia; reflexivity).
    cbn [bind].
    replace ((p1 ++ x :: p2) ++ val :: rest) with (p1 ++ x :: p2 ++ val :: rest)
      by solve_app.
    rewrite (__unguarded_linear_insert_loop_stop val p2 p1 x val rest Hx Hp2).
    f_equal. rewrite <- app_assoc. reflexivity.
  - rewrite <- !app_assoc. cbn [app]. f_equiv. f_equiv.
    rewrite <- Permutation_cons_append. reflexivity.
  - apply sorted_app in Hp as (H1 & H2 & H12).
    apply sorted_cons in H2 as [H2 Hx2].
    apply sorted_app. split; [exact H1|]. split.
    + apply sorted_cons. split.
      * apply sorted_cons. split; [exact H2|].
        intros y Hy. rewrite Forall_forall in Hp2.
        apply before_not_after; [exact Hswo|]. apply Hp2, Hy.
      * intros y Hy. apply elem_of_cons in Hy as [->|Hy]; [exact Hx|].
        apply Hx2, Hy.
    + intros a b Ha Hb. apply elem_of_cons in Hb as [->|Hb].
      * apply H12; [exact Ha|left].
      * apply elem_of_cons in Hb as [->|Hb].
        -- eapply not_after_trans; [exact Hswo| |exact Hx]. apply H12; [exact Ha|left].
        -- apply H12; [exact Ha|right; exact Hb].
Qed.

(** [std::move_backward(first, i, i + 1)] from the start of the vector. *)
Lemma move_backward_shift p :
  forall h post,
    Libstdcxx.move_backward (p ++ h :: post) 0 (length p) = Ok (hd h p :: p ++ post).
Proof.
  induction p as [|x p IH] using rev_ind; intros h post; [reflexivity|].
  rewrite length_app, Nat.add_comm. cbn [length Nat.add Libstdcxx.move_backward].
  rewrite decide_False by lia.
  rewrite (iter_read_Ok _ _ x).
  2:{ rewrite <- app_assoc. rewrite lookup_app_r, Nat.sub_diag by lia. reflexivity. }
  cbn [bind]. rewrite iter_write_Ok by (rewrite !length_app; cbn; lia). cbn [bind].
  rewrite insert_app_r_alt by (rewrite length_app; cbn; lia).
  replace (S (length p) - length (p ++ [x])) with 0 by (rewrite length_app; cbn; lia).
  cbn [insert list_insert]. rewrite <- app_assoc. cbn [app].
  rewrite (IH x (x :: post)). f_equal.
  rewrite <- app_assoc. cbn [app]. f_equal. destruct p; reflexivity.
Qed.

Lemma __insertion_sort_loop_sorted rounds :
  forall p rest,
    p <> [] -> StronglySorted (not_after comp) p -> rounds <= length rest ->
    exists p',
      Libstdcxx.__insertion_sort_loop comp rounds (p ++ rest) 0 (length p) =
        Ok (p' ++ drop rounds rest) /\
      p' ≡ₚ p ++ take rounds rest /\ StronglySorted (not_after comp) p'.
Proof.
  induction rounds as [|rounds IH]; intros p rest Hne Hp Hlen.
  - exists p. rewrite take_0, drop_0, app_nil_r. split; [reflexivity|]. split; [reflexivity|exact Hp].
  - destruct rest as [|x rest]; [cbn in Hlen; lia|]. cbn [length] in Hlen.
    destruct p as [|low p]; [congruence|].
    cbn [Libstdcxx.__insertion_sort_loop].
    rewrite (iter_read_Ok _ _ x) by (rewrite lookup_app_r, Nat.sub_diag by lia; reflexivity).
    cbn [bind]. rewrite (iter_read_Ok _ _ low) by reflexivity. cbn [bind].
    assert (Hstep : exists p',
      (if comp x low
       then do v <- Libstdcxx.move_backward ((low :: p) ++ x :: rest) 0 (length (low :: p));
            Libstdcxx.iter_write v 0 x
       else Libstdcxx.__unguarded_linear_insert comp ((low :: p) ++ x :: rest)
              (length (low :: p))) = Ok (p' ++ rest) /\
      p' ≡ₚ (low :: p) ++ [x] /\ StronglySorted (not_after comp) p' /\ p' <> []).
    { destruct (comp x low) eqn:Hx.
      - exists (x :: low :: p). rewrite move_backward_shift. cbn [bind hd app].
        rewrite iter_write_Ok by (cbn; lia). split; [reflexivity|].
        split; [apply Permutation_cons_append|]. split; [|discriminate].
        apply sorted_cons. split; [exact Hp|].
        intros y Hy. eapply not_after_trans; [exact Hswo| |].
        + apply before_not_after; [exact Hswo|exact Hx].
        + apply (sorted_permutation_head low p y Hp Hy).
      - destruct (__unguarded_linear_insert_sorted (low :: p) x rest Hp) as (p' & Hrun & Hperm & Hs).
        { exists low. split; [left|exact Hx]. }
        exists p'. split; [exact Hrun|]. split; [exact Hperm|]. split; [exact Hs|].
        intros ->. apply Permutation_length in Hperm. cbn in Hperm. lia. }
    destruct Hstep as (p' & -> & Hperm & Hs & Hne'). cbn [bind].
    assert (Hlen' : S (length (low :: p)) = length p').
    { apply Permutation_length in Hperm. rewrite length_app in Hperm. cbn in *. lia. }
    rewrite Hlen'.
    destruct (IH p' rest Hne' Hs ltac:(lia)) as (p'' & -> & Hperm' & Hs').
    exists p''. split; [reflexivity|]. split; [|exact Hs'].
    rewrite Hperm', Hperm. rewrite <- app_assoc. reflexivity.
Qed.

Lemma __insertion_sort_sorted v last :
  last <= length v ->
  exists p,
    Libstdcxx.__insertion_sort comp v 0 last = Ok (p ++ drop last v) /\
    p ≡ₚ take last v /\ StronglySorted (not_after comp) p.
Proof.
  intros Hlast. unfold Libstdcxx.__insertion_sort.
  destruct last as [|n].
  - exists []. rewrite decide_True by reflexivity. rewrite drop_0, take_0.
    split; [reflexivity|]. split; [reflexivity|constructor].
  - rewrite decide_False by lia.
    destruct v as [|a v]; [cbn in Hlast; lia|]. cbn [length] in Hlast.
    destruct (__insertion_sort_loop_sorted n [a] v ltac:(discriminate)
                ltac:(repeat constructor) ltac:(lia)) as (p & Hrun & Hperm & Hs).
    exists p. cbn [app length] in Hrun. cbn [Nat.add]. rewrite Nat.sub_succ, Nat.sub_0_r.
    rewrite Hrun. split; [reflexivity|]. split; [exact Hperm|exact Hs].
Qed.

Lemma __unguarded_insertion_sort_loop_sorted rounds :
  forall p rest,
    StronglySorted (not_after comp) p -> rounds <= length rest ->
    (forall k y, k < rounds -> rest !! k = Some y ->
                 exists x, x ∈ p ++ take k rest /\ not_after comp x y) ->
    exists p',
      Libstdcxx.__unguarded_insertion_sort_loop comp rounds (p ++ rest) (length p) =
        Ok (p' ++ drop rounds rest) /\
      p' ≡ₚ p ++ take rounds rest /\ StronglySorted (not_after comp) p'.
Proof.
  induction rounds as [|rounds IH]; intros p rest Hp Hlen Hguard.
  - exists p. rewrite take_0, drop_0, app_nil_r. split; [reflexivity|]. split; [reflexivity|exact Hp].
  - destruct rest as [|y rest]; [cbn in Hlen; lia|]. cbn [length] in Hlen.
    cbn [Libstdcxx.__unguarded_insertion_sort_loop].
    destruct (__unguarded_linear_insert_sorted p y rest Hp) as (p' & -> & Hperm & Hs).
    { destruct (Hguard 0 y ltac:(lia) eq_refl) as (x & Hx & Hxy).
      rewrite take_0, app_nil_r in Hx. exists x. split; assumption. }
    cbn [bind].
    assert (Hlen' : S (length p) = length p').
    { apply Permutation_length in Hperm. rewrite length_app in Hperm. cbn in *. lia. }
    rewrite Hlen'.
    destruct (IH p' rest Hs ltac:(lia)) as (p'' & -> & Hperm' & Hs').
    { intros k z Hk Hz. destruct (Hguard (S k) z ltac:(lia) Hz) as (x & Hx & Hxz).
      exists x. split; [|exact Hxz]. rewrite Hperm. cbn [take] in Hx.
      rewrite <- app_assoc. exact Hx. }
    exists p''. split; [reflexivity|]. split; [|exact Hs'].
    rewrite Hperm', Hperm. rewrite <- app_assoc. reflexivity.
Qed.

(** With the guard that [__introsort_loop] leaves, the final pass sorts
    the vector. *)
Lemma __final_insertion_sort_sorted v :
  guarded comp v 0 (length v) ->
  exists v',
    Libstdcxx.__final_insertion_sort comp v 0 (length v) = Ok v' /\
    v' ≡ₚ v /\ StronglySorted (not_after comp) v'.
Proof.
  intros Hguard. unfold Libstdcxx.__final_insertion_sort.
  rewrite Nat.sub_0_r. cbn [Nat.add].
  destruct (decide (Libstdcxx._S_threshold < length v)) as [Hbig|Hsmall].
  - destruct (__insertion_sort_sorted v Libstdcxx._S_threshold ltac:(lia))
      as (p & -> & Hperm & Hs).
    cbn [bind]. unfold Libstdcxx.__unguarded_insertion_sort.
    assert (Hlen : length p = Libstdcxx._S_threshold).
    { apply Permutation_length in Hperm. rewrite Hperm, length_take. lia. }
    destruct (__unguarded_insertion_sort_loop_sorted
                (length v - Libstdcxx._S_threshold) p (drop Libstdcxx._S_threshold v) Hs)
      as (p' & Hrun & Hperm' & Hs').
    { rewrite length_drop. lia. }
    { intros k y Hk Hy. rewrite lookup_drop in Hy.
      destruct (Hguard (Libstdcxx._S_threshold + k) y ltac:(lia) ltac:(lia) Hy)
        as (x & Hx & Hxy).
      exists x. split; [|exact Hxy]. rewrite Hperm.
      unfold range in Hx. rewrite drop_0, Nat.sub_0_r in Hx.
      rewrite take_take_drop. exact Hx. }
    rewrite Hlen in Hrun. rewrite Hrun.
    eexists. split; [reflexivity|].
    rewrite drop_drop, drop_ge, app_nil_r by lia. split; [|exact Hs'].
    rewrite Hperm', Hperm. rewrite take_take_drop, take_ge by lia. reflexivity.
  - destruct (__insertion_sort_sorted v (length v) ltac:(lia)) as (p & -> & Hperm & Hs).
    eexists. split; [reflexivity|]. rewrite drop_all, app_nil_r.
    split; [|exact Hs]. rewrite Hperm, firstn_all. reflexivity.
Qed.

End Insertion.

(** *** Partition *)

Section Partition.
Context {A : Type} (comp : A -> A -> bool) (Hswo : strict_weak_order comp).
Implicit Types v rest : list A.
Local Open Scope nat_scope.

(** The scan to the right stops at the first element that is not ordered
    before the pivot, and there is one. *)
Lemma advance_stop pivot rest :
  forall first k y,
    rest !! k = Some y -> comp y pivot = false ->
    exists n z,
      Libstdcxx.advance comp rest pivot first = Ok (first + n) /\ n <= k /\
      rest !! n = Some z /\ comp z pivot = false /\
      forall j x, j < n -> rest !! j = Some x -> comp x pivot = true.
Proof.
  induction rest as [|a rest IH]; intros first k y Hk Hy.
  - rewrite lookup_nil in Hk. discriminate.
  - cbn [Libstdcxx.advance]. destruct (comp a pivot) eqn:Ha.
    + destruct k as [|k]; [cbn in Hk; congruence|]. cbn in Hk.
      destruct (IH (S first) k y Hk Hy) as (n & z & -> & Hn & Hz & Hc & Hpassed).
      exists (S n), z. split; [f_equal; lia|]. split; [lia|].
      split; [exact Hz|]. split; [exact Hc|].
      intros [|j] x Hj Hx; cbn in Hx; [congruence|]. apply (Hpassed j); [lia|exact Hx].
    + exists 0, a. split; [f_equal; lia|]. split; [lia|].
      split; [reflexivity|]. split; [exact Ha|]. intros j x Hj. lia.
Qed.

(** The scan to the left stops at the first element that the pivot is not
    ordered before, and there is one. *)
Lemma retreat_stop pivot v :
  forall last k y,
    k <= last -> last < length v -> v !! k = Some y -> comp pivot y = false ->
    exists last' z,
      Libstdcxx.retreat comp v pivot last = Ok last' /\ k <= last' /\ last' <= last /\
      v !! last' = Some z /\ comp pivot z = false /\
      forall j x, last' < j -> j <= last -> v !! j = Some x -> comp pivot x = true.
Proof.
  intros last. induction last as [|last IH]; intros k y Hk Hlen Hy Hc.
  - assert (k = 0) as -> by lia. cbn [Libstdcxx.retreat].
    rewrite (iter_read_Ok _ _ _ Hy). cbn [bind]. rewrite Hc.
    exists 0, y. repeat split; try lia; try assumption; intros j x ? ?; lia.
  - cbn [Libstdcxx.retreat].
    destruct (lookup_lt_is_Some_2 v (S last) Hlen) as [a Ha].
    rewrite (iter_read_Ok _ _ _ Ha). cbn [bind]. destruct (comp pivot a) eqn:Hpa.
    + assert (k <= last).
      { destruct (decide (k = S last)) as [->|]; [congruence|lia]. }
      destruct (IH k y ltac:(lia) ltac:(lia) Hy Hc)
        as (last' & z & -> & H1 & H2 & Hz & Hcz & Hpassed).
      exists last', z. repeat split; try lia; try assumption.
      intros j x Hj1 Hj2 Hx. destruct (decide (j = S last)) as [->|].
      * congruence.
      * apply (Hpassed j); [lia..|exact Hx].
    + exists (S last), a. repeat split; try lia; try assumption; intros j x ? ?; lia.
Qed.

Section Loop.
Variables (pivot : A) (__pivot __last0 : nat).

(** Between two rounds: the pivot is in place before the range, what lies
    left of [first] is not ordered after it, what lies from [last] on is
    not ordered before it, and an element not ordered before it is still
    to come. *)
Definition between_rounds (v : list A) (first last : nat) : Prop :=
  v !! __pivot = Some pivot /\ __pivot < first /\ first <= last /\ last <= __last0 /\
  __last0 <= length v /\
  (forall j x, __pivot < j -> j < first -> v !! j = Some x -> comp pivot x = false) /\
  (forall j x, last <= j -> j < __last0 -> v !! j = Some x -> comp x pivot = false) /\
  (exists k y, first <= k /\ k < __last0 /\ v !! k = Some y /\ comp y pivot = false).

Lemma __unguarded_partition_loop_parts fuel :
  forall v first last,
    between_rounds v first last -> last - first <= fuel ->
    exists v' cut,
      Libstdcxx.__unguarded_partition_loop comp fuel v first last __pivot = Ok (v', cut) /\
      rearranged (S __pivot) __last0 v v' /\
      first <= cut /\ cut <= __last0 /\
      (forall j x, __pivot < j -> j < cut -> v' !! j = Some x -> comp pivot x = false) /\
      (forall j x, cut <= j -> j < __last0 -> v' !! j = Some x -> comp x pivot = false).
Proof.
  induction fuel as [fuel IH] using lt_wf_ind.
  intros v first last (Hpivot & Hfirst & Hfl & Hlast & Hlen & Hleft & Hright & Hup) Hfuel.
  destruct Hup as (k & y & Hk1 & Hk2 & Hk & Hy).
  assert (Hunfold : forall f,
    Libstdcxx.__unguarded_partition_loop comp f v first last __pivot =
    do pivot <- Libstdcxx.iter_read v __pivot;
    do __first <- Libstdcxx.advance comp (drop first v) pivot first;
    match last with
    | O => Undefined
    | S __last =>
        do __last <- Libstdcxx.retreat comp v pivot __last;
        if decide (__first < __last) then
          match f with
          | O => Undefined
          | S fuel' =>
              do v <- Libstdcxx.iter_swap v __first __last;
              Libstdcxx.__unguarded_partition_loop comp fuel' v (S __first) __last __pivot
          end
        else Ok (v, __first)
    end) by (intros []; reflexivity).
  rewrite Hunfold. clear Hunfold.
  rewrite (iter_read_Ok _ _ _ Hpivot). cbn [bind].
  destruct (advance_stop pivot (drop first v) first (k - first) y)
    as (n & a & -> & Hn & Ha & Hca & Hpassed).
  { rewrite lookup_drop. replace (first + (k - first)) with k by lia. exact Hk. }
  { exact Hy. }
  cbn [bind]. rewrite lookup_drop in Ha.
  destruct last as [|last]; [lia|].
  destruct (retreat_stop pivot v last __pivot pivot ltac:(lia) ltac:(lia) Hpivot
              ltac:(apply Hswo))
    as (last' & b & -> & Hl1 & Hl2 & Hb & Hcb & Hpassed').
  cbn [bind].
  assert (Hleft' : forall j x, __pivot < j -> j < first + n -> v !! j = Some x ->
                               comp pivot x = false).
  { intros j x Hj1 Hj2 Hx. destruct (decide (j < first)) as [Hlt|Hge].
    - apply (Hleft j); assumption.
    - apply (before_not_after comp Hswo). apply (Hpassed (j - first)); [lia|].
      rewrite lookup_drop. replace (first + (j - first)) with j by lia. exact Hx. }
  assert (Hright' : forall j x, last' < j -> j < __last0 -> v !! j = Some x ->
                                comp x pivot = false).
  { intros j x Hj1 Hj2 Hx. destruct (decide (S last <= j)) as [Hge|Hlt].
    - apply (Hright j); assumption.
    - apply (before_not_after comp Hswo). apply (Hpassed' j); [lia..|exact Hx]. }
  destruct (decide (first + n < last')) as [Hlt|Hge].
  - destruct fuel as [|fuel]; [lia|].
    rewrite (iter_swap_Ok _ _ _ _ _ Ha Hb). cbn [bind].
    set (v1 := <[last' := a]> (<[first + n := b]> v)).
    assert (Hre : rearranged (S __pivot) __last0 v v1).
    { apply rearranged_swap; try assumption; lia. }
    assert (Hlen1 : length v1 = length v) by (unfold v1; rewrite !length_insert; reflexivity).
    destruct (IH fuel ltac:(lia) v1 (S (first + n)) last') as (v' & cut & -> & Hre' & H1 & H2 & H3 & H4).
    { split; [|split; [|split; [|split; [|split; [|split; [|split]]]]]]; try lia.
      - unfold v1. rewrite !list_lookup_insert_ne by lia. exact Hpivot.
      - intros j x Hj1 Hj2. unfold v1. destruct (decide (j = first + n)) as [->|Hne].
        + rewrite list_lookup_insert_ne by lia.
          rewrite list_lookup_insert_eq by (eapply lookup_lt_Some, Ha).
          intros [= <-]. exact Hcb.
        + rewrite !list_lookup_insert_ne by lia. apply (Hleft' j); lia.
      - intros j x Hj1 Hj2. unfold v1. destruct (decide (j = last')) as [->|Hne].
        + rewrite list_lookup_insert_eq
            by (rewrite length_insert; eapply lookup_lt_Some, Hb).
          intros [= <-]. exact Hca.
        + rewrite !list_lookup_insert_ne by lia. apply (Hright' j); lia.
      - exists last', a. split; [lia|]. split; [lia|]. split; [|exact Hca].
        unfold v1. apply list_lookup_insert_eq.
        rewrite length_insert. eapply lookup_lt_Some, Hb. }
    { lia. }
    exists v', cut. split; [reflexivity|].
    split; [eapply rearranged_trans; eassumption|].
    split; [lia|]. split; [lia|]. split; assumption.
  - exists v, (first + n). split; [reflexivity|].
    split; [apply rearranged_refl|]. split; [lia|]. split; [lia|].
    split; [exact Hleft'|].
    intros j x Hj1 Hj2 Hx. destruct (decide (j = first + n)) as [->|Hne].
    + congruence.
    + apply (Hright' j); [lia|lia|exact Hx].
Qed.

End Loop.

(** The median of three goes to the front, and of the other two one that
    is not ordered before it stays where it is. *)
Lemma __move_median_to_first_guard v result a b c :
  result < a -> a < b -> b < c -> c < length v ->
  exists v' pivot k y,
    Libstdcxx.__move_median_to_first comp v result a b c = Ok v' /\
    rearranged result (S c) v v' /\
    v' !! result = Some pivot /\
    a <= k /\ k <= c /\ v' !! k = Some y /\ comp y pivot = false.
Proof.
  intros Hra Hab Hbc Hc.
  destruct (lookup_lt_is_Some_2 v result ltac:(lia)) as [xr Hr].
  destruct (lookup_lt_is_Some_2 v a ltac:(lia)) as [xa Ha].
  destruct (lookup_lt_is_Some_2 v b ltac:(lia)) as [xb Hb].
  destruct (lookup_lt_is_Some_2 v c ltac:(lia)) as [xc Hcc].
  unfold Libstdcxx.__move_median_to_first.
  rewrite (iter_read_Ok _ _ _ Ha), (iter_read_Ok _ _ _ Hb), (iter_read_Ok _ _ _ Hcc).
  cbn [bind].
  assert (Hswap : forall t xt k y,
    v !! t = Some xt -> a <= t -> t <= c ->
    v !! k = Some y -> a <= k -> k <= c -> k <> t -> comp y xt = false ->
    exists v' pivot k y,
      Libstdcxx.iter_swap v result t = Ok v' /\
      rearranged result (S c) v v' /\
      v' !! result = Some pivot /\
      a <= k /\ k <= c /\ v' !! k = Some y /\ comp y pivot = false).
  { intros t xt k y Ht Ht1 Ht2 Hk Hk1 Hk2 Hne Hy.
    exists (<[t := xr]> (<[result := xt]> v)), xt, k, y.
    split; [apply iter_swap_Ok; assumption|].
    split; [apply rearranged_swap; try assumption; lia|].
    split.
    { rewrite list_lookup_insert_ne by lia. apply list_lookup_insert_eq. lia. }
    split; [exact Hk1|]. split; [exact Hk2|]. split; [|exact Hy].
    rewrite !list_lookup_insert_ne by lia. exact Hk. }
  pose proof (before_not_after comp Hswo) as Hasym. unfold not_after in Hasym.
  destruct (comp xa xb) eqn:Eab; [destruct (comp xb xc) eqn:Ebc;
    [|destruct (comp xa xc) eqn:Eac]|destruct (comp xa xc) eqn:Eac;
    [|destruct (comp xb xc) eqn:Ebc]].
  - apply (Hswap b xb c xc); try assumption; try lia. apply Hasym, Ebc.
  - apply (Hswap c xc b xb); try assumption; lia.
  - apply (Hswap a xa b xb); try assumption; try lia. apply Hasym, Eab.
  - apply (Hswap a xa c xc); try assumption; try lia. apply Hasym, Eac.
  - apply (Hswap c xc a xa); try assumption; lia.
  - apply (Hswap b xb a xa); try assumption; lia.
Qed.

(** A range of four elements or more is cut in two parts, the first not
    empty, with no element of the first ordered after one of the second. *)
Lemma __unguarded_partition_pivot_parted v first last :
  first + 4 <= last -> last <= length v ->
  exists v' cut,
    Libstdcxx.__unguarded_partition_pivot comp v first last = Ok (v', cut) /\
    rearranged first last v v' /\ first < cut /\ cut <= last /\
    parted comp v' first cut last.
Proof.
  intros Hsize Hlen. unfold Libstdcxx.__unguarded_partition_pivot.
  assert (Hmid : first + 1 < first + (last - first) / 2 /\
                 first + (last - first) / 2 < last - 1).
  { pose proof (Nat.div_mod_eq (last - first) 2) as E.
    pose proof (Nat.mod_upper_bound (last - first) 2 ltac:(lia)). lia. }
  destruct (__move_median_to_first_guard v first (first + 1)
              (first + (last - first) / 2) (last - 1))
    as (v1 & pivot & k & y & -> & Hre1 & Hpivot & Hk1 & Hk2 & Hk & Hy); try lia.
  cbn [bind]. unfold Libstdcxx.__unguarded_partition.
  pose proof (rearranged_length _ _ _ _ Hre1) as Hlen1.
  destruct (__unguarded_partition_loop_parts pivot first last (length v1) v1 (first + 1) last)
    as (v' & cut & -> & Hre2 & H1 & H2 & Hleft & Hright).
  { split; [exact Hpivot|]. split; [lia|]. split; [lia|]. split; [lia|].
    split; [lia|]. split; [intros j x ? ?; lia|]. split; [intros j x ? ?; lia|].
    exists k, y. split; [lia|]. split; [lia|]. split; assumption. }
  { lia. }
  exists v', cut. split; [reflexivity|]. split; [|split; [lia|split; [lia|]]].
  - eapply rearranged_trans.
    + eapply rearranged_mono; [| |exact Hre1]; lia.
    + eapply rearranged_mono; [| |exact Hre2]; lia.
  - assert (Hpivot' : v' !! first = Some pivot).
    { destruct Hre2 as [_ F]. rewrite F by lia. exact Hpivot. }
    intros x z Hx Hz. apply elem_of_range in Hx as (i & Hi1 & Hi2 & Hi).
    apply elem_of_range in Hz as (j & Hj1 & Hj2 & Hj).
    assert (Hpz : not_after comp pivot z) by (apply (Hright j); assumption).
    destruct (decide (i = first)) as [->|Hne].
    + rewrite Hpivot' in Hi. injection Hi as <-. exact Hpz.
    + eapply not_after_trans; [exact Hswo| |exact Hpz].
      apply (Hleft i); [lia|lia|exact Hi].
Qed.

End Partition.

(** *** Heap sort *)

Ltac halve n :=
  pose proof (Nat.div_mod_eq n 2);
  pose proof (Nat.mod_upper_bound n 2 ltac:(lia)).

Section Heap.
Context {A : Type} (comp : A -> A -> bool) (Hswo : strict_weak_order comp).
Implicit Types v : list A.
Local Open Scope nat_scope.

Lemma parent_left p : (2 * p + 1 - 1) / 2 = p.
Proof. halve (2 * p + 1 - 1). lia. Qed.

Lemma parent_right p : (2 * p + 2 - 1) / 2 = p.
Proof. halve (2 * p + 2 - 1). lia. Qed.

Lemma child_of_parent i : 0 < i -> i = 2 * ((i - 1) / 2) + 1 \/ i = 2 * ((i - 1) / 2) + 2.
Proof. intros Hi. halve (i - 1). lia. Qed.

Lemma below_ge top h : below top h -> top <= h.
Proof. induction 1; lia. Qed.

Lemma below_parent top h : below top h -> h <> top -> below top ((h - 1) / 2).
Proof.
  intros [|p Hp|p Hp] Hne; [congruence| |].
  - rewrite parent_left. exact Hp.
  - rewrite parent_right. exact Hp.
Qed.

Lemma heap_from_S v first top len :
  heap_from comp v first top len -> heap_from comp v first (S top) len.
Proof. intros H i x y Hi Hlen Hq. apply H; [exact Hi|exact Hlen|lia]. Qed.

(** Writing [u] into the hole [h] keeps the heap when [u] is not ordered
    after the parent of [h] and no child of [h] is ordered after [u]. *)
Lemma heap_from_insert v first top len h u :
  heap_from comp v first (S top) len ->
  (h <> top -> heap_from comp v first top len) ->
  top <= h -> h < len -> first + len <= length v ->
  (forall x, top < h -> v !! (first + (h - 1) / 2) = Some x -> not_after comp u x) ->
  (forall c y, c = 2 * h + 1 \/ c = 2 * h + 2 -> c < len ->
               v !! (first + c) = Some y -> not_after comp y u) ->
  heap_from comp (<[first + h := u]> v) first top len.
Proof.
  intros Hbelow Hat Htop Hh Hlen Hparent Hchildren i x y Hi Hilen Hq.
  destruct (decide (i = h)) as [->|Hih].
  - rewrite list_lookup_insert_eq by lia.
    assert ((h - 1) / 2 < h) by (halve (h - 1); lia).
    rewrite list_lookup_insert_ne by lia.
    intros Hx [= <-]. apply (Hparent x); [lia|exact Hx].
  - rewrite (list_lookup_insert_ne _ _ (first + i)) by lia.
    destruct (decide ((i - 1) / 2 = h)) as [Hqh|Hqh].
    + rewrite Hqh, list_lookup_insert_eq by lia.
      intros [= <-] Hy. apply (Hchildren i); [|exact Hilen|exact Hy].
      destruct (child_of_parent i Hi); lia.
    + rewrite list_lookup_insert_ne by lia. intros Hx Hy.
      destruct (decide (top = (i - 1) / 2)) as [Heq|Hne].
      * apply (Hat ltac:(congruence) i); assumption.
      * apply (Hbelow i); [exact Hi|exact Hilen|lia|exact Hx|exact Hy].
Qed.

(** The hole takes the place of the element that moves into it. *)
Lemma hole_moves v h c u value :
  v !! c = Some u -> h < length v ->
  <[c := value]> (<[h := u]> v) ≡ₚ <[h := value]> v.
Proof.
  intros Hc Hh. destruct (decide (c = h)) as [->|Hne].
  - rewrite list_insert_insert_eq. reflexivity.
  - rewrite <- (list_insert_insert_eq v h u value).
    apply Permutation_insert_swap.
    + apply list_lookup_insert_eq. exact Hh.
    + rewrite list_lookup_insert_ne by congruence. exact Hc.
Qed.

Section PushHeap.
Variables (first top len : nat) (value : A).

Lemma __push_heap_loop_heap fuel :
  forall v h,
    h <= fuel -> below top h -> h < len -> first + len <= length v ->
    heap_from comp v first (S top) len ->
    (h <> top -> heap_from comp v first top len) ->
    (forall c y, c = 2 * h + 1 \/ c = 2 * h + 2 -> c < len ->
                 v !! (first + c) = Some y -> not_after comp y value) ->
    exists v',
      Libstdcxx.__push_heap_loop comp fuel v first h top value = Ok v' /\
      heap_from comp v' first top len /\
      v' ≡ₚ <[first + h := value]> v /\
      forall k, k < first + top \/ first + len <= k -> v' !! k = v !! k.
Proof.
  induction fuel as [|fuel IH]; intros v h Hfuel Hh Hhlen Hlen Hbelow Hat Hchildren;
    pose proof (below_ge _ _ Hh) as Hge.
  - assert (h = 0) as -> by lia. assert (top = 0) as Htop by lia.
    cbn [Libstdcxx.__push_heap_loop]. rewrite decide_False by lia.
    rewrite iter_write_Ok by lia. eexists. split; [reflexivity|].
    split; [|split; [reflexivity|]].
    + apply heap_from_insert; try assumption; lia.
    + intros k Hk. rewrite list_lookup_insert_ne by lia. reflexivity.
  - cbn [Libstdcxx.__push_heap_loop].
    destruct (decide (top < h)) as [Hlt|Hnlt].
    + assert (Hp : (h - 1) / 2 < h) by (halve (h - 1); lia).
      pose proof (below_parent _ _ Hh ltac:(lia)) as Hbp.
      pose proof (below_ge _ _ Hbp) as Hpge.
      destruct (lookup_lt_is_Some_2 v (first + (h - 1) / 2) ltac:(lia)) as [up Hup].
      rewrite (iter_read_Ok _ _ _ Hup). cbn [bind].
      specialize (Hat ltac:(lia)).
      destruct (comp up value) eqn:Hc.
      * rewrite iter_write_Ok by lia. cbn [bind].
        destruct (IH (<[first + h := up]> v) ((h - 1) / 2)) as (v' & -> & Hheap & Hperm & Hframe);
          try assumption; try lia.
        { rewrite length_insert. exact Hlen. }
        { apply heap_from_S. apply heap_from_insert; try assumption; try lia.
          - intros _; exact Hat.
          - intros x _ Hx. rewrite Hup in Hx. injection Hx as <-.
            apply not_after_refl, Hswo.
          - intros c y Hcc Hclen Hy.
            destruct (lookup_lt_is_Some_2 v (first + h) ltac:(lia)) as [xh Hxh].
            eapply not_after_trans; [exact Hswo| |].
            + apply (Hat c xh y); [lia|exact Hclen| | |exact Hy].
              * destruct Hcc as [->| ->]; [rewrite parent_left|rewrite parent_right]; lia.
              * destruct Hcc as [->| ->]; [rewrite parent_left|rewrite parent_right]; exact Hxh.
            + apply (Hat h up xh); [lia|exact Hhlen|lia|exact Hup|exact Hxh]. }
        { intros _. apply heap_from_insert; try assumption; try lia.
          - intros _; exact Hat.
          - intros x _ Hx. rewrite Hup in Hx. injection Hx as <-.
            apply not_after_refl, Hswo.
          - intros c y Hcc Hclen Hy.
            destruct (lookup_lt_is_Some_2 v (first + h) ltac:(lia)) as [xh Hxh].
            eapply not_after_trans; [exact Hswo| |].
            + apply (Hat c xh y); [lia|exact Hclen| | |exact Hy].
              * destruct Hcc as [->| ->]; [rewrite parent_left|rewrite parent_right]; lia.
              * destruct Hcc as [->| ->]; [rewrite parent_left|rewrite parent_right]; exact Hxh.
            + apply (Hat h up xh); [lia|exact Hhlen|lia|exact Hup|exact Hxh]. }
        { intros c y Hcc Hclen. destruct (decide (c = h)) as [->|Hne].
          - rewrite list_lookup_insert_eq by lia. intros [= <-].
            apply before_not_after; [exact Hswo|exact Hc].
          - rewrite list_lookup_insert_ne by lia. intros Hy.
            apply before_not_after; [exact Hswo|].
            eapply not_after_before; [exact Hswo| |exact Hc].
            apply (Hat c up y); [lia|exact Hclen| | |exact Hy].
            + destruct Hcc as [->| ->]; [rewrite parent_left|rewrite parent_right]; lia.
            + destruct Hcc as [->| ->]; [rewrite parent_left|rewrite parent_right]; exact Hup. }
        exists v'. split; [reflexivity|]. split; [exact Hheap|]. split.
        -- rewrite Hperm. apply hole_moves; [exact Hup|lia].
        -- intros k Hk. rewrite (Hframe k Hk). apply list_lookup_insert_ne. lia.
      * rewrite iter_write_Ok by lia. eexists. split; [reflexivity|].
        split; [|split; [reflexivity|]].
        -- apply heap_from_insert; try assumption; try lia.
           ++ intros _; exact Hat.
           ++ intros x _ Hx. rewrite Hup in Hx. injection Hx as <-. exact Hc.
        -- intros k Hk. rewrite list_lookup_insert_ne by lia. reflexivity.
    + assert (h = top) as -> by lia.
      rewrite iter_write_Ok by lia. eexists. split; [reflexivity|].
      split; [|split; [reflexivity|]].
      * apply heap_from_insert; try assumption; lia.
      * intros k Hk. rewrite list_lookup_insert_ne by lia. reflexivity.
Qed.

End PushHeap.

Section AdjustHeap.
Variables (first top len : nat).

(** The first loop of [__adjust_heap]: the hole sinks to a place without
    two children, and what is left above it is a heap. *)
Lemma __adjust_heap_loop_sink fuel :
  forall v h,
    len <= fuel + h -> below top h -> h < len -> first + len <= length v ->
    heap_from comp v first (S top) len ->
    (h <> top -> heap_from comp v first top len) ->
    exists v' h',
      Libstdcxx.__adjust_heap_loop comp fuel v first h len = Ok (v', h') /\
      below top h' /\ h' < len /\ ~ h' < (len - 1) / 2 /\ length v' = length v /\
      heap_from comp v' first (S top) len /\
      (h' <> top -> heap_from comp v' first top len) /\
      (forall value, <[first + h' := value]> v' ≡ₚ <[first + h := value]> v) /\
      forall k, k < first + top \/ first + len <= k -> v' !! k = v !! k.
Proof.
  induction fuel as [|fuel IH]; intros v h Hfuel Hh Hhlen Hlen Hbelow Hat;
    pose proof (below_ge _ _ Hh) as Hge.
  - lia.
  - cbn [Libstdcxx.__adjust_heap_loop].
    destruct (decide (h < (len - 1) / 2)) as [Hlt|Hnlt].
    2:{ exists v, h. repeat split; try assumption; reflexivity. }
    assert (Hright : 2 * h + 2 < len) by (halve (len - 1); lia).
    replace (2 * (h + 1) - 1) with (2 * h + 1) by lia.
    replace (2 * (h + 1)) with (2 * h + 2) by lia.
    destruct (lookup_lt_is_Some_2 v (first + (2 * h + 2)) ltac:(lia)) as [right Hr].
    destruct (lookup_lt_is_Some_2 v (first + (2 * h + 1)) ltac:(lia)) as [left Hl].
    rewrite (iter_read_Ok _ _ _ Hr). cbn [bind].
    rewrite (iter_read_Ok _ _ _ Hl). cbn [bind].
    set (c := if comp right left then 2 * h + 1 else 2 * h + 2).
    assert (Hc : exists child,
      v !! (first + c) = Some child /\ (c = 2 * h + 1 \/ c = 2 * h + 2) /\
      not_after comp left child /\ not_after comp right child).
    { unfold c. destruct (comp right left) eqn:Hrl.
      - exists left. split; [exact Hl|]. split; [left; reflexivity|].
        split; [apply not_after_refl, Hswo|]. apply before_not_after; [exact Hswo|exact Hrl].
      - exists right. split; [exact Hr|]. split; [right; reflexivity|].
        split; [exact Hrl|]. apply not_after_refl, Hswo. }
    destruct Hc as (child & Hchild & Hcc & Hlc & Hrc).
    rewrite (iter_read_Ok _ _ _ Hchild). cbn [bind].
    rewrite iter_write_Ok by lia. cbn [bind].
    assert (Hcparent : (c - 1) / 2 = h).
    { destruct Hcc as [->| ->]; [apply parent_left|apply parent_right]. }
    assert (Hheap : heap_from comp (<[first + h := child]> v) first top len).
    { apply heap_from_insert; try assumption; try lia.
      - intros x Hth Hx.
        destruct (lookup_lt_is_Some_2 v (first + h) ltac:(lia)) as [xh Hxh].
        specialize (Hat ltac:(lia)).
        pose proof (below_ge _ _ (below_parent _ _ Hh ltac:(lia))).
        eapply not_after_trans; [exact Hswo| |].
        + apply (Hat c xh child); [lia|lia|lia|rewrite Hcparent; exact Hxh|exact Hchild].
        + apply (Hat h x xh); [lia|exact Hhlen|lia|exact Hx|exact Hxh].
      - intros c' y [->| ->] _ Hy; [rewrite Hl in Hy|rewrite Hr in Hy];
          injection Hy as <-; assumption. }
    destruct (IH (<[first + h := child]> v) c) as
      (v' & h' & -> & Hh' & Hh'len & Hstop & Hlen' & Hbelow' & Hat' & Hperm & Hframe).
    { lia. }
    { destruct Hcc as [->| ->]; [apply below_left|apply below_right]; exact Hh. }
    { lia. }
    { rewrite length_insert. exact Hlen. }
    { apply heap_from_S, Hheap. }
    { intros _. exact Hheap. }
    exists v', h'. split; [reflexivity|]. split; [exact Hh'|]. split; [exact Hh'len|].
    split; [exact Hstop|]. split; [rewrite Hlen', length_insert; reflexivity|].
    split; [exact Hbelow'|]. split; [exact Hat'|]. split.
    + intros value. rewrite Hperm. apply hole_moves; [exact Hchild|lia].
    + intros k Hk. rewrite (Hframe k Hk). apply list_lookup_insert_ne. lia.
Qed.

Lemma __adjust_heap_heap v value :
  top < len -> first + len <= length v ->
  heap_from comp v first (S top) len ->
  exists v',
    Libstdcxx.__adjust_heap comp v first top len value = Ok v' /\
    heap_from comp v' first top len /\
    v' ≡ₚ <[first + top := value]> v /\
    forall k, k < first + top \/ first + len <= k -> v' !! k = v !! k.
Proof.
  intros Htop Hlen Hbelow. unfold Libstdcxx.__adjust_heap.
  destruct (__adjust_heap_loop_sink len v top) as
    (v1 & h1 & -> & Hh1 & Hh1len & Hstop & Hlen1 & Hbelow1 & Hat1 & Hperm1 & Hframe1);
    try assumption; try lia; try apply below_top;
    try (intros Hne; exfalso; apply Hne; reflexivity).
  cbn [bind]. pose proof (below_ge _ _ Hh1) as Hge1.
  halve len. halve (len - 1). halve (len - 2).
  destruct (decide (len mod 2 = 0 /\ h1 = (len - 2) / 2)) as [[Heven Hh]|Hno].
  - replace (2 * (h1 + 1) - 1) with (2 * h1 + 1) by lia.
    assert (Hlast : 2 * h1 + 1 < len) by lia.
    destruct (lookup_lt_is_Some_2 v1 (first + (2 * h1 + 1)) ltac:(lia)) as [child Hchild].
    rewrite (iter_read_Ok _ _ _ Hchild). cbn [bind].
    rewrite iter_write_Ok by lia. cbn [bind].
    assert (Hheap : heap_from comp (<[first + h1 := child]> v1) first top len).
    { apply heap_from_insert; try assumption; try lia.
      - intros x Hth Hx.
        destruct (lookup_lt_is_Some_2 v1 (first + h1) ltac:(lia)) as [xh Hxh].
        specialize (Hat1 ltac:(lia)).
        pose proof (below_ge _ _ (below_parent _ _ Hh1 ltac:(lia))).
        eapply not_after_trans; [exact Hswo| |].
        + apply (Hat1 (2 * h1 + 1) xh child);
            [lia|lia|rewrite parent_left; lia|rewrite parent_left; exact Hxh|exact Hchild].
        + apply (Hat1 h1 x xh); [lia|exact Hh1len|lia|exact Hx|exact Hxh].
      - intros c' y [->| ->] Hc' Hy; [|lia]. rewrite Hchild in Hy. injection Hy as <-.
        apply not_after_refl, Hswo. }
    destruct (__push_heap_loop_heap first top len value (2 * h1 + 1)
                (<[first + h1 := child]> v1) (2 * h1 + 1))
      as (v' & Hrun & Hheap' & Hperm' & Hframe'); try lia.
    { apply below_left, Hh1. }
    { rewrite length_insert. lia. }
    { apply heap_from_S, Hheap. }
    { intros _. exact Hheap. }
    exists v'. split; [exact Hrun|]. split; [exact Hheap'|]. split.
    + rewrite Hperm', <- Hperm1. apply hole_moves; [exact Hchild|lia].
    + intros k Hk. rewrite (Hframe' k Hk), list_lookup_insert_ne by lia. apply Hframe1, Hk.
  - destruct (__push_heap_loop_heap first top len value h1 v1 h1)
      as (v' & Hrun & Hheap' & Hperm' & Hframe'); try assumption; try lia.
    exists v'. split; [exact Hrun|]. split; [exact Hheap'|]. split.
    + rewrite Hperm'. apply Hperm1.
    + intros k Hk. rewrite (Hframe' k Hk). apply Hframe1, Hk.
Qed.

End AdjustHeap.

Lemma __make_heap_loop_heap first len parent :
  forall v,
    parent < len -> first + len <= length v ->
    heap_from comp v first (S parent) len ->
    exists v',
      Libstdcxx.__make_heap_loop comp v first len parent = Ok v' /\
      heap_from comp v' first 0 len /\ rearranged first (first + len) v v'.
Proof.
  induction parent as [|parent IH]; intros v Hparent Hlen Hheap;
    cbn [Libstdcxx.__make_heap_loop].
  - destruct (lookup_lt_is_Some_2 v (first + 0) ltac:(lia)) as [value Hvalue].
    rewrite (iter_read_Ok _ _ _ Hvalue). cbn [bind].
    destruct (__adjust_heap_heap first 0 len v value Hparent Hlen Hheap)
      as (v' & -> & Hheap' & Hperm & Hframe).
    exists v'. split; [reflexivity|]. split; [exact Hheap'|].
    split; [rewrite Hperm, list_insert_id by exact Hvalue; reflexivity|].
    intros k Hk. apply Hframe. lia.
  - destruct (lookup_lt_is_Some_2 v (first + S parent) ltac:(lia)) as [value Hvalue].
    rewrite (iter_read_Ok _ _ _ Hvalue). cbn [bind].
    destruct (__adjust_heap_heap first (S parent) len v value Hparent Hlen Hheap)
      as (v1 & -> & Hheap1 & Hperm & Hframe).
    cbn [bind].
    assert (Hre : rearranged first (first + len) v v1).
    { split; [rewrite Hperm, list_insert_id by exact Hvalue; reflexivity|].
      intros k Hk. apply Hframe. lia. }
    destruct (IH v1 ltac:(lia)) as (v' & -> & Hheap' & Hre').
    { rewrite (rearranged_length _ _ _ _ Hre). exact Hlen. }
    { exact Hheap1. }
    exists v'. split; [reflexivity|]. split; [exact Hheap'|].
    eapply rearranged_trans; eassumption.
Qed.

Lemma __make_heap_heap v first last :
  first <= last -> last <= length v ->
  exists v',
    Libstdcxx.__make_heap comp v first last = Ok v' /\
    heap_from comp v' first 0 (last - first) /\ rearranged first last v v'.
Proof.
  intros Hfl Hlen. unfold Libstdcxx.__make_heap.
  destruct (decide (last - first < 2)) as [Hsmall|Hbig].
  - exists v. split; [reflexivity|]. split; [|apply rearranged_refl].
    intros i x y Hi Hilen. lia.
  - halve (last - first - 2).
    destruct (__make_heap_loop_heap first (last - first) ((last - first - 2) / 2) v)
      as (v' & -> & Hheap & Hre); try lia.
    { intros i x y Hi Hilen Hq. halve (i - 1). lia. }
    exists v'. split; [reflexivity|]. split; [exact Hheap|].
    replace (first + (last - first)) with last in Hre by lia. exact Hre.
Qed.

(** No element of a heap is ordered after the first. *)
Lemma heap_root v first len i :
  heap_from comp v first 0 len -> first + len <= length v ->
  forall x y,
    i < len -> v !! first = Some x -> v !! (first + i) = Some y -> not_after comp y x.
Proof.
  intros Hheap Hlen. induction i as [i IH] using lt_wf_ind. intros x y Hi Hx Hy.
  destruct (decide (i = 0)) as [->|Hne].
  - rewrite Nat.add_0_r, Hx in Hy. injection Hy as <-. apply not_after_refl, Hswo.
  - assert (Hp : (i - 1) / 2 < i) by (halve (i - 1); lia).
    destruct (lookup_lt_is_Some_2 v (first + (i - 1) / 2) ltac:(lia)) as [z Hz].
    eapply not_after_trans; [exact Hswo| |].
    + apply (Hheap i z y); [lia|exact Hi|lia|exact Hz|exact Hy].
    + apply (IH ((i - 1) / 2) Hp x z); [lia|exact Hx|exact Hz].
Qed.

Lemma __pop_heap_heap v first last :
  first < last -> last < length v ->
  heap_from comp v first 0 (S (last - first)) ->
  exists v' top,
    v !! first = Some top /\
    Libstdcxx.__pop_heap comp v first last last = Ok v' /\
    heap_from comp v' first 0 (last - first) /\
    rearranged first (S last) v v' /\ v' !! last = Some top.
Proof.
  intros Hfl Hlen Hheap. unfold Libstdcxx.__pop_heap.
  destruct (lookup_lt_is_Some_2 v last Hlen) as [value Hvalue].
  destruct (lookup_lt_is_Some_2 v first ltac:(lia)) as [top Htop].
  rewrite (iter_read_Ok _ _ _ Hvalue). cbn [bind].
  rewrite (iter_read_Ok _ _ _ Htop). cbn [bind].
  rewrite iter_write_Ok by exact Hlen. cbn [bind].
  destruct (__adjust_heap_heap first 0 (last - first) (<[last := top]> v) value)
    as (v' & -> & Hheap' & Hperm & Hframe).
  { lia. }
  { rewrite length_insert. lia. }
  { intros i x y Hi Hilen Hq. assert ((i - 1) / 2 < i) by (halve (i - 1); lia).
    rewrite !list_lookup_insert_ne by lia.
    apply Hheap; [exact Hi|lia|lia]. }
  exists v', top. split; [exact Htop|]. split; [reflexivity|]. split; [exact Hheap'|].
  split; [split|].
  - rewrite Hperm, Nat.add_0_r. apply Permutation_insert_swap; assumption.
  - intros k Hk. rewrite Hframe by lia. apply list_lookup_insert_ne. lia.
  - rewrite Hframe by lia. apply list_lookup_insert_eq. exact Hlen.
Qed.

Lemma __sort_heap_loop_ascending first bound rounds :
  forall v last,
    rounds = last - first - 1 -> first <= last -> last <= bound -> bound <= length v ->
    heap_from comp v first 0 (last - first) ->
    ascending comp v last bound -> parted comp v first last bound ->
    exists v',
      Libstdcxx.__sort_heap_loop comp rounds v first last = Ok v' /\
      rearranged first bound v v' /\ ascending comp v' first bound.
Proof.
  induction rounds as [|rounds IH]; intros v last Hrounds Hfl Hlb Hlen Hheap Hasc Hparted.
  - exists v. split; [reflexivity|]. split; [apply rearranged_refl|].
    intros i j x y Hi Hij Hj Hx Hy.
    destruct (decide (last <= i)) as [Hge|Hlt].
    + apply (Hasc i j); assumption.
    + apply Hparted; apply elem_of_range; [exists i|exists j]; repeat split; try assumption; lia.
  - cbn [Libstdcxx.__sort_heap_loop].
    destruct (__pop_heap_heap v first (last - 1)) as (v1 & top & Htop & -> & Hheap1 & Hre1 & Hlast);
      try lia.
    { replace (S (last - 1 - first)) with (last - first) by lia. exact Hheap. }
    cbn [bind]. replace (S (last - 1)) with last in Hre1 by lia.
    pose proof Hre1 as [_ Hframe1].
    destruct (IH v1 (last - 1)) as (v' & -> & Hre' & Hasc'); try lia.
    { rewrite (rearranged_length _ _ _ _ Hre1). exact Hlen. }
    { exact Hheap1. }
    { intros i j x y Hi Hij Hj Hx Hy. rewrite Hframe1 in Hy by lia.
      destruct (decide (i = last - 1)) as [->|Hne].
      - rewrite Hlast in Hx. injection Hx as <-.
        apply Hparted; apply elem_of_range;
          [exists first|exists j]; repeat split; try assumption; lia.
      - rewrite Hframe1 in Hx by lia. apply (Hasc i j); try assumption; lia. }
    { intros x y Hx Hy.
      assert (Hx' : x ∈ range v first last).
      { apply (rearranged_elem_of first last v v1); [lia|exact Hre1|].
        eapply range_mono; [| |exact Hx]; lia. }
      apply elem_of_range in Hy as (k & Hk1 & Hk2 & Hk).
      destruct (decide (k = last - 1)) as [->|Hne].
      - rewrite Hlast in Hk. injection Hk as <-.
        apply elem_of_range in Hx' as (i & Hi1 & Hi2 & Hi).
        apply (heap_root v first (last - first) (i - first) Hheap); [lia|lia|exact Htop|].
        replace (first + (i - first)) with i by lia. exact Hi.
      - rewrite Hframe1 in Hk by lia. apply Hparted; [exact Hx'|].
        apply elem_of_range. exists k. repeat split; try assumption; lia. }
    exists v'. split; [reflexivity|]. split; [|exact Hasc'].
    eapply rearranged_trans; [|exact Hre'].
    eapply rearranged_mono; [| |exact Hre1]; lia.
Qed.

(** [__partial_sort(first, last, last)] sorts the range. *)
Lemma __partial_sort_ascending v first last :
  first <= last -> last <= length v ->
  exists v',
    Libstdcxx.__partial_sort comp v first last = Ok v' /\
    rearranged first last v v' /\ ascending comp v' first last.
Proof.
  intros Hfl Hlen. unfold Libstdcxx.__partial_sort, Libstdcxx.__heap_select.
  destruct (__make_heap_heap v first last Hfl Hlen) as (v1 & -> & Hheap & Hre1).
  cbn [bind]. unfold Libstdcxx.__sort_heap.
  destruct (__sort_heap_loop_ascending first last (last - first - 1) v1 last)
    as (v' & -> & Hre' & Hasc); try lia.
  { rewrite (rearranged_length _ _ _ _ Hre1). exact Hlen. }
  { exact Hheap. }
  { intros i j x y Hi Hij Hj. lia. }
  { intros x y _ Hy. apply elem_of_range in Hy as (k & ? & ? & _). lia. }
  exists v'. split; [reflexivity|]. split; [|exact Hasc].
  eapply rearranged_trans; eassumption.
Qed.

End Heap.

(** *** Introsort *)

Section Introsort.
Context {A : Type} (comp : A -> A -> bool) (Hswo : strict_weak_order comp).
Implicit Types v : list A.
Local Open Scope nat_scope.

(** [__introsort_loop] returns, rearranges the range and leaves the guard
    the final pass relies on. *)
Lemma __introsort_loop_guarded depth :
  forall v first last,
    first <= last -> last <= length v ->
    exists v',
      Libstdcxx.__introsort_loop comp v first last depth = Ok v' /\
      rearranged first last v v' /\ guarded comp v' first last.
Proof.
  induction depth as [|depth IH]; intros v first last Hfl Hlen;
    cbn [Libstdcxx.__introsort_loop];
    (destruct (decide (Libstdcxx._S_threshold < last - first)) as [Hbig|Hsmall];
     [|exists v; split; [reflexivity|]; split; [apply rearranged_refl|];
       intros i y Hi1 Hi2; lia]).
  - destruct (__partial_sort_ascending comp Hswo v first last Hfl Hlen)
      as (v' & -> & Hre & Hasc).
    exists v'. split; [reflexivity|]. split; [exact Hre|].
    intros i y Hi1 Hi2 Hy. unfold Libstdcxx._S_threshold in *.
    destruct (lookup_lt_is_Some_2 v' first) as [x Hx].
    { rewrite (rearranged_length _ _ _ _ Hre). lia. }
    exists x. split.
    + apply elem_of_range. exists first. split; [lia|]. split; [lia|exact Hx].
    + apply (Hasc first i); [lia|lia|lia|exact Hx|exact Hy].
  - unfold Libstdcxx._S_threshold in Hbig.
    destruct (__unguarded_partition_pivot_parted comp Hswo v first last ltac:(lia) Hlen)
      as (v1 & cut & -> & Hre1 & Hc1 & Hc2 & Hparted).
    cbn [bind].
    pose proof (rearranged_length _ _ _ _ Hre1) as Hlen1.
    destruct (IH v1 cut last Hc2 ltac:(lia)) as (v2 & -> & Hre2 & Hg2).
    cbn [bind].
    pose proof (rearranged_length _ _ _ _ Hre2) as Hlen2.
    destruct (IH v2 first cut ltac:(lia) ltac:(lia)) as (v3 & -> & Hre3 & Hg3).
    exists v3. split; [reflexivity|]. split.
    { eapply rearranged_trans; [exact Hre1|]. eapply rearranged_trans.
      - eapply rearranged_mono; [| |exact Hre2]; lia.
      - eapply rearranged_mono; [| |exact Hre3]; lia. }
    assert (Hparted3 : parted comp v3 first cut last).
    { intros x y Hx Hy. apply Hparted.
      - apply (rearranged_apart cut last v1 v2); [exact Hre2|lia|].
        apply (rearranged_elem_of first cut v2 v3); [lia|exact Hre3|exact Hx].
      - apply (rearranged_elem_of cut last v1 v2); [exact Hc2|exact Hre2|].
        apply (rearranged_apart first cut v2 v3); [exact Hre3|lia|exact Hy]. }
    intros i y Hi1 Hi2 Hy.
    destruct (decide (i < cut)) as [Hlt|Hge].
    + apply (Hg3 i y); [exact Hi1|exact Hlt|exact Hy].
    + destruct (decide (cut + Libstdcxx._S_threshold <= i)) as [Hfar|Hnear].
      * pose proof Hre3 as [_ Hframe3].
        destruct (Hg2 i y Hfar Hi2) as (x & Hx & Hxy).
        { rewrite <- Hframe3 by lia. exact Hy. }
        exists x. split; [|exact Hxy].
        apply (range_mono _ cut i); [lia|lia|].
        apply (rearranged_apart first cut v2 v3); [exact Hre3|lia|exact Hx].
      * destruct (lookup_lt_is_Some_2 v3 first) as [x Hx].
        { rewrite (rearranged_length _ _ _ _ Hre3). lia. }
        exists x. split.
        -- apply elem_of_range. exists first. split; [lia|]. split; [lia|exact Hx].
        -- apply Hparted3; apply elem_of_range;
             [exists first|exists i]; repeat split; try assumption; lia.
Qed.

(** [std::sort] returns, with the elements of the vector in sorted
    order. *)
Lemma sort_sorted v :
  exists v',
    Libstdcxx.sort comp v = Ok v' /\ v' ≡ₚ v /\ StronglySorted (not_after comp) v'.
Proof.
  unfold Libstdcxx.sort, Libstdcxx.__sort.
  destruct (decide (0 = length v)) as [Hempty|Hne].
  - exists v. split; [reflexivity|]. split; [reflexivity|].
    destruct v; [constructor|discriminate].
  - destruct (__introsort_loop_guarded
                (Libstdcxx.__lg (length v - 0) * 2) v 0 (length v) ltac:(lia) ltac:(lia))
      as (v1 & -> & Hre & Hguard).
    cbn [bind]. pose proof (rearranged_length _ _ _ _ Hre) as Hlen.
    rewrite <- Hlen in Hguard |- *.
    destruct (__final_insertion_sort_sorted comp Hswo v1 Hguard) as (v' & -> & Hperm & Hs).
    exists v'. split; [reflexivity|]. split; [|exact Hs].
    rewrite Hperm. apply Hre.
Qed.

End Introsort.


Lemma gnu_sort_permutation {A} (comp : A -> A -> bool) l :
  strict_weak_order comp -> gnu_sort comp l ≡ₚ l.
Proof.
  intros Hswo. unfold gnu_sort.
  destruct (sort_sorted comp Hswo l) as (v' & -> & Hperm & _). exact Hperm.
Qed.

Lemma gnu_sort_sorted {A} (comp : A -> A -> bool) l :
  strict_weak_order comp -> sorted_by comp (gnu_sort comp l).
Proof.
  intros Hswo. unfold gnu_sort.
  destruct (sort_sorted comp Hswo l) as (v' & -> & _ & Hs).
  apply strongly_sorted_by. exact Hs.
Qed.

Definition gnu_sort_model : StdSort :=
  {| std_sort := @gnu_sort;
     std_sort_permutation := @gnu_sort_permutation;
     std_sort_sorted := @gnu_sort_sorted |}.

(** ** Up to sixteen elements the sort of the library keeps ties in order

    A vector of at most [_S_threshold] elements is sorted by
    [__insertion_sort] alone, and the element it leaves in front is the
    first of the least ones. *)

Section ShortVectors.
Context {A : Type} (comp : A -> A -> bool).
Local Open Scope nat_scope.

(** An insertion that does not pass the front element leaves it there. *)
Lemma __unguarded_linear_insert_loop_front val low :
  comp val low = false ->
  forall last v v',
    1 <= last -> v !! 0 = Some low ->
    Libstdcxx.__unguarded_linear_insert_loop comp v val last = Ok v' ->
    v' !! 0 = Some low /\ length v' = length v /\
    forall k, last < k -> v' !! k = v !! k.
Proof.
  intros Hlow last. induction last as [|next IH]; intros v v' Hlast Hfront Hrun; [lia|].
  cbn [Libstdcxx.__unguarded_linear_insert_loop] in Hrun.
  unfold Libstdcxx.iter_read in Hrun.
  destruct (v !! next) as [x|] eqn:Hx; [|discriminate]. cbn [bind] in Hrun.
  unfold Libstdcxx.iter_write in Hrun.
  destruct (decide (S next < length v)) as [Hin|]; [|destruct (comp val x); discriminate].
  destruct (comp val x) eqn:Hcmp.
  - cbn [bind] in Hrun.
    assert (Hnext : 1 <= next).
    { destruct next; [|lia]. rewrite Hfront in Hx. injection Hx as <-. congruence. }
    destruct (IH (<[S next := x]> v) v' Hnext
                ltac:(rewrite list_lookup_insert_ne by lia; exact Hfront) Hrun)
      as (Hhead & Hlen & Hframe).
    split; [exact Hhead|]. split; [rewrite Hlen; apply length_insert|].
    intros k Hk. rewrite Hframe by lia. apply list_lookup_insert_ne. lia.
  - injection Hrun as <-.
    split; [rewrite list_lookup_insert_ne by lia; exact Hfront|].
    split; [apply length_insert|].
    intros k Hk. apply list_lookup_insert_ne. lia.
Qed.

(** The front element after the rounds of [__insertion_sort]. *)
Lemma __insertion_sort_loop_front rounds :
  forall v i q v',
    1 <= i -> i + rounds <= length v -> v !! 0 = Some q ->
    Libstdcxx.__insertion_sort_loop comp rounds v 0 i = Ok v' ->
    v' !! 0 = Some (foldl (pick comp) q (take rounds (drop i v))).
Proof.
  induction rounds as [|rounds IH]; intros v i q v' Hi Hlen Hfront Hrun.
  - injection Hrun as <-. exact Hfront.
  - destruct (lookup_lt_is_Some_2 v i ltac:(lia)) as [x Hx].
    rewrite (drop_S _ _ _ Hx). cbn [take foldl].
    cbn [Libstdcxx.__insertion_sort_loop] in Hrun.
    rewrite (iter_read_Ok _ _ _ Hx), (iter_read_Ok _ _ _ Hfront) in Hrun.
    cbn [bind] in Hrun. unfold pick at 2.
    destruct (comp x q) eqn:Hcmp.
    + pose proof (take_drop_middle _ _ _ Hx) as Hsplit.
      assert (Hp : length (take i v) = i) by (rewrite length_take; lia).
      pose proof (move_backward_shift (take i v) x (drop (S i) v)) as Hmb.
      rewrite Hsplit, Hp in Hmb. rewrite Hmb in Hrun. cbn [bind] in Hrun.
      unfold Libstdcxx.iter_write in Hrun. cbn [length] in Hrun.
      destruct (decide (0 < S (length (take i v ++ drop (S i) v)))) as [_|Hout]; [|lia].
      cbn [bind] in Hrun.
      change (<[0 := x]> (hd x (take i v) :: take i v ++ drop (S i) v))
        with (x :: take i v ++ drop (S i) v) in Hrun.
      rewrite (IH (x :: take i v ++ drop (S i) v) (S i) x v' ltac:(lia)
                 ltac:(cbn [length]; rewrite length_app, Hp, length_drop; lia)
                 eq_refl Hrun).
      do 3 f_equal. cbn [drop]. rewrite <- Hp at 1. apply drop_app_length.
    + unfold Libstdcxx.__unguarded_linear_insert in Hrun.
      rewrite (iter_read_Ok _ _ _ Hx) in Hrun. cbn [bind] in Hrun.
      destruct (Libstdcxx.__unguarded_linear_insert_loop comp v x i) as [v1| |] eqn:Hins;
        [|discriminate..].
      cbn [bind] in Hrun.
      destruct (__unguarded_linear_insert_loop_front x q Hcmp i v v1 Hi Hfront Hins)
        as (Hhead & Hlen1 & Hframe).
      rewrite (IH v1 (S i) q v' ltac:(lia) ltac:(lia) Hhead Hrun).
      do 3 f_equal. apply list_eq. intros k. rewrite !lookup_drop. apply Hframe. lia.
Qed.

(** [std::sort] on a short vector. *)
Lemma sort_short_front p v v' :
  length (p :: v) <= Libstdcxx._S_threshold ->
  Libstdcxx.sort comp (p :: v) = Ok v' ->
  v' !! 0 = Some (foldl (pick comp) p v).
Proof.
  intros Hshort Hrun. unfold Libstdcxx.sort, Libstdcxx.__sort in Hrun.
  rewrite decide_False in Hrun by (cbn [length]; lia).
  assert (Hloop : forall depth,
            Libstdcxx.__introsort_loop comp (p :: v) 0 (length (p :: v)) depth = Ok (p :: v)).
  { intros [|depth]; cbn [Libstdcxx.__introsort_loop];
      rewrite decide_False by lia; reflexivity. }
  rewrite Hloop in Hrun. cbn [bind] in Hrun.
  unfold Libstdcxx.__final_insertion_sort in Hrun.
  rewrite decide_False in Hrun by lia.
  unfold Libstdcxx.__insertion_sort in Hrun.
  rewrite decide_False in Hrun by (cbn [length]; lia).
  rewrite (__insertion_sort_loop_front (length (p :: v) - (0 + 1)) (p :: v) (0 + 1) p v'
             ltac:(lia)
             ltac:(cbn [length]; lia) eq_refl Hrun).
  cbn [length]. change (drop (0 + 1) (p :: v)) with v.
  rewrite take_ge by lia. reflexivity.
Qed.

End ShortVectors.

(** The first pair at the minimum is the pair that no later one beats. *)
Lemma first_min_pick p l : first_min (p :: l) = Some (foldl (pick closer) p l).
Proof.
  revert p. induction l as [|x l IH]; intros p; [reflexivity|].
  cbn [foldl]. rewrite <- IH. cbn [first_min]. unfold pick, closer.
  destruct (first_min l) as [s|];
    destruct (Z.ltb_spec x.2 p.2);
    repeat match goal with
           | |- context [?a <? ?b] => destruct (Z.ltb_spec a b)
           end; try reflexivity; lia.
Qed.

(** Up to sixteen pairs, the pair the library puts first is the one
    enumerated first among those at the minimum. *)
Lemma gnu_sort_short_first_min levDists :
  (length levDists <= 16)%nat ->
  gnu_sort closer levDists !! 0%nat = first_min levDists.
Proof.
  intros Hshort. unfold gnu_sort.
  destruct (sort_sorted closer closer_strict_weak_order levDists) as (sorted & Hrun & _).
  rewrite Hrun. destruct levDists as [|p l].
  - vm_compute in Hrun. injection Hrun as <-. reflexivity.
  - rewrite first_min_pick. eapply sort_short_front; [exact Hshort|exact Hrun].
Qed.

(** ** The generator of the library meets the contract of the draw *)

(** ** The generator of the library meets the contract of the draw *)

Section Words.
Import Libstdcxx.

(** The words of the state and the numbers drawn have 32 bits. *)
Lemma word_land_ones x : 0 <= x < 2 ^ 32 <-> Z.land x (Z.ones 32) = x.
Proof.
  rewrite Z.land_ones by lia. split.
  - intros H. apply Z.mod_small, H.
  - intros <-. apply Z.mod_pos_bound. reflexivity.
Qed.

Lemma land_lxor_distr x y c : Z.land (Z.lxor x y) c = Z.lxor (Z.land x c) (Z.land y c).
Proof.
  apply Z.bits_inj'. intros n _.
  rewrite Z.land_spec, !Z.lxor_spec, !Z.land_spec.
  destruct (Z.testbit x n), (Z.testbit y n), (Z.testbit c n); reflexivity.
Qed.

Lemma word_lxor x y : 0 <= x < 2 ^ 32 -> 0 <= y < 2 ^ 32 -> 0 <= Z.lxor x y < 2 ^ 32.
Proof.
  rewrite !word_land_ones. intros Hx Hy.
  rewrite land_lxor_distr, Hx, Hy. reflexivity.
Qed.

Lemma word_lor x y : 0 <= x < 2 ^ 32 -> 0 <= y < 2 ^ 32 -> 0 <= Z.lor x y < 2 ^ 32.
Proof.
  rewrite !word_land_ones. intros Hx Hy.
  rewrite Z.land_lor_distr_l, Hx, Hy. reflexivity.
Qed.

Lemma word_land_l x y : 0 <= x < 2 ^ 32 -> 0 <= Z.land x y < 2 ^ 32.
Proof.
  rewrite !word_land_ones. intros Hx.
  rewrite <- Z.land_assoc, (Z.land_comm y), Z.land_assoc, Hx. reflexivity.
Qed.

Lemma word_land_r x y : 0 <= y < 2 ^ 32 -> 0 <= Z.land x y < 2 ^ 32.
Proof. rewrite Z.land_comm. apply word_land_l. Qed.

Lemma word_shiftr x n : 0 <= n -> 0 <= x < 2 ^ 32 -> 0 <= Z.shiftr x n < 2 ^ 32.
Proof.
  intros Hn Hx. rewrite Z.shiftr_div_pow2 by exact Hn.
  pose proof (Z.pow_pos_nonneg 2 n ltac:(lia) Hn).
  split; [apply Z.div_pos; lia|].
  apply Z.div_lt_upper_bound; [lia|]. nia.
Qed.

Definition words (g : mt19937) : Prop := Forall (fun x => 0 <= x < 2 ^ 32) (_M_x g).

Lemma word_lookup_total (x : list Z) k :
  Forall (fun x => 0 <= x < 2 ^ 32) x -> 0 <= x !!! k < 2 ^ 32.
Proof.
  intros H. rewrite list_lookup_total_alt.
  destruct (x !! k) as [w|] eqn:E; cbn.
  - rewrite Forall_forall in H. apply H. eapply list_elem_of_lookup_2, E.
  - vm_compute. split; [discriminate|reflexivity].
Qed.

Lemma seed_loop_words rounds :
  forall i previous, Forall (fun x => 0 <= x < 2 ^ 32) (seed_loop rounds i previous).
Proof.
  induction rounds as [|rounds IH]; intros i previous; cbn [seed_loop]; constructor.
  - apply Z.mod_pos_bound. reflexivity.
  - apply IH.
Qed.

Lemma seed_words sd : words (seed sd).
Proof.
  unfold words, seed. cbn [_M_x]. constructor.
  - apply Z.mod_pos_bound. reflexivity.
  - apply seed_loop_words.
Qed.

Lemma twist_words x k next far :
  Forall (fun x => 0 <= x < 2 ^ 32) x ->
  Forall (fun x => 0 <= x < 2 ^ 32) (twist x k next far).
Proof.
  intros H. unfold twist. apply Forall_insert; [exact H|].
  apply word_lxor; [apply word_lxor|].
  - apply word_lookup_total, H.
  - apply word_shiftr; [lia|]. apply word_lor.
    + apply word_land_l, word_lookup_total, H.
    + apply word_land_l, word_lookup_total, H.
  - destruct (_ =? 0); vm_compute; split; discriminate || reflexivity.
Qed.

Lemma foldl_twist_words (f : list Z -> nat -> list Z) ks :
  (forall x k, Forall (fun x => 0 <= x < 2 ^ 32) x ->
               Forall (fun x => 0 <= x < 2 ^ 32) (f x k)) ->
  forall x, Forall (fun x => 0 <= x < 2 ^ 32) x ->
            Forall (fun x => 0 <= x < 2 ^ 32) (foldl f x ks).
Proof.
  intros Hf. induction ks as [|k ks IH]; intros x Hx; cbn [foldl]; [exact Hx|].
  apply IH, Hf, Hx.
Qed.

Lemma _M_gen_rand_words g : words g -> words (_M_gen_rand g).
Proof.
  unfold words, _M_gen_rand. cbn [_M_x]. intros H.
  apply twist_words. apply foldl_twist_words; [intros; apply twist_words; assumption|].
  apply foldl_twist_words; [intros; apply twist_words; assumption|]. exact H.
Qed.

Lemma draw_word g : words g -> 0 <= (draw g).1 < 2 ^ 32 /\ words (draw g).2.
Proof.
  intros H. unfold draw.
  set (g' := if decide (state_size <= _M_p g)%nat then _M_gen_rand g else g).
  assert (H' : words g').
  { unfold g'. destruct (decide _); [apply _M_gen_rand_words|]; exact H. }
  cbn [fst snd]. split; [|exact H'].
  pose proof (word_lookup_total (_M_x g') (_M_p g') H') as Hz.
  set (z := _M_x g' !!! _M_p g') in *.
  apply word_lxor; [|apply word_shiftr; [lia|]];
    (apply word_lxor; [|apply word_land_r; vm_compute; split; discriminate || reflexivity]);
    (apply word_lxor; [|apply word_land_r; vm_compute; split; discriminate || reflexivity]);
    (apply word_lxor; [exact Hz|apply word_land_r; vm_compute; split; discriminate || reflexivity]).
Qed.

Lemma _S_nd_loop_range range threshold patience :
  0 < range < 2 ^ 32 ->
  forall g product,
    words g -> 0 <= product < 2 ^ 32 * range ->
    0 <= _S_nd_loop patience g range threshold product < 2 ^ 32 * range.
Proof.
  intros Hrange. induction patience as [|patience IH]; intros g product Hg Hp;
    cbn [_S_nd_loop]; destruct (_ <? threshold); try exact Hp.
  destruct (draw g) as [number g'] eqn:Hdraw.
  destruct (draw_word g Hg) as [Hn Hg']. rewrite Hdraw in Hn, Hg'. cbn [fst snd] in Hn, Hg'.
  apply IH; [exact Hg'|].
  unfold to_unsigned_long. rewrite Z.mod_small by nia. nia.
Qed.

Lemma _S_nd_range g range :
  words g -> 0 < range < 2 ^ 32 -> 0 <= _S_nd g range < range.
Proof.
  intros Hg Hrange. unfold _S_nd.
  destruct (draw g) as [number g'] eqn:Hdraw.
  destruct (draw_word g Hg) as [Hn Hg']. rewrite Hdraw in Hn, Hg'. cbn [fst snd] in Hn, Hg'.
  assert (Hp : 0 <= to_unsigned_long (number * range) < 2 ^ 32 * range).
  { unfold to_unsigned_long. rewrite Z.mod_small by nia. nia. }
  set (product := if _ <? range then _ else _).
  assert (Hproduct : 0 <= product < 2 ^ 32 * range).
  { unfold product. destruct (_ <? range); [|exact Hp].
    apply _S_nd_loop_range; assumption. }
  rewrite Z.shiftr_div_pow2 by lia. split.
  - apply Z.div_pos; lia.
  - apply Z.div_lt_upper_bound; lia.
Qed.

Lemma to_int_to_unsigned_long z : to_int (to_unsigned_long z) = to_int z.
Proof.
  unfold to_int, to_unsigned_long, INT_MODULUS. f_equal.
  rewrite <- (Z.mod_mod_divide (z + 2 ^ 31) (2 ^ 64) (2 ^ 32))
    by (exists (2 ^ 32); reflexivity).
  rewrite <- (Z.mod_mod_divide (z mod 2 ^ 64 + 2 ^ 31) (2 ^ 64) (2 ^ 32))
    by (exists (2 ^ 32); reflexivity).
  rewrite Zplus_mod_idemp_l. reflexivity.
Qed.

(** The first draw lies between the bounds of the distribution. *)
Lemma first_draw_range seed_value a b :
  INT_MIN <= a -> a <= b -> b <= INT_MAX ->
  a <= first_draw seed_value a b <= b.
Proof.
  unfold INT_MIN, INT_MAX. intros Ha Hab Hb.
  unfold first_draw, uniform_int_distribution.
  pose proof (seed_words (to_unsigned_long seed_value)) as Hg.
  set (g := seed (to_unsigned_long seed_value)) in *.
  assert (Hurange : to_unsigned_long (to_unsigned_long b - to_unsigned_long a) = b - a).
  { unfold to_unsigned_long. rewrite <- Zminus_mod. apply Z.mod_small. lia. }
  rewrite Hurange.
  rewrite to_int_to_unsigned_long.
  assert (Hsum : forall ret, to_int (ret + to_unsigned_long a) = to_int (ret + a)).
  { intros ret. rewrite <- to_int_to_unsigned_long. symmetry.
    rewrite <- to_int_to_unsigned_long. f_equal. unfold to_unsigned_long.
    rewrite Zplus_mod_idemp_r. reflexivity. }
  rewrite Hsum.
  destruct (b - a <? 2 ^ 32 - 1) eqn:Hless.
  - apply Z.ltb_lt in Hless.
    assert (Hr : to_unsigned_long (b - a + 1) mod 2 ^ 32 = b - a + 1).
    { unfold to_unsigned_long.
      rewrite (Z.mod_small (b - a + 1) (2 ^ 64)) by lia. apply Z.mod_small. lia. }
    rewrite Hr.
    pose proof (_S_nd_range g (b - a + 1) Hg ltac:(lia)) as Hret.
    rewrite to_int_small by (unfold INT_MIN, INT_MAX; lia). lia.
  - apply Z.ltb_ge in Hless.
    pose proof (to_int_range ((draw g).1 + a)) as H. unfold INT_MIN, INT_MAX in H. lia.
Qed.

End Words.


Lemma gnu_uniform_int_range seed_value a b :
  a <= b -> a <= gnu_uniform_int seed_value a b <= b.
Proof.
  intros Hab. unfold gnu_uniform_int. destruct (decide _) as [[Ha Hb]|_]; [|lia].
  apply first_draw_range; assumption.
Qed.

Definition gnu_random_model : StdRandom :=
  {| uniform_int := gnu_uniform_int; uniform_int_range := gnu_uniform_int_range |}.

(** ** The enumeration of candidate pairs *)

Lemma ComputeLevenshteinDistance_distance a b :
  ComputeLevenshteinDistance a b = Ok (distance a b).
Proof.
  unfold distance. destruct (ComputeLevenshteinDistance_total a b) as (d & -> & _).
  reflexivity.
Qed.

(** The keyword loop appends one pair per keyword, in order. *)
Lemma keyword_loop_pairs edge message :
  forall keywords levDists,
    keyword_loop edge keywords message levDists =
    Ok (levDists ++ ((fun keyword => (edge, distance keyword message)) <$> keywords)).
Proof.
  induction keywords as [|kw kws IH]; intros acc; cbn [keyword_loop fmap list_fmap].
  - rewrite app_nil_r. reflexivity.
  - rewrite ComputeLevenshteinDistance_distance. cbn [bind].
    rewrite IH, <- app_assoc. reflexivity.
Qed.

(** A loop counter below an edge count of at most [2^31] survives the
    narrowing to [int] and the widening back to [size_t]. *)
Lemma index_in_range (n : Z) (k : nat) :
  n <= INT_MAX + 1 -> Z.of_nat k < n ->
  to_int (Z.of_nat k) = Z.of_nat k /\
  Z.to_nat (to_size_t (to_int (Z.of_nat k))) = k /\
  to_size_t (Z.of_nat k + 1) = Z.of_nat (S k).
Proof.
  unfold INT_MAX. intros Hn Hk.
  assert (H1 : to_int (Z.of_nat k) = Z.of_nat k).
  { apply to_int_small. unfold INT_MIN, INT_MAX. lia. }
  rewrite H1, !to_size_t_small by (unfold SIZE_MODULUS; lia). lia.
Qed.

Lemma edge_loop_pairs node message :
  edges_fit node ->
  forall remaining k levDists,
    (k + remaining = length (_childEdges node))%nat ->
    edge_loop node remaining (Z.of_nat k) message levDists =
    Ok (levDists ++ (drop k (_childEdges node) ≫= pairs_of message)).
Proof.
  unfold edges_fit, size. intros Hfit.
  induction remaining as [|r IH]; intros k acc Hk; cbn [edge_loop].
  - rewrite drop_ge by lia. cbn. rewrite app_nil_r. reflexivity.
  - destruct (index_in_range _ k Hfit ltac:(lia)) as (H1 & H2 & H3).
    destruct (lookup_lt_is_Some_2 (_childEdges node) k ltac:(lia)) as [e He].
    unfold GetChildEdgeAtIndex. rewrite H2, He. cbn [bind].
    rewrite keyword_loop_pairs. cbn [bind]. rewrite H3, IH by lia.
    rewrite (drop_S _ _ _ He), bind_cons, app_assoc. reflexivity.
Qed.

(** On a node whose edges fit, the enumeration returns every pair, in
    order. *)
Lemma enumerate_pairs_all node message :
  edges_fit node -> enumerate_pairs node message = Ok (all_pairs node message).
Proof.
  intros Hfit. unfold enumerate_pairs.
  rewrite (edge_loop_pairs node message Hfit _ 0%nat []) by reflexivity.
  reflexivity.
Qed.

(** Past [2^31] edges the enumeration reaches an index that narrows to a
    negative [int]. *)
Lemma edge_loop_overflow node message :
  INT_MAX + 1 < size (_childEdges node) <= PTRDIFF_MAX ->
  forall remaining k levDists,
    (k + remaining = length (_childEdges node))%nat ->
    Z.of_nat k <= INT_MAX + 1 ->
    edge_loop node remaining (Z.of_nat k) message levDists = Undefined.
Proof.
  unfold size, INT_MAX, PTRDIFF_MAX. intros Hbig.
  induction remaining as [|r IH]; intros k acc Hk Hle; [lia|].
  cbn [edge_loop]. destruct (Z.eq_dec (Z.of_nat k) (2 ^ 31)) as [E|NE].
  - unfold GetChildEdgeAtIndex. rewrite E.
    change (to_size_t (to_int (2 ^ 31))) with (2 ^ 64 - 2 ^ 31).
    rewrite lookup_ge_None_2 by lia. reflexivity.
  - destruct (index_in_range (2 ^ 31) k ltac:(unfold INT_MAX; lia) ltac:(lia))
      as (H1 & H2 & H3).
    destruct (lookup_lt_is_Some_2 (_childEdges node) k ltac:(lia)) as [e He].
    unfold GetChildEdgeAtIndex. rewrite H2, He. cbn [bind].
    rewrite keyword_loop_pairs. cbn [bind]. rewrite H3. apply IH; lia.
Qed.

Lemma closer_false_le (p q : EdgeDist) : closer q p = false <-> p.2 <= q.2.
Proof. unfold closer. apply Z.ltb_ge. Qed.




(** ** Selection *)

Section Selection.
Context {S : StdSort}.

Lemma select_new_node_leaf bot : select_new_node bot [] = Ok (_rootNode bot).
Proof. reflexivity. Qed.

(** On a non-empty list the selection is the head of the sorted list, a
    pair at the minimum distance. *)
Lemma select_new_node_best bot levDists :
  levDists <> [] ->
  exists best,
    std_sort closer levDists !! 0%nat = Some best /\
    select_new_node bot levDists = Ok (_childNode best.1) /\
    best ∈ levDists /\
    forall q, q ∈ levDists -> best.2 <= q.2.
Proof.
  intros Hne.
  pose proof (std_sort_permutation _ closer levDists closer_strict_weak_order) as Hperm.
  pose proof (std_sort_sorted _ closer levDists closer_strict_weak_order) as Hsorted.
  destruct (std_sort closer levDists) as [|best rest] eqn:Hs.
  { apply Permutation_nil_l in Hperm. congruence. }
  exists best. split; [reflexivity|]. split; [|split].
  - unfold select_new_node. rewrite Hs.
    destruct (Z.ltb_spec 0 (size levDists)) as [_|H0]; [reflexivity|].
    destruct levDists; [congruence|]. unfold size in H0. cbn [length] in H0. lia.
  - rewrite <- Hperm. left.
  - intros q Hq. rewrite <- Hperm in Hq. apply closer_false_le.
    apply elem_of_cons in Hq as [->|Hq]; [apply closer_strict_weak_order|].
    apply list_elem_of_lookup_1 in Hq as [j Hj].
    apply (Hsorted 0%nat (Datatypes.S j) best q); [lia|reflexivity|exact Hj].
Qed.

End Selection.

Lemma all_pairs_elem node message e d :
  (e, d) ∈ all_pairs node message <->
  e ∈ _childEdges node /\ exists keyword, keyword ∈ _keywords e /\ d = distance keyword message.
Proof.
  unfold all_pairs, pairs_of. rewrite list_elem_of_bind. split.
  - intros (e' & Hin & He'). apply list_elem_of_fmap in Hin as (kw & [= -> ->] & Hkw). eauto.
  - intros (He & kw & Hkw & ->). exists e. split; [|exact He].
    apply list_elem_of_fmap. eauto.
Qed.

Lemma all_pairs_nil node message :
  all_pairs node message = [] <->
  forall e, e ∈ _childEdges node -> _keywords e = [].
Proof.
  split.
  - intros H e He. destruct (_keywords e) as [|kw kws] eqn:Hk; [reflexivity|].
    assert ((e, distance kw message) ∈ all_pairs node message) as Hin.
    { apply all_pairs_elem. split; [exact He|]. exists kw. rewrite Hk. split; [left|reflexivity]. }
    rewrite H in Hin. inversion Hin.
  - intros H. destruct (all_pairs node message) as [|[e d] l] eqn:E; [reflexivity|].
    assert ((e, d) ∈ all_pairs node message) as Hin by (rewrite E; left).
    apply all_pairs_elem in Hin as (He & kw & Hkw & _).
    rewrite (H e He) in Hkw. inversion Hkw.
Qed.

(** ** Moving the chatbot *)

Section Moves.
Context {R : StdRandom}.

(** Moving the chatbot from node [h] to node [t]: an answer of [t] is
    selected and the state is [arrive]. *)
Lemma MoveChatbotToNewNode_cases w h hn t tn now :
  _nodes w !! h = Some hn ->
  _nodes w !! t = Some tn ->
  MoveChatbotToNewNode h (Some t) now w =
  do answer <- select_answer now (_answers tn);
  Ok (arrive w (_rootNode (_chatBot hn)) t tn answer).
Proof.
  intros Hh Ht.
  assert (Htlt : (t < length (_nodes w))%nat) by (eapply lookup_lt_Some, Ht).
  unfold MoveChatbotToNewNode, MoveChatbotHere, SetCurrentNode, deref.
  rewrite Hh. cbn [bind]. rewrite Ht. cbn [bind].
  unfold set_chatBot, SetChatbotHandle.
  repeat first
    [ rewrite Ht
    | rewrite list_lookup_insert_eq by (rewrite ?length_insert; exact Htlt)
    | rewrite list_insert_insert_eq
    | progress cbn [bind _nodes _chatBotHandle _panelDialog _chatBot _childEdges
                    _answers _rootNode] ].
  unfold select_answer.
  destruct (_ <? 0); [reflexivity|].
  destruct (vector_at _ _); reflexivity.
Qed.

Lemma select_answer_fit now answers :
  1 <= size answers <= INT_MAX + 1 ->
  exists answer, select_answer now answers = Ok answer /\ answer ∈ answers.
Proof.
  unfold size, INT_MAX. intros Hfit. unfold select_answer, size.
  assert (Hlast : to_int (to_size_t (Z.of_nat (length answers) - 1)) =
                  Z.of_nat (length answers) - 1).
  { rewrite to_size_t_small by (unfold SIZE_MODULUS; lia).
    apply to_int_small. unfold INT_MIN, INT_MAX. lia. }
  rewrite Hlast.
  pose proof (uniform_int_range (to_int now) 0 (Z.of_nat (length answers) - 1)
                ltac:(lia)) as Hr.
  destruct (Z.ltb_spec (Z.of_nat (length answers) - 1) 0) as [|_]; [lia|].
  unfold vector_at. rewrite to_size_t_small by (unfold SIZE_MODULUS; lia).
  destruct (lookup_lt_is_Some_2 answers
    (Z.to_nat (uniform_int (to_int now) 0 (Z.of_nat (length answers) - 1))) ltac:(lia))
    as [answer Ha].
  rewrite Ha. exists answer. split; [reflexivity|]. eapply list_elem_of_lookup_2, Ha.
Qed.

Lemma select_answer_empty now : select_answer now [] = Undefined.
Proof. reflexivity. Qed.
End Moves.

Section StepCore.
Context {S : StdSort} {R : StdRandom}.

Lemma SendMessageToChatbot_handle w h message now :
  _chatBotHandle w = Some h ->
  SendMessageToChatbot message now w = ReceiveMessageFromUser h message now w.
Proof. unfold SendMessageToChatbot. intros ->. reflexivity. Qed.

(** One message, on a node whose edges fit: select the destination, then
    move. *)
Lemma ReceiveMessageFromUser_step w h hn message now :
  engine_at w h hn -> edges_fit hn ->
  ReceiveMessageFromUser h message now w =
  do newNode <- select_new_node (_chatBot hn) (all_pairs hn message);
  MoveChatbotToNewNode h newNode now w.
Proof.
  intros (_ & Hn & Hc) Hfit.
  unfold ReceiveMessageFromUser.
  unfold deref at 1. rewrite Hn. cbn [bind]. rewrite Hc.
  unfold deref at 1. rewrite Hn. cbn [bind].
  rewrite enumerate_pairs_all by exact Hfit. reflexivity.
Qed.
End StepCore.

Lemma currentNode_arrive w root t tn answer :
  (t < length (_nodes w))%nat -> currentNode (arrive w root t tn answer) = Some t.
Proof.
  intros Ht. unfold currentNode, arrive, deref. cbn [_chatBotHandle _nodes].
  rewrite list_lookup_insert_eq by exact Ht. reflexivity.
Qed.

Lemma well_formed_node w a n : well_formed w -> _nodes w !! a = Some n -> node_ok w n.
Proof. intros [Hall _] Ha. rewrite Forall_lookup in Hall. eapply Hall, Ha. Qed.

Lemma engine_at_unique w h hn h' hn' :
  engine_at w h hn -> engine_at w h' hn' -> h = h' /\ hn = hn'.
Proof. intros (H1 & H2 & _) (H1' & H2' & _). split; congruence. Qed.

Section Step.
Context {S : StdSort} {R : StdRandom}.

Lemma ReceiveMessageFromUser_destination w h hn message now :
  engine_at w h hn -> edges_fit hn ->
  ReceiveMessageFromUser h message now w =
  do newNode <- destination hn message;
  MoveChatbotToNewNode h newNode now w.
Proof. apply ReceiveMessageFromUser_step. Qed.

Lemma step_to_valid w h hn message now t :
  well_formed w -> engine_at w h hn ->
  destination hn message = Ok t ->
  valid_ptr w t ->
  exists a tn answer,
    t = Some a /\ _nodes w !! a = Some tn /\ answer ∈ _answers tn /\
    ReceiveMessageFromUser h message now w =
    Ok (arrive w (_rootNode (_chatBot hn)) a tn answer).
Proof.
  intros Hwf Hat Hdest (a & -> & [tn Htn]).
  destruct (well_formed_node _ _ _ Hwf (proj1 (proj2 Hat))) as (Hfit & _ & _).
  destruct (well_formed_node _ _ _ Hwf Htn) as (_ & Hans & _).
  destruct (select_answer_fit now _ Hans) as (answer & Hsel & Hin).
  exists a, tn, answer. repeat split; try assumption.
  rewrite (ReceiveMessageFromUser_destination w h hn) by assumption.
  rewrite Hdest. cbn [bind].
  rewrite (MoveChatbotToNewNode_cases w h hn a tn) by (assumption || apply Hat).
  rewrite Hsel. reflexivity.
Qed.

(** A step from a node with candidate pairs, on a well-formed graph. *)
Lemma step_best w h hn message now :
  well_formed w -> engine_at w h hn ->
  all_pairs hn message <> [] ->
  exists best a tn answer,
    std_sort closer (all_pairs hn message) !! 0%nat = Some best /\
    best ∈ all_pairs hn message /\
    (forall q, q ∈ all_pairs hn message -> best.2 <= q.2) /\
    _childNode best.1 = Some a /\ _nodes w !! a = Some tn /\ answer ∈ _answers tn /\
    ReceiveMessageFromUser h message now w =
    Ok (arrive w (_rootNode (_chatBot hn)) a tn answer).
Proof.
  intros Hwf Hat Hne.
  destruct (select_new_node_best (_chatBot hn) _ Hne) as (best & Hhead & Hsel & Hin & Hmin).
  destruct (well_formed_node _ _ _ Hwf (proj1 (proj2 Hat))) as (_ & _ & Hedges).
  assert (Hvalid : valid_ptr w (_childNode best.1)).
  { destruct best as [e d]. apply all_pairs_elem in Hin as [He _].
    rewrite Forall_forall in Hedges. apply Hedges, He. }
  destruct (step_to_valid w h hn message now _ Hwf Hat Hsel Hvalid)
    as (a & tn & answer & Ha & Htn & Hans & Hrun).
  exists best, a, tn, answer. repeat split; assumption.
Qed.

(** A step from a node without candidate pairs, on a well-formed graph. *)
Lemma step_leaf w h hn message now :
  well_formed w -> engine_at w h hn ->
  all_pairs hn message = [] ->
  exists a tn answer,
    _rootNode (_chatBot hn) = Some a /\ _nodes w !! a = Some tn /\ answer ∈ _answers tn /\
    ReceiveMessageFromUser h message now w =
    Ok (arrive w (_rootNode (_chatBot hn)) a tn answer).
Proof.
  intros Hwf Hat Hnil.
  assert (Hvalid : valid_ptr w (_rootNode (_chatBot hn))).
  { destruct Hwf as (_ & h' & hn' & Hat' & Hroot).
    destruct (engine_at_unique _ _ _ _ _ Hat Hat') as [_ ->]. exact Hroot. }
  destruct (step_to_valid w h hn message now (_rootNode (_chatBot hn)) Hwf Hat)
    as (a & tn & answer & Ha & Htn & Hans & Hrun); [|exact Hvalid|].
  { unfold destination. rewrite Hnil. reflexivity. }
  exists a, tn, answer. repeat split; assumption.
Qed.
End Step.

(** The edge loop calls the accessor on [accessor_calls], in order. *)
Lemma edge_loop_visit node message :
  forall remaining i levDists,
    edge_loop node remaining i message levDists =
    visit_edges node (accessor_calls remaining i) message levDists.
Proof.
  induction remaining as [|r IH]; intros i acc; [reflexivity|].
  cbn [edge_loop accessor_calls visit_edges].
  destruct (GetChildEdgeAtIndex node (to_int i)) as [e| |]; try reflexivity. cbn [bind].
  destruct (keyword_loop e (_keywords e) message acc); try reflexivity. cbn [bind].
  apply IH.
Qed.

Lemma accessor_calls_in_bounds n :
  n <= INT_MAX + 1 ->
  forall remaining k,
    Z.of_nat (k + remaining) = n ->
    Forall (fun index => 0 <= index < n) (accessor_calls remaining (Z.of_nat k)).
Proof.
  intros Hn. induction remaining as [|r IH]; intros k Hk; cbn [accessor_calls]; constructor.
  - destruct (index_in_range n k Hn ltac:(lia)) as (-> & _ & _). lia.
  - destruct (index_in_range n k Hn ltac:(lia)) as (_ & _ & ->). apply IH. lia.
Qed.

Lemma GetChildEdgeAtIndex_in_bounds node index :
  0 <= index < GetNumberOfChildEdges node ->
  exists e, GetChildEdgeAtIndex node index = Ok e /\ e ∈ _childEdges node.
Proof.
  unfold GetNumberOfChildEdges, size, GetChildEdgeAtIndex. intros H.
  destruct (Z_lt_le_dec index SIZE_MODULUS) as [Hs|Hs].
  - rewrite to_size_t_small by lia.
    destruct (lookup_lt_is_Some_2 (_childEdges node) (Z.to_nat index) ltac:(lia)) as [e He].
    rewrite He. exists e. split; [reflexivity|]. eapply list_elem_of_lookup_2, He.
  - pose proof (to_size_t_range index).
    destruct (lookup_lt_is_Some_2 (_childEdges node) (Z.to_nat (to_size_t index)) ltac:(lia))
      as [e He].
    rewrite He. exists e. split; [reflexivity|]. eapply list_elem_of_lookup_2, He.
Qed.

Lemma all_pairs_nonempty hn message :
  (exists e, e ∈ _childEdges hn /\ _keywords e <> []) -> all_pairs hn message <> [].
Proof.
  intros (e & He & Hk) Hnil. apply Hk. eapply all_pairs_nil; eassumption.
Qed.

Lemma accessor_calls_lookup :
  forall j remaining k,
    (j < remaining)%nat -> Z.of_nat (k + j) < SIZE_MODULUS ->
    accessor_calls remaining (Z.of_nat k) !! j = Some (to_int (Z.of_nat (k + j))).
Proof.
  induction j as [|j IH]; intros [|r] k Hj Hk; try lia; cbn [accessor_calls].
  - rewrite Nat.add_0_r. reflexivity.
  - cbn [lookup list_lookup]. rewrite to_size_t_small by lia.
    replace (Z.of_nat k + 1) with (Z.of_nat (Datatypes.S k)) by lia.
    rewrite IH by lia. do 2 f_equal. lia.
Qed.

(** ** Two engines over one graph *)

Lemma GetChildEdgeAtIndex_edges n1 n2 index :
  _childEdges n1 = _childEdges n2 ->
  GetChildEdgeAtIndex n1 index = GetChildEdgeAtIndex n2 index.
Proof. unfold GetChildEdgeAtIndex. intros ->. reflexivity. Qed.

Lemma visit_edges_edges n1 n2 message :
  _childEdges n1 = _childEdges n2 ->
  forall indices levDists,
    visit_edges n1 indices message levDists = visit_edges n2 indices message levDists.
Proof.
  intros He. induction indices as [|index rest IH]; intros acc; [reflexivity|].
  cbn [visit_edges]. rewrite (GetChildEdgeAtIndex_edges n1 n2 index He).
  destruct (GetChildEdgeAtIndex n2 index) as [e| |]; try reflexivity. cbn [bind].
  destruct (keyword_loop e (_keywords e) message acc); try reflexivity. cbn [bind].
  apply IH.
Qed.

Lemma enumerate_pairs_edges n1 n2 message :
  _childEdges n1 = _childEdges n2 ->
  enumerate_pairs n1 message = enumerate_pairs n2 message.
Proof.
  intros He. unfold enumerate_pairs. rewrite !edge_loop_visit, He.
  apply visit_edges_edges, He.
Qed.

Lemma graph_of_lookup w1 w2 a :
  graph_of w1 = graph_of w2 ->
  match _nodes w1 !! a, _nodes w2 !! a with
  | Some n1, Some n2 => _childEdges n1 = _childEdges n2 /\ _answers n1 = _answers n2
  | None, None => True
  | _, _ => False
  end.
Proof.
  unfold graph_of. intros H.
  assert (Ha : ((fun n => (_childEdges n, _answers n)) <$> _nodes w1) !! a =
               ((fun n => (_childEdges n, _answers n)) <$> _nodes w2) !! a)
    by (rewrite H; reflexivity).
  rewrite !list_lookup_fmap in Ha.
  destruct (_nodes w1 !! a), (_nodes w2 !! a); cbn in Ha; try discriminate; [|exact I].
  injection Ha as -> ->. split; reflexivity.
Qed.

Lemma same_engine_arrive w1 w2 root t tn1 tn2 answer :
  graph_of w1 = graph_of w2 ->
  _nodes w1 !! t = Some tn1 -> _nodes w2 !! t = Some tn2 ->
  _childEdges tn1 = _childEdges tn2 -> _answers tn1 = _answers tn2 ->
  same_engine (arrive w1 root t tn1 answer) (arrive w2 root t tn2 answer).
Proof.
  intros Hg H1 H2 He Ha.
  assert (Hlt1 : (t < length (_nodes w1))%nat) by (eapply lookup_lt_Some, H1).
  assert (Hlt2 : (t < length (_nodes w2))%nat) by (eapply lookup_lt_Some, H2).
  split.
  - unfold graph_of, arrive in *. cbn [_nodes].
    rewrite !list_fmap_insert. cbn [_childEdges _answers]. rewrite Hg, He, Ha. reflexivity.
  - eexists t, _, _. unfold engine_at, arrive. cbn [_nodes _chatBotHandle].
    rewrite !list_lookup_insert_eq by assumption.
    repeat split; reflexivity.
Qed.

Section Determinism.
Context {S : StdSort} {R : StdRandom}.

(** One message keeps two engines over one graph in step. *)
Lemma SendMessageToChatbot_same w1 w2 message now :
  same_engine w1 w2 ->
  same_outcome w1 w2 (SendMessageToChatbot message now w1)
                     (SendMessageToChatbot message now w2).
Proof.
  intros (Hg & h & n1 & n2 & (Hh1 & Hn1 & Hc1) & (Hh2 & Hn2 & Hc2) & Hroot).
  pose proof (graph_of_lookup w1 w2 h Hg) as Hh. rewrite Hn1, Hn2 in Hh.
  destruct Hh as [He _].
  unfold SendMessageToChatbot, ReceiveMessageFromUser. rewrite Hh1, Hh2.
  unfold deref at 1 3. rewrite Hn1, Hn2. cbn [bind]. rewrite Hc1, Hc2.
  unfold deref at 1 2. rewrite Hn1, Hn2. cbn [bind].
  rewrite (enumerate_pairs_edges n1 n2 message He).
  destruct (enumerate_pairs n2 message) as [levDists|e|]; cbn [bind same_outcome]; auto.
  assert (Hsel : select_new_node (_chatBot n1) levDists =
                 select_new_node (_chatBot n2) levDists).
  { unfold select_new_node. rewrite Hroot. reflexivity. }
  rewrite Hsel.
  destruct (select_new_node (_chatBot n2) levDists) as [[t|]|e|]; cbn [bind same_outcome]; auto.
  2:{ unfold MoveChatbotToNewNode, deref. rewrite Hn1, Hn2. exact I. }
  pose proof (graph_of_lookup w1 w2 t Hg) as Ht.
  destruct (_nodes w1 !! t) as [tn1|] eqn:Ht1, (_nodes w2 !! t) as [tn2|] eqn:Ht2;
    try contradiction.
  - destruct Ht as [Hte Hta].
    rewrite (MoveChatbotToNewNode_cases w1 h n1 t tn1), (MoveChatbotToNewNode_cases w2 h n2 t tn2)
      by assumption.
    rewrite Hta, Hroot.
    destruct (select_answer now (_answers tn2)) as [answer|e|]; cbn [bind same_outcome]; auto.
    split; [apply same_engine_arrive; assumption|].
    unfold arrive. cbn [_panelDialog]. rewrite !drop_app_length. reflexivity.
  - unfold MoveChatbotToNewNode, MoveChatbotHere, deref.
    rewrite Hn1, Hn2. cbn [bind]. rewrite Ht1, Ht2. exact I.
Qed.

End Determinism.

(** ** The greeting graph, for any sort and any generator *)

Section Greeting.
Context {S : StdSort} {R : StdRandom}.

Lemma greeting_hi_destination : destination greeting_root (str "hi") = Ok (Some 1%nat).
Proof.
  unfold destination.
  destruct (select_new_node_best (_chatBot greeting_root)
              (all_pairs greeting_root (str "hi")) ltac:(discriminate))
    as (best & _ & -> & Hin & Hmin).
  change (all_pairs greeting_root (str "hi")) with
    [ ({| _keywords := [str "hi"]; _childNode := Some 1%nat |}, 0);
      ({| _keywords := [str "hello"]; _childNode := Some 2%nat |}, 4) ] in Hin, Hmin.
  apply elem_of_cons in Hin as [->|Hin]; [reflexivity|].
  apply list_elem_of_singleton in Hin as ->. exfalso.
  specialize (Hmin ({| _keywords := [str "hi"]; _childNode := Some 1%nat |}, 0)
                   ltac:(left)).
  cbn in Hmin. lia.
Qed.

Lemma greeting_hi_answer now :
  converse [(str "hi", now)] greeting_graph =
  do answer <- select_answer now [str "Hi there"; str "Hey"]; Ok [answer].
Proof.
  cbn [converse].
  rewrite (SendMessageToChatbot_handle greeting_graph 0%nat) by reflexivity.
  rewrite (ReceiveMessageFromUser_destination greeting_graph 0%nat greeting_root).
  2:{ repeat split; reflexivity. }
  2:{ unfold edges_fit, size, INT_MAX. cbn. lia. }
  rewrite greeting_hi_destination. cbn [bind].
  rewrite (MoveChatbotToNewNode_cases greeting_graph 0%nat greeting_root 1%nat
             (leaf [str "Hi there"; str "Hey"] no_bot)) by reflexivity.
  cbn [leaf _answers].
  destruct (select_answer now [str "Hi there"; str "Hey"]) as [answer| |]; reflexivity.
Qed.

Lemma select_answer_pair now (a0 a1 : cstring) :
  select_answer now [a0; a1] =
  Ok (if uniform_int (to_int now) 0 1 =? 0 then a0 else a1).
Proof.
  unfold select_answer.
  change (to_int (to_size_t (size [a0; a1] - 1))) with 1. cbv iota.
  change (1 <? 0) with false. cbv iota.
  pose proof (uniform_int_range (to_int now) 0 1 ltac:(lia)) as Hr.
  unfold vector_at. rewrite to_size_t_small by (unfold SIZE_MODULUS; lia).
  destruct (Z.eqb_spec (uniform_int (to_int now) 0 1) 0) as [->|Hne]; [reflexivity|].
  replace (uniform_int (to_int now) 0 1) with 1 by lia. reflexivity.
Qed.
End Greeting.

(** ** The example graphs are well formed *)

Ltac solve_valid_ptr := eexists; split; [reflexivity|eexists; reflexivity].

Ltac solve_node_ok :=
  split; [|split];
  [ unfold edges_fit, size, INT_MAX; cbn; lia
  | unfold answers_fit, size, INT_MAX; cbn; lia
  | cbn; repeat (apply Forall_cons_2; [solve_valid_ptr|]); apply Forall_nil_2 ].

Ltac solve_well_formed :=
  split;
  [ cbn; repeat (apply Forall_cons_2; [solve_node_ok|]); apply Forall_nil_2
  | eexists _, _; split; [repeat split; reflexivity|solve_valid_ptr] ].

Lemma greeting_graph_well_formed : well_formed greeting_graph.
Proof. solve_well_formed. Qed.

Lemma greeted_graph_well_formed : well_formed greeted_graph.
Proof. solve_well_formed. Qed.

Lemma tie_graph_well_formed : well_formed tie_graph.
Proof. solve_well_formed. Qed.

Lemma greeting_graph_same_engine : same_engine greeting_graph greeting_graph_later.
Proof.
  split; [reflexivity|].
  exists 0%nat. eexists _, _. repeat split; reflexivity.
Qed.


(** Built with this library, the engine on a node with at most sixteen
    (edge, keyword) pairs moves the chatbot along the edge of the pair
    enumerated first among those at the minimum. *)
Lemma short_enumeration_first_enumerated (R : StdRandom) w message now h hn first :
  engine_at w h hn -> edges_fit hn ->
  (length (all_pairs hn message) <= 16)%nat ->
  first_min (all_pairs hn message) = Some first ->
  ReceiveMessageFromUser (S := gnu_sort_model) h message now w =
  MoveChatbotToNewNode h (_childNode first.1) now w.
Proof.
  intros Hat Hfit Hshort Hfirst.
  rewrite (ReceiveMessageFromUser_destination w h hn) by assumption.
  unfold destination, select_new_node.
  change (std_sort closer (all_pairs hn message))
    with (gnu_sort closer (all_pairs hn message)).
  pose proof (gnu_sort_short_first_min _ Hshort) as Hsorted.
  rewrite Hfirst in Hsorted. unfold EdgeDist in *. rewrite Hsorted.
  destruct (all_pairs hn message) as [|p l]; [discriminate|].
  unfold size. cbn [length].
  destruct (Z.ltb_spec 0 (Z.of_nat (S (length l)))); [reflexivity|lia].
Qed.

(** * The claims *)

(** ** The edit-distance matcher *)

(** C6, as amended: for strings of at most [INT_MAX] characters the
    rolling cost row returns exactly the Levenshtein distance of the
    upper-cased strings, that is the minimum number of single-character
    insertions, deletions and substitutions that transform one into the
    other; the distance from or to the empty string is the length of the
    other string, and "kitten" is 3 edits away from "sitting". *)
Theorem matcher_is_levenshtein :
  (forall a b,
     size a <= INT_MAX -> size b <= INT_MAX ->
     exists d : nat,
       ComputeLevenshteinDistance a b = Ok (Z.of_nat d) /\
       edit_distance (transform_toupper a) (transform_toupper b) d) /\
  (forall b, size b <= INT_MAX -> ComputeLevenshteinDistance [] b = Ok (size b)) /\
  (forall a, size a <= INT_MAX -> ComputeLevenshteinDistance a [] = Ok (size a)) /\
  ComputeLevenshteinDistance (str "kitten") (str "sitting") = Ok 3.
Proof.
  split; [|split; [|split]].
  - intros a b Ha Hb. eexists.
    split; [apply ComputeLevenshteinDistance_small; assumption|apply lev_edit_distance].
  - intros b Hb. rewrite ComputeLevenshteinDistance_small
      by (unfold size, INT_MAX in *; cbn [length]; lia).
    change (transform_toupper []) with (@nil ascii).
    rewrite lev_nil_l, length_transform_toupper. reflexivity.
  - intros a Ha. rewrite ComputeLevenshteinDistance_small
      by (unfold size, INT_MAX in *; cbn [length]; lia).
    change (transform_toupper []) with (@nil ascii).
    rewrite lev_nil_r, length_transform_toupper. reflexivity.
  - reflexivity.
Qed.

Lemma matcher_is_levenshtein_witness :
  exists d : nat,
    ComputeLevenshteinDistance (str "flaw") (str "lawn") = Ok (Z.of_nat d) /\
    edit_distance (transform_toupper (str "flaw")) (transform_toupper (str "lawn")) d.
Proof.
  apply (proj1 matcher_is_levenshtein); unfold size, INT_MAX; cbn; lia.
Defined.

(** C6, as stated, fails: at [2^31] characters the distance from the empty
    string no longer fits the [int] the matcher returns, and the result is
    negative. *)
Lemma matcher_overflow :
  size long_keyword = 2 ^ 31 /\
  ComputeLevenshteinDistance [] long_keyword = Ok (- 2 ^ 31).
Proof.
  assert (Hsize : size long_keyword = 2 ^ 31).
  { unfold size, long_keyword. rewrite length_replicate. apply Z2Nat.id. discriminate. }
  split; [exact Hsize|].
  unfold ComputeLevenshteinDistance. change (transform_toupper []) with (@nil ascii).
  change (size [] =? 0) with true. cbv iota.
  rewrite size_transform_toupper, Hsize. reflexivity.
Qed.

(** C7: the matcher is case-insensitive.  Both arguments are upper-cased
    before they are compared, so the result is the same for any two pairs
    of strings that differ in case only, in particular when an argument is
    put in upper or in lower case; and "Hello" is at distance 0 from
    "HELLO". *)
Theorem matcher_case_insensitive :
  (forall a a' b b',
     same_modulo_case a a' -> same_modulo_case b b' ->
     ComputeLevenshteinDistance a b = ComputeLevenshteinDistance a' b') /\
  (forall a b,
     ComputeLevenshteinDistance (map toupper a) b = ComputeLevenshteinDistance a b /\
     ComputeLevenshteinDistance (map tolower a) b = ComputeLevenshteinDistance a b /\
     ComputeLevenshteinDistance a (map toupper b) = ComputeLevenshteinDistance a b /\
     ComputeLevenshteinDistance a (map tolower b) = ComputeLevenshteinDistance a b) /\
  ComputeLevenshteinDistance (str "Hello") (str "HELLO") = Ok 0.
Proof.
  split; [|split].
  - intros a a' b b' Ha Hb.
    apply ComputeLevenshteinDistance_toupper; apply same_modulo_case_toupper; assumption.
  - intros a b.
    repeat split; apply ComputeLevenshteinDistance_toupper; try reflexivity;
      unfold transform_toupper; rewrite map_map; apply map_ext; intros c;
      auto using toupper_idempotent, toupper_tolower.
  - reflexivity.
Qed.

Lemma matcher_case_insensitive_witness :
  ComputeLevenshteinDistance (str "Hi") (str "hello") =
  ComputeLevenshteinDistance (str "hI") (str "HELLo").
Proof.
  apply (proj1 matcher_case_insensitive); repeat constructor.
Defined.

(** C8: the matcher is symmetric, [distance(a, b) = distance(b, a)], for
    all strings ([std_string]: what a [std::string] can hold). *)
Theorem matcher_symmetric a b :
  std_string a -> std_string b ->
  ComputeLevenshteinDistance a b = ComputeLevenshteinDistance b a.
Proof.
  unfold std_string, PTRDIFF_MAX. intros Ha Hb.
  rewrite !ComputeLevenshteinDistance_lev by (unfold SIZE_MODULUS; lia).
  rewrite lev_sym. reflexivity.
Qed.

Lemma matcher_symmetric_witness :
  ComputeLevenshteinDistance (str "kitten") (str "sitting") =
  ComputeLevenshteinDistance (str "sitting") (str "kitten").
Proof.
  apply matcher_symmetric; unfold std_string, size, PTRDIFF_MAX; cbn; lia.
Defined.

(** C9: the matcher returns, for all strings, a distance that does not
    exceed the length of the longer one. *)
Theorem matcher_bounded_by_longer a b :
  exists d, ComputeLevenshteinDistance a b = Ok d /\ d <= Z.max (size a) (size b).
Proof.
  destruct (ComputeLevenshteinDistance_total a b) as (d & Hd & Hrange).
  exists d. split; [exact Hd|].
  destruct (Z_lt_le_dec (Z.max (size a) (size b)) SIZE_MODULUS) as [Hfit|Hbig].
  - rewrite ComputeLevenshteinDistance_lev in Hd by lia. injection Hd as <-.
    pose proof (lev_le_max (transform_toupper a) (transform_toupper b)) as H.
    rewrite !length_transform_toupper in H.
    etransitivity; [apply to_int_le; lia|]. unfold size. lia.
  - unfold SIZE_MODULUS, INT_MAX in *. lia.
Qed.

(** ** The traversal engine *)

(** C10, as amended: when the current node has at most [2^31] outgoing
    edges, every index the enumeration passes to the child-edge accessor is
    non-negative and strictly less than the edge count, the accessor
    returns an edge of the node for it, and the enumeration completes. *)
Theorem child_edge_indices_in_bounds node message :
  edges_fit node ->
  enumerate_pairs node message =
    visit_edges node (accessor_calls (length (_childEdges node)) 0) message [] /\
  Forall (fun index =>
            0 <= index < GetNumberOfChildEdges node /\
            exists e, GetChildEdgeAtIndex node index = Ok e /\ e ∈ _childEdges node)
         (accessor_calls (length (_childEdges node)) 0) /\
  exists levDists, enumerate_pairs node message = Ok levDists.
Proof.
  intros Hfit. split; [apply edge_loop_visit|]. split.
  - eapply Forall_impl.
    + apply (accessor_calls_in_bounds _ Hfit (length (_childEdges node)) 0%nat).
      reflexivity.
    + cbn beta. intros index Hin. split; [exact Hin|].
      apply GetChildEdgeAtIndex_in_bounds, Hin.
  - eexists. apply enumerate_pairs_all, Hfit.
Qed.

Lemma child_edge_indices_in_bounds_witness :
  enumerate_pairs greeting_root (str "helo") =
    visit_edges greeting_root (accessor_calls (length (_childEdges greeting_root)) 0)
      (str "helo") [] /\
  Forall (fun index =>
            0 <= index < GetNumberOfChildEdges greeting_root /\
            exists e, GetChildEdgeAtIndex greeting_root index = Ok e /\
                      e ∈ _childEdges greeting_root)
         (accessor_calls (length (_childEdges greeting_root)) 0) /\
  exists levDists, enumerate_pairs greeting_root (str "helo") = Ok levDists.
Proof.
  apply child_edge_indices_in_bounds. unfold edges_fit, size, INT_MAX. cbn. lia.
Defined.

(** C10, as stated, fails: on a node with [2^31 + 1] outgoing edges the
    loop counter [2^31] narrows to the index [- 2^31], which is outside the
    edge list, and the enumeration runs into the undefined subscript. *)
Lemma child_edge_index_overflow :
  GetNumberOfChildEdges crowded_node = 2 ^ 31 + 1 /\
  accessor_calls (length (_childEdges crowded_node)) 0 !! Z.to_nat (2 ^ 31)
    = Some (- 2 ^ 31) /\
  GetChildEdgeAtIndex crowded_node (- 2 ^ 31) = Undefined /\
  enumerate_pairs crowded_node [] = Undefined.
Proof.
  assert (Hlen : length (_childEdges crowded_node) = Z.to_nat (2 ^ 31 + 1)).
  { unfold crowded_node. cbn [_childEdges]. apply length_replicate. }
  assert (Hsize : size (_childEdges crowded_node) = 2 ^ 31 + 1).
  { unfold size. rewrite Hlen. apply Z2Nat.id. discriminate. }
  split; [exact Hsize|]. split; [|split].
  - rewrite (accessor_calls_lookup (Z.to_nat (2 ^ 31)) _ 0%nat).
    + rewrite Nat.add_0_l, Z2Nat.id by discriminate. reflexivity.
    + rewrite Hlen. apply Z2Nat.inj_lt; [discriminate..|reflexivity].
    + rewrite Nat.add_0_l, Z2Nat.id by discriminate. reflexivity.
  - unfold GetChildEdgeAtIndex.
    change (to_size_t (- 2 ^ 31)) with (2 ^ 64 - 2 ^ 31).
    rewrite lookup_ge_None_2; [reflexivity|].
    rewrite Hlen. apply Z2Nat.inj_le; [discriminate..|]. discriminate.
  - unfold enumerate_pairs.
    apply (edge_loop_overflow crowded_node []
             ltac:(rewrite Hsize; split; reflexivity || discriminate)
             _ 0%nat []); [reflexivity|discriminate].
Qed.









(** C3, as amended: when the destination node has a response list that is
    non-empty (and whose last index is an [int]), no error is raised: one
    response of that list is handed to the panel and the cursor is the
    destination.  When the list is empty the call raises nothing either:
    the bounds of the distribution are 0 and -1, and the behaviour is
    undefined. *)
Theorem response_selection_outcome (S : StdSort) (R : StdRandom)
    w message now h hn t tn :
  engine_at w h hn -> edges_fit hn ->
  destination hn message = Ok (Some t) ->
  _nodes w !! t = Some tn ->
  (answers_fit tn ->
   exists answer w',
     answer ∈ _answers tn /\
     ReceiveMessageFromUser h message now w = Ok w' /\
     _panelDialog w' = _panelDialog w ++ [answer] /\
     currentNode w' = Some t) /\
  (_answers tn = [] -> ReceiveMessageFromUser h message now w = Undefined).
Proof.
  intros Hat Hfit Hdest Htn.
  rewrite (ReceiveMessageFromUser_destination w h hn) by assumption.
  rewrite Hdest. cbn [bind].
  rewrite (MoveChatbotToNewNode_cases w h hn t tn) by (assumption || apply Hat).
  split.
  - intros Hans. destruct (select_answer_fit now _ Hans) as (answer & -> & Hin).
    exists answer. eexists. split; [exact Hin|]. split; [reflexivity|].
    split; [reflexivity|]. apply currentNode_arrive. eapply lookup_lt_Some, Htn.
  - intros ->. reflexivity.
Qed.

Lemma response_selection_outcome_witness :
  (answers_fit greeted ->
   exists answer w',
     answer ∈ _answers greeted /\
     ReceiveMessageFromUser (S := stable_sort_model) (R := clock_random_model)
       0%nat (str "hi") 3 greeting_graph_later = Ok w' /\
     _panelDialog w' = _panelDialog greeting_graph_later ++ [answer] /\
     currentNode w' = Some 1%nat) /\
  (_answers greeted = [] ->
   ReceiveMessageFromUser (S := stable_sort_model) (R := clock_random_model)
     0%nat (str "hi") 3 greeting_graph_later = Undefined).
Proof.
  apply (response_selection_outcome stable_sort_model clock_random_model
           greeting_graph_later (str "hi") 3 0%nat greeting_root 1%nat greeted).
  - repeat split; reflexivity.
  - unfold edges_fit, size, INT_MAX. cbn. lia.
  - vm_compute. reflexivity.
  - reflexivity.
Defined.

(** C3, as stated, fails: the edge on "hi" leads to a node without
    responses, and the call neither returns nor raises an error that a
    caller could handle; its behaviour is undefined. *)
Lemma empty_response_list_undefined :
  destination (S := stable_sort_model) silent_root (str "hi") = Ok (Some 1%nat) /\
  _nodes silent_graph !! 1%nat = Some (leaf [] no_bot) /\
  ReceiveMessageFromUser (S := stable_sort_model) (R := clock_random_model)
    0%nat (str "hi") 0 silent_graph = Undefined.
Proof. repeat split; vm_compute; reflexivity. Qed.

Section Clock.
Context {S : StdSort} {R : StdRandom}.

(** The answer to one message is the response drawn at the destination. *)
Lemma converse_one w h hn message t tn now :
  engine_at w h hn -> edges_fit hn ->
  destination hn message = Ok (Some t) -> _nodes w !! t = Some tn ->
  converse [(message, now)] w =
  do answer <- select_answer now (_answers tn); Ok [answer].
Proof.
  intros Hat Hfit Hdest Htn. cbn [converse].
  rewrite (SendMessageToChatbot_handle w h) by apply Hat.
  rewrite (ReceiveMessageFromUser_destination w h hn) by assumption.
  rewrite Hdest. cbn [bind].
  rewrite (MoveChatbotToNewNode_cases w h hn t tn) by (assumption || apply Hat).
  destruct (select_answer now (_answers tn)) as [answer| |]; [|reflexivity..].
  cbn [bind arrive _panelDialog]. rewrite drop_app_length. reflexivity.
Qed.

(** The response drawn is the one at the index the generator returns. *)
Lemma select_answer_draw now answers :
  1 <= size answers <= INT_MAX + 1 ->
  exists answer,
    select_answer now answers = Ok answer /\
    0 <= uniform_int (to_int now) 0 (size answers - 1) /\
    answers !! Z.to_nat (uniform_int (to_int now) 0 (size answers - 1)) = Some answer.
Proof.
  unfold size, INT_MAX. intros Hfit. unfold select_answer, size.
  assert (Hlast : to_int (to_size_t (Z.of_nat (length answers) - 1)) =
                  Z.of_nat (length answers) - 1).
  { rewrite to_size_t_small by (unfold SIZE_MODULUS; lia).
    apply to_int_small. unfold INT_MIN, INT_MAX. lia. }
  rewrite Hlast.
  pose proof (uniform_int_range (to_int now) 0 (Z.of_nat (length answers) - 1)
                ltac:(lia)) as Hr.
  destruct (Z.ltb_spec (Z.of_nat (length answers) - 1) 0) as [|_]; [lia|].
  unfold vector_at. rewrite to_size_t_small by (unfold SIZE_MODULUS; lia).
  destruct (lookup_lt_is_Some_2 answers
    (Z.to_nat (uniform_int (to_int now) 0 (Z.of_nat (length answers) - 1))) ltac:(lia))
    as [answer Ha].
  rewrite Ha. exists answer. split; [reflexivity|]. split; [lia|reflexivity].
Qed.

End Clock.

(** C2, as amended: the answers of a conversation are a function of the
    graph, the cursor, the root, the messages and the clock reading of
    each call ([SetCurrentNode] seeds a fresh generator from the clock).
    Two engines over the same graph and at the same cursor give the same
    answers to the same messages when the clock readings agree; and the
    clock does matter: when the responses of the destination are pairwise
    different, two readings that seed different first draws give different
    answers, as they do for "hi" on the greeting graph. *)
Theorem responses_determined_by_inputs_and_clock (S : StdSort) (R : StdRandom) :
  (forall (w1 w2 : ChatLogic) (inputs : list (cstring * Z)),
     same_engine w1 w2 -> converse inputs w1 = converse inputs w2) /\
  (forall w h hn message t tn now1 now2,
     engine_at w h hn -> edges_fit hn ->
     destination hn message = Ok (Some t) -> _nodes w !! t = Some tn ->
     answers_fit tn -> NoDup (_answers tn) ->
     uniform_int (to_int now1) 0 (size (_answers tn) - 1) <>
     uniform_int (to_int now2) 0 (size (_answers tn) - 1) ->
     converse [(message, now1)] w <> converse [(message, now2)] w) /\
  (forall now1 now2,
     uniform_int (to_int now1) 0 1 <> uniform_int (to_int now2) 0 1 ->
     converse [(str "hi", now1)] greeting_graph <>
     converse [(str "hi", now2)] greeting_graph).
Proof.
  assert (Hclock : forall w h hn message t tn now1 now2,
     engine_at w h hn -> edges_fit hn ->
     destination hn message = Ok (Some t) -> _nodes w !! t = Some tn ->
     answers_fit tn -> NoDup (_answers tn) ->
     uniform_int (to_int now1) 0 (size (_answers tn) - 1) <>
     uniform_int (to_int now2) 0 (size (_answers tn) - 1) ->
     converse [(message, now1)] w <> converse [(message, now2)] w).
  { intros w h hn message t tn now1 now2 Hat Hfit Hdest Htn Hans Hnodup Hdraw.
    rewrite !(converse_one w h hn message t tn) by assumption.
    destruct (select_answer_draw now1 (_answers tn) Hans) as (a1 & -> & Hr1 & Ha1).
    destruct (select_answer_draw now2 (_answers tn) Hans) as (a2 & -> & Hr2 & Ha2).
    cbn [bind]. intros [= <-]. apply Hdraw.
    pose proof (NoDup_lookup _ _ _ _ Hnodup Ha1 Ha2) as E.
    apply Z2Nat.inj in E; assumption. }
  split; [|split; [exact Hclock|]].
  - intros w1 w2 inputs. revert w1 w2.
    induction inputs as [|[message now] rest IH]; intros w1 w2 Hsame; [reflexivity|].
    cbn [converse].
    pose proof (SendMessageToChatbot_same w1 w2 message now Hsame) as Hstep.
    destruct (SendMessageToChatbot message now w1) as [a|e1|],
             (SendMessageToChatbot message now w2) as [b|e2|];
      cbn [same_outcome] in Hstep; try contradiction; cbn [bind];
      [|congruence|reflexivity].
    destruct Hstep as [Hab Hdrop]. rewrite (IH a b Hab), Hdrop. reflexivity.
  - intros now1 now2 Hdraw.
    rewrite !greeting_hi_answer, !select_answer_pair. cbn [bind].
    pose proof (uniform_int_range (to_int now1) 0 1 ltac:(lia)) as H1.
    pose proof (uniform_int_range (to_int now2) 0 1 ltac:(lia)) as H2.
    destruct (Z.eqb_spec (uniform_int (to_int now1) 0 1) 0),
             (Z.eqb_spec (uniform_int (to_int now2) 0 1) 0);
      try lia; discriminate.
Qed.

Lemma responses_determined_by_inputs_and_clock_witness :
  converse (S := gnu_sort_model) (R := gnu_random_model)
    [(str "hi", 0); (str "so long", 4); (str "hello", 9)] greeting_graph =
  converse (S := gnu_sort_model) (R := gnu_random_model)
    [(str "hi", 0); (str "so long", 4); (str "hello", 9)] greeting_graph_later /\
  converse (S := gnu_sort_model) (R := gnu_random_model) [(str "hi", 0)] greeting_graph <>
  converse (S := gnu_sort_model) (R := gnu_random_model) [(str "hi", 1)] greeting_graph.
Proof.
  split.
  - apply (proj1 (responses_determined_by_inputs_and_clock gnu_sort_model gnu_random_model)).
    exact greeting_graph_same_engine.
  - apply (proj1 (proj2 (responses_determined_by_inputs_and_clock
                           gnu_sort_model gnu_random_model))
             greeting_graph 0%nat greeting_root (str "hi") 1%nat
             (leaf [str "Hi there"; str "Hey"] no_bot) 0 1).
    + repeat split; reflexivity.
    + unfold edges_fit, size, INT_MAX. cbn. lia.
    + vm_compute. reflexivity.
    + reflexivity.
    + unfold answers_fit, size, INT_MAX. cbn. lia.
    + cbn [leaf _answers]. apply NoDup_cons. split.
      * intros H. apply list_elem_of_singleton in H. discriminate.
      * apply NoDup_singleton.
    + vm_compute. discriminate.
Defined.

(** C2, as stated, fails: the generator is not injected but seeded from the
    clock in every call; with [std::mt19937] and
    [std::uniform_int_distribution] as GNU libstdc++ implements them, the
    same engine and message give "Hey" at the clock reading 0 and
    "Hi there" at the clock reading 1. *)
Lemma responses_depend_on_clock :
  converse (S := gnu_sort_model) (R := gnu_random_model)
    [(str "hi", 0)] greeting_graph = Ok [str "Hey"] /\
  converse (S := gnu_sort_model) (R := gnu_random_model)
    [(str "hi", 1)] greeting_graph = Ok [str "Hi there"].
Proof. split; vm_compute; reflexivity. Qed.

(** ** Further properties *)

Lemma valid_ptr_arrive w root t tn answer p :
  valid_ptr w p -> valid_ptr (arrive w root t tn answer) p.
Proof.
  intros (a & -> & Ha). exists a. split; [reflexivity|].
  unfold arrive. cbn [_nodes]. apply lookup_lt_is_Some.
  rewrite length_insert. apply lookup_lt_is_Some, Ha.
Qed.

Lemma node_ok_arrive w root t tn answer n :
  node_ok w n -> node_ok (arrive w root t tn answer) n.
Proof.
  intros (He & Ha & Hp). repeat split; try apply He; try apply Ha.
  eapply Forall_impl; [exact Hp|]. intros e. apply valid_ptr_arrive.
Qed.

(** Well-formedness is an invariant of the traversal. *)
Lemma well_formed_arrive w h hn t tn answer :
  well_formed w -> engine_at w h hn -> _nodes w !! t = Some tn ->
  well_formed (arrive w (_rootNode (_chatBot hn)) t tn answer).
Proof.
  intros Hwf Hat Htn.
  assert (Hlt : (t < length (_nodes w))%nat) by (eapply lookup_lt_Some, Htn).
  pose proof (well_formed_node _ _ _ Hwf Htn) as (He & Ha & Hp).
  split.
  - unfold arrive at 2. cbn [_nodes]. apply Forall_insert.
    + eapply Forall_impl; [exact (proj1 Hwf)|]. intros n. apply node_ok_arrive.
    + repeat split; cbn [_childEdges _answers]; try apply He; try apply Ha.
      eapply Forall_impl; [exact Hp|]. intros e. apply valid_ptr_arrive.
  - eexists t, _. split.
    + unfold engine_at, arrive. cbn [_chatBotHandle _nodes].
      rewrite list_lookup_insert_eq by exact Hlt. repeat split; reflexivity.
    + cbn [_chatBot _rootNode]. apply valid_ptr_arrive.
      destruct Hwf as (_ & h' & hn' & Hat' & Hroot).
      destruct (engine_at_unique _ _ _ _ _ Hat Hat') as [_ ->]. exact Hroot.
Qed.

Section Progress.
Context {S : StdSort} {R : StdRandom}.

Lemma SendMessageToChatbot_well_formed w message now :
  well_formed w ->
  exists w' answer,
    SendMessageToChatbot message now w = Ok w' /\
    well_formed w' /\
    _panelDialog w' = _panelDialog w ++ [answer].
Proof.
  intros Hwf. destruct (proj2 Hwf) as (h & hn & Hat & _).
  rewrite (SendMessageToChatbot_handle w h) by apply Hat.
  destruct (all_pairs hn message) as [|p l] eqn:Hp.
  - destruct (step_leaf w h hn message now Hwf Hat Hp)
      as (a & tn & answer & _ & Htn & _ & ->).
    eexists _, answer. split; [reflexivity|].
    split; [apply (well_formed_arrive w h hn); assumption|reflexivity].
  - destruct (step_best w h hn message now Hwf Hat)
      as (best & a & tn & answer & _ & _ & _ & _ & Htn & _ & ->);
      [rewrite Hp; discriminate|].
    eexists _, answer. split; [reflexivity|].
    split; [apply (well_formed_arrive w h hn); assumption|reflexivity].
Qed.

End Progress.

(** X1: on a well-formed graph a conversation never gets stuck: every
    message is answered, with exactly one response handed to the panel. *)
Theorem conversation_never_stuck (S : StdSort) (R : StdRandom) w inputs :
  well_formed w ->
  exists answers, converse inputs w = Ok answers /\ length answers = length inputs.
Proof.
  revert w. induction inputs as [|[message now] rest IH]; intros w Hwf.
  - exists []. split; reflexivity.
  - cbn [converse].
    destruct (SendMessageToChatbot_well_formed w message now Hwf)
      as (w' & answer & -> & Hwf' & Hpanel).
    cbn [bind]. destruct (IH w' Hwf') as (later & -> & Hlen).
    cbn [bind]. eexists. split; [reflexivity|].
    rewrite Hpanel, drop_app_length. cbn [length app]. rewrite Hlen. reflexivity.
Qed.

Lemma conversation_never_stuck_witness :
  exists answers,
    converse (S := stable_sort_model) (R := clock_random_model)
      [(str "helo", 2); (str "bye", 3); (str "hi", 5)] greeting_graph = Ok answers /\
    length answers = length [(str "helo", 2); (str "bye", 3); (str "hi", 5)].
Proof.
  apply (conversation_never_stuck stable_sort_model clock_random_model).
  exact greeting_graph_well_formed.
Defined.

(** X2: the matcher is total: for any two strings every subscript of the
    cost row is in range and an [int] is returned. *)
Theorem matcher_never_fails s1 s2 :
  exists d, ComputeLevenshteinDistance s1 s2 = Ok d /\ INT_MIN <= d <= INT_MAX.
Proof.
  destruct (ComputeLevenshteinDistance_total s1 s2) as (d & Hd & Hrange).
  exists d. split; assumption.
Qed.

(** X3: for strings of at most [INT_MAX] characters the matcher is a
    distance: a string is at distance 0 from itself, and the triangle
    inequality holds. *)
Theorem matcher_identity_and_triangle a b c :
  size a <= INT_MAX -> size b <= INT_MAX -> size c <= INT_MAX ->
  ComputeLevenshteinDistance a a = Ok 0 /\
  exists dab dbc dac,
    ComputeLevenshteinDistance a b = Ok dab /\
    ComputeLevenshteinDistance b c = Ok dbc /\
    ComputeLevenshteinDistance a c = Ok dac /\
    dac <= dab + dbc.
Proof.
  intros Ha Hb Hc.
  rewrite !ComputeLevenshteinDistance_small by assumption.
  split; [rewrite lev_refl; reflexivity|].
  eexists _, _, _. repeat split.
  pose proof (lev_triangle (transform_toupper a) (transform_toupper b) (transform_toupper c)).
  lia.
Qed.

Lemma matcher_identity_and_triangle_witness :
  ComputeLevenshteinDistance (str "hi") (str "hi") = Ok 0 /\
  exists dab dbc dac,
    ComputeLevenshteinDistance (str "hi") (str "hello") = Ok dab /\
    ComputeLevenshteinDistance (str "hello") (str "helo") = Ok dbc /\
    ComputeLevenshteinDistance (str "hi") (str "helo") = Ok dac /\
    dac <= dab + dbc.
Proof.
  apply matcher_identity_and_triangle; unfold size, INT_MAX; cbn; lia.
Defined.

(** X4: edges are enumerated in the order [AddEdgeToChildNode] inserted
    them: an edge added to a node contributes its pairs, in the order of
    its keywords, after the pairs of the edges already there. *)
Theorem enumeration_in_insertion_order node edge message :
  edges_fit (AddEdgeToChildNode edge node) ->
  enumerate_pairs (AddEdgeToChildNode edge node) message =
  Ok (all_pairs node message ++ pairs_of message edge).
Proof.
  intros Hfit. rewrite enumerate_pairs_all by exact Hfit.
  unfold all_pairs, AddEdgeToChildNode. cbn [_childEdges].
  rewrite bind_app, bind_singleton. reflexivity.
Qed.

Lemma enumeration_in_insertion_order_witness :
  enumerate_pairs
    (AddEdgeToChildNode {| _keywords := [str "hey"; str "yo"]; _childNode := Some 1%nat |}
                        greeting_root) (str "helo") =
  Ok (all_pairs greeting_root (str "helo") ++
      pairs_of (str "helo") {| _keywords := [str "hey"; str "yo"]; _childNode := Some 1%nat |}).
Proof.
  apply enumeration_in_insertion_order. unfold edges_fit, size, INT_MAX. cbn. lia.
Defined.

(** * Object lifetime and further behaviour *)

(** ** More on the matcher *)

Section Separation.
Local Open Scope nat_scope.

Lemma lev_zero a : forall b, lev a b = 0 -> a = b.
Proof.
  induction a as [|x a IH]; intros b.
  - rewrite lev_nil_l. destruct b; [reflexivity|discriminate].
  - destruct b as [|y b]; [rewrite lev_nil_r; discriminate|].
    rewrite lev_cons_cons. destruct (Ascii.eqb_spec x y) as [->|_]; [|discriminate].
    intros H. f_equal. apply IH, H.
Qed.

Lemma lev_length_l a b : length a <= lev a b + length b.
Proof.
  pose proof (lev_triangle a b []) as H. rewrite !lev_nil_r in H. exact H.
Qed.

Lemma lev_length_r a b : length b <= lev a b + length a.
Proof. rewrite lev_sym. apply lev_length_l. Qed.

End Separation.

Lemma distance_zero a b :
  size a <= INT_MAX -> size b <= INT_MAX ->
  distance a b = 0 <-> same_modulo_case a b.
Proof.
  intros Ha Hb.
  pose proof (ComputeLevenshteinDistance_small a b Ha Hb) as Hs.
  rewrite ComputeLevenshteinDistance_distance in Hs. injection Hs as ->.
  rewrite same_modulo_case_toupper. split.
  - intros H. apply lev_zero. lia.
  - intros ->. rewrite lev_refl. reflexivity.
Qed.

Lemma distance_nonnegative a b :
  size a <= INT_MAX -> size b <= INT_MAX -> 0 <= distance a b.
Proof.
  intros Ha Hb.
  pose proof (ComputeLevenshteinDistance_small a b Ha Hb) as Hs.
  rewrite ComputeLevenshteinDistance_distance in Hs. injection Hs as ->. lia.
Qed.

(** X5: the matcher returns 0 exactly when the strings are equal up to the
    case of their letters. *)
Theorem matcher_zero_iff_equal_modulo_case a b :
  size a <= INT_MAX -> size b <= INT_MAX ->
  ComputeLevenshteinDistance a b = Ok 0 <-> same_modulo_case a b.
Proof.
  intros Ha Hb. rewrite ComputeLevenshteinDistance_small by assumption.
  rewrite same_modulo_case_toupper. split.
  - intros [= H]. apply lev_zero. lia.
  - intros ->. rewrite lev_refl. reflexivity.
Qed.

Lemma matcher_zero_iff_equal_modulo_case_witness :
  ComputeLevenshteinDistance (str "Hello") (str "hELLO") = Ok 0 <->
  same_modulo_case (str "Hello") (str "hELLO").
Proof.
  apply matcher_zero_iff_equal_modulo_case; unfold size, INT_MAX; cbn; lia.
Defined.

(** X6: the distance is at least the difference of the lengths. *)
Theorem matcher_at_least_length_difference a b :
  size a <= INT_MAX -> size b <= INT_MAX ->
  exists d, ComputeLevenshteinDistance a b = Ok d /\ Z.abs (size a - size b) <= d.
Proof.
  intros Ha Hb. rewrite ComputeLevenshteinDistance_small by assumption.
  eexists. split; [reflexivity|].
  pose proof (lev_length_l (transform_toupper a) (transform_toupper b)) as H1.
  pose proof (lev_length_r (transform_toupper a) (transform_toupper b)) as H2.
  rewrite !length_transform_toupper in H1, H2. unfold size. lia.
Qed.

Lemma matcher_at_least_length_difference_witness :
  exists d, ComputeLevenshteinDistance (str "hi") (str "hello") = Ok d /\
            Z.abs (size (str "hi") - size (str "hello")) <= d.
Proof.
  apply matcher_at_least_length_difference; unfold size, INT_MAX; cbn; lia.
Defined.

(** ** What a call leaves behind, on any graph *)

Lemma vector_at_elem {A} (v : list A) n x : vector_at v n = Ok x -> x ∈ v.
Proof.
  unfold vector_at. destruct (v !! _) as [y|] eqn:E; [|discriminate].
  intros [= <-]. eapply list_elem_of_lookup_2, E.
Qed.

Lemma select_answer_elem {R : StdRandom} now answers answer :
  select_answer now answers = Ok answer -> answer ∈ answers.
Proof.
  unfold select_answer. destruct (_ <? 0); [discriminate|]. apply vector_at_elem.
Qed.

(** The draw is an index of the response list: [answers.at] does not
    throw. *)
Lemma select_answer_no_throw {R : StdRandom} now answers e :
  select_answer now answers <> Throw e.
Proof.
  unfold select_answer.
  set (last := to_int (to_size_t (size answers - 1))).
  destruct (Z.ltb_spec last 0) as [|Hlast]; [discriminate|].
  pose proof (uniform_int_range (to_int now) 0 last Hlast) as Hr.
  assert (Hle : last <= size answers - 1).
  { destruct (Z.eq_dec (size answers) 0) as [E|NE].
    - exfalso. unfold last in Hlast. rewrite E in Hlast. vm_compute in Hlast.
      apply Hlast. reflexivity.
    - unfold last. unfold size in *.
      pose proof (to_size_t_le (Z.of_nat (length answers) - 1) ltac:(lia)).
      pose proof (to_size_t_range (Z.of_nat (length answers) - 1)).
      pose proof (to_int_le (to_size_t (Z.of_nat (length answers) - 1)) ltac:(lia)).
      lia. }
  pose proof (to_int_range (to_size_t (size answers - 1))) as Hi. fold last in Hi.
  unfold vector_at. rewrite to_size_t_small by (unfold SIZE_MODULUS, INT_MAX in *; lia).
  destruct (lookup_lt_is_Some_2 answers (Z.to_nat (uniform_int (to_int now) 0 last)))
    as [x ->]; [unfold size in Hle; lia|discriminate].
Qed.

(** The sorted list is as long as the list of pairs: [levDists.at(0)] does
    not throw. *)
Lemma select_new_node_ok {S : StdSort} bot levDists :
  exists newNode, select_new_node bot levDists = Ok newNode.
Proof.
  destruct levDists as [|p l]; [eexists; reflexivity|].
  destruct (select_new_node_best bot (p :: l) ltac:(discriminate)) as (best & _ & -> & _).
  eexists. reflexivity.
Qed.

Lemma edge_loop_no_throw node message e :
  forall remaining i levDists, edge_loop node remaining i message levDists <> Throw e.
Proof.
  induction remaining as [|r IH]; intros i acc; cbn [edge_loop]; [discriminate|].
  unfold GetChildEdgeAtIndex. destruct (_childEdges node !! _) as [edge|]; [|discriminate].
  cbn [bind]. rewrite keyword_loop_pairs. cbn [bind]. apply IH.
Qed.

Section Outcome.
Context {S : StdSort} {R : StdRandom}.

(** Every successful move ends in a state [arrive]. *)
Lemma MoveChatbotToNewNode_arrive w c newNode now w' :
  MoveChatbotToNewNode c newNode now w = Ok w' ->
  exists cn t tn answer,
    _nodes w !! c = Some cn /\ newNode = Some t /\ _nodes w !! t = Some tn /\
    answer ∈ _answers tn /\
    w' = arrive w (_rootNode (_chatBot cn)) t tn answer.
Proof.
  intros Hrun.
  destruct (_nodes w !! c) as [cn|] eqn:Hc.
  2:{ unfold MoveChatbotToNewNode, deref in Hrun. rewrite Hc in Hrun. discriminate. }
  destruct newNode as [t|].
  2:{ unfold MoveChatbotToNewNode, deref in Hrun. rewrite Hc in Hrun. discriminate. }
  destruct (_nodes w !! t) as [tn|] eqn:Ht.
  2:{ unfold MoveChatbotToNewNode, MoveChatbotHere, deref in Hrun.
      rewrite Hc in Hrun. cbn [bind] in Hrun. rewrite Ht in Hrun. discriminate. }
  rewrite (MoveChatbotToNewNode_cases w c cn t tn now Hc Ht) in Hrun.
  destruct (select_answer now (_answers tn)) as [answer| |] eqn:Hsel; try discriminate.
  injection Hrun as <-.
  exists cn, t, tn, answer.
  split; [reflexivity|]. split; [reflexivity|]. split; [exact Ht|].
  split; [eapply select_answer_elem, Hsel|reflexivity].
Qed.

Lemma MoveChatbotToNewNode_no_throw w c newNode now e :
  MoveChatbotToNewNode c newNode now w <> Throw e.
Proof.
  destruct (_nodes w !! c) as [cn|] eqn:Hc.
  2:{ unfold MoveChatbotToNewNode, deref. rewrite Hc. discriminate. }
  destruct newNode as [t|].
  2:{ unfold MoveChatbotToNewNode, deref. rewrite Hc. discriminate. }
  destruct (_nodes w !! t) as [tn|] eqn:Ht.
  2:{ unfold MoveChatbotToNewNode, MoveChatbotHere, deref.
      rewrite Hc. cbn [bind]. rewrite Ht. discriminate. }
  rewrite (MoveChatbotToNewNode_cases w c cn t tn now Hc Ht).
  pose proof (select_answer_no_throw now (_answers tn) e).
  destruct (select_answer now (_answers tn)); cbn [bind]; congruence.
Qed.

Lemma ReceiveMessageFromUser_inv w h message now w' :
  ReceiveMessageFromUser h message now w = Ok w' ->
  exists c newNode, MoveChatbotToNewNode c newNode now w = Ok w'.
Proof.
  unfold ReceiveMessageFromUser. intros Hrun.
  destruct (deref w (Some h)) as [holder| |]; try discriminate. cbn [bind] in Hrun.
  destruct (deref w (_currentNode (_chatBot holder))) as [current| |]; try discriminate.
  cbn [bind] in Hrun.
  destruct (enumerate_pairs current message) as [levDists| |]; try discriminate.
  cbn [bind] in Hrun.
  destruct (select_new_node (_chatBot holder) levDists) as [newNode| |]; try discriminate.
  cbn [bind] in Hrun.
  destruct (_currentNode (_chatBot holder)) as [c|]; [|discriminate].
  eauto.
Qed.

Lemma ReceiveMessageFromUser_no_throw w h message now e :
  ReceiveMessageFromUser h message now w <> Throw e.
Proof.
  unfold ReceiveMessageFromUser.
  destruct (deref w (Some h)) as [holder|e'|] eqn:Hh; try discriminate.
  2:{ unfold deref in Hh. destruct (_nodes w !! h); discriminate. }
  cbn [bind].
  destruct (deref w (_currentNode (_chatBot holder))) as [current|e'|] eqn:Hc;
    try discriminate.
  2:{ unfold deref in Hc. destruct (_currentNode (_chatBot holder)) as [c|]; [|discriminate].
      destruct (_nodes w !! c); discriminate. }
  cbn [bind].
  pose proof (edge_loop_no_throw current message e (length (_childEdges current)) 0 [])
    as Henum. fold (enumerate_pairs current message) in Henum.
  destruct (enumerate_pairs current message) as [levDists| |]; cbn [bind];
    try congruence.
  destruct (select_new_node_ok (_chatBot holder) levDists) as [newNode ->]. cbn [bind].
  destruct (_currentNode (_chatBot holder)) as [c|]; [|discriminate].
  apply MoveChatbotToNewNode_no_throw.
Qed.
End Outcome.

Lemma graph_of_arrive w root t tn answer :
  _nodes w !! t = Some tn -> graph_of (arrive w root t tn answer) = graph_of w.
Proof.
  intros Ht. unfold graph_of, arrive. cbn [_nodes].
  rewrite list_fmap_insert. cbn [_childEdges _answers].
  apply list_insert_id. rewrite list_lookup_fmap, Ht. reflexivity.
Qed.

(** X7: a successful call changes nothing but the chatbot of the node it
    moves to, the handle of the chat logic and the panel: the graph is the
    same, every other node keeps the chatbot it holds (the node left behind
    too), exactly one answer of the node arrived at is handed to the panel,
    and the chat logic points at the chatbot of that node, whose cursor is
    that node. *)
Theorem call_only_moves_the_chatbot (S : StdSort) (R : StdRandom) w message now w' :
  SendMessageToChatbot message now w = Ok w' ->
  graph_of w' = graph_of w /\
  exists t tn answer,
    _nodes w !! t = Some tn /\ answer ∈ _answers tn /\
    _panelDialog w' = _panelDialog w ++ [answer] /\
    _chatBotHandle w' = Some t /\ currentNode w' = Some t /\
    forall a, a <> t -> _nodes w' !! a = _nodes w !! a.
Proof.
  unfold SendMessageToChatbot. intros Hrun.
  destruct (_chatBotHandle w) as [h|]; [|discriminate].
  apply ReceiveMessageFromUser_inv in Hrun as (c & newNode & Hrun).
  apply MoveChatbotToNewNode_arrive in Hrun as (cn & t & tn & answer & _ & _ & Ht & Hin & ->).
  split; [apply graph_of_arrive, Ht|].
  exists t, tn, answer. split; [exact Ht|]. split; [exact Hin|].
  split; [reflexivity|]. split; [reflexivity|]. split.
  - apply currentNode_arrive. eapply lookup_lt_Some, Ht.
  - intros a Ha. unfold arrive. cbn [_nodes]. apply list_lookup_insert_ne. congruence.
Qed.

Lemma call_only_moves_the_chatbot_witness :
  exists w',
    SendMessageToChatbot (S := stable_sort_model) (R := clock_random_model)
      (str "helo") 1 greeting_graph = Ok w' /\
    graph_of w' = graph_of greeting_graph /\
    exists t tn answer,
      _nodes greeting_graph !! t = Some tn /\ answer ∈ _answers tn /\
      _panelDialog w' = _panelDialog greeting_graph ++ [answer] /\
      _chatBotHandle w' = Some t /\ currentNode w' = Some t /\
      forall a, a <> t -> _nodes w' !! a = _nodes greeting_graph !! a.
Proof.
  eexists. split; [vm_compute; reflexivity|].
  apply (call_only_moves_the_chatbot stable_sort_model clock_random_model
           greeting_graph (str "helo") 1).
  vm_compute. reflexivity.
Defined.

(** X8: neither bounds-checked access can fail: [levDists.at(0)] is reached
    on a non-empty list only, and the index drawn for [answers.at] lies in
    the response list. A call returns or is undefined; it never throws. *)
Theorem call_never_throws (S : StdSort) (R : StdRandom) w message now :
  SendMessageToChatbot message now w = Undefined \/
  exists w', SendMessageToChatbot message now w = Ok w'.
Proof.
  unfold SendMessageToChatbot. destruct (_chatBotHandle w) as [h|]; [|left; reflexivity].
  pose proof (fun e => ReceiveMessageFromUser_no_throw w h message now e) as H.
  destruct (ReceiveMessageFromUser h message now w) as [w'|e|]; [right; eauto| |left; reflexivity].
  exfalso. apply (H e). reflexivity.
Qed.

(** X9: a message that is a keyword of an outgoing edge, up to case, is at
    distance 0 from it, and no keyword that differs from the message is: the
    chatbot moves along an edge that carries the message as a keyword. *)
Theorem exact_keyword_match_wins (S : StdSort) (R : StdRandom) w message now h hn :
  engine_at w h hn -> edges_fit hn ->
  size message <= INT_MAX ->
  (forall e keyword, e ∈ _childEdges hn -> keyword ∈ _keywords e -> size keyword <= INT_MAX) ->
  (exists e keyword,
     e ∈ _childEdges hn /\ keyword ∈ _keywords e /\ same_modulo_case keyword message) ->
  exists e keyword,
    e ∈ _childEdges hn /\ keyword ∈ _keywords e /\ same_modulo_case keyword message /\
    ReceiveMessageFromUser h message now w = MoveChatbotToNewNode h (_childNode e) now w.
Proof.
  intros Hat Hfit Hm Hk (e0 & kw0 & He0 & Hkw0 & Hsame).
  assert (Hne : all_pairs hn message <> []).
  { apply all_pairs_nonempty. exists e0. split; [exact He0|].
    intros E. rewrite E in Hkw0. inversion Hkw0. }
  destruct (select_new_node_best (_chatBot hn) _ Hne) as ([e d] & _ & Hsel & Hin & Hmin).
  pose proof Hin as Hbest. apply all_pairs_elem in Hin as (He & kw & Hkw & ->).
  exists e, kw. split; [exact He|]. split; [exact Hkw|]. split.
  - apply (proj1 (distance_zero kw message (Hk e kw He Hkw) Hm)).
    pose proof (proj2 (distance_zero kw0 message (Hk e0 kw0 He0 Hkw0) Hm) Hsame) as H0.
    specialize (Hmin (e0, distance kw0 message)). cbn [snd] in Hmin.
    rewrite H0 in Hmin.
    pose proof (distance_nonnegative kw message ltac:(eapply Hk; eassumption) Hm).
    enough (distance kw message <= 0) by lia.
    apply Hmin. apply all_pairs_elem. eauto.
  - rewrite (ReceiveMessageFromUser_destination w h hn) by assumption.
    unfold destination. rewrite Hsel. reflexivity.
Qed.

Lemma exact_keyword_match_wins_witness :
  exists e keyword,
    e ∈ _childEdges greeting_root /\ keyword ∈ _keywords e /\
    same_modulo_case keyword (str "HELLO") /\
    ReceiveMessageFromUser (S := stable_sort_model) (R := clock_random_model)
      0%nat (str "HELLO") 0 greeting_graph =
    MoveChatbotToNewNode (R := clock_random_model) 0%nat (_childNode e) 0 greeting_graph.
Proof.
  apply (exact_keyword_match_wins stable_sort_model clock_random_model
           greeting_graph (str "HELLO") 0 0%nat greeting_root).
  - repeat split; reflexivity.
  - unfold edges_fit, size, INT_MAX. cbn. lia.
  - unfold size, INT_MAX. cbn. lia.
  - intros e keyword He Hk. cbn in He.
    repeat (apply elem_of_cons in He as [->|He]);
      [| |inversion He]; cbn in Hk;
      apply list_elem_of_singleton in Hk as ->; unfold size, INT_MAX; cbn; lia.
  - exists {| _keywords := [str "hello"]; _childNode := Some 2%nat |}, (str "hello").
    split; [right; left|]. split; [left|]. repeat constructor.
Defined.

(** X10: no check is made of the node selected: when the target of the
    selected edge, or at a leaf the root of the chatbot, is null or not a
    node of the graph, the call is undefined. *)
Theorem missing_destination_is_undefined (S : StdSort) (R : StdRandom)
    w message now h hn p :
  engine_at w h hn -> edges_fit hn ->
  destination hn message = Ok p ->
  deref w p = Undefined ->
  ReceiveMessageFromUser h message now w = Undefined.
Proof.
  intros Hat Hfit Hdest Hp.
  rewrite (ReceiveMessageFromUser_destination w h hn) by assumption.
  rewrite Hdest. cbn [bind].
  unfold MoveChatbotToNewNode. destruct Hat as (_ & Hn & _).
  unfold deref at 1. rewrite Hn. cbn [bind].
  destruct p as [t|]; [|reflexivity].
  unfold MoveChatbotHere. rewrite Hp. reflexivity.
Qed.

Lemma missing_destination_is_undefined_witness :
  ReceiveMessageFromUser (S := stable_sort_model) (R := clock_random_model)
    0%nat (str "hi") 0 rootless_graph = Undefined.
Proof.
  apply (missing_destination_is_undefined stable_sort_model clock_random_model
           rootless_graph (str "hi") 0 0%nat rootless_leaf None).
  - split; [reflexivity|]. split; reflexivity.
  - unfold edges_fit, size, INT_MAX. cbn. lia.
  - reflexivity.
  - reflexivity.
Defined.

(** ** The child-edge accessor *)

Lemma to_size_t_negative z : - SIZE_MODULUS <= z < 0 -> to_size_t z = z + SIZE_MODULUS.
Proof.
  intros H. unfold to_size_t.
  rewrite <- (Z.mod_add z 1 SIZE_MODULUS) by (unfold SIZE_MODULUS; lia).
  rewrite Z.mul_1_l. apply Z.mod_small. lia.
Qed.

(** X11: the subscript of the accessor is unchecked. For an [int] index it
    returns the edge at that position when the index is at least 0 and below
    the edge count, and is undefined for every other index, negative ones
    included. *)
Theorem child_edge_accessor_is_unchecked node index :
  size (_childEdges node) <= PTRDIFF_MAX ->
  INT_MIN <= index <= INT_MAX ->
  (0 <= index < GetNumberOfChildEdges node ->
   exists e, _childEdges node !! Z.to_nat index = Some e /\
             GetChildEdgeAtIndex node index = Ok e) /\
  (index < 0 \/ GetNumberOfChildEdges node <= index ->
   GetChildEdgeAtIndex node index = Undefined).
Proof.
  unfold GetNumberOfChildEdges, size, PTRDIFF_MAX, INT_MIN, INT_MAX, GetChildEdgeAtIndex.
  intros Hsize Hint. split.
  - intros Hin. rewrite to_size_t_small by (unfold SIZE_MODULUS; lia).
    destruct (lookup_lt_is_Some_2 (_childEdges node) (Z.to_nat index) ltac:(lia)) as [e He].
    rewrite He. eauto.
  - intros [Hneg|Hbig].
    + rewrite to_size_t_negative by (unfold SIZE_MODULUS; lia).
      rewrite lookup_ge_None_2; [reflexivity|]. unfold SIZE_MODULUS. lia.
    + rewrite to_size_t_small by (unfold SIZE_MODULUS; lia).
      rewrite lookup_ge_None_2; [reflexivity|]. lia.
Qed.

Lemma child_edge_accessor_is_unchecked_witness :
  (0 <= -1 < GetNumberOfChildEdges greeting_root ->
   exists e, _childEdges greeting_root !! Z.to_nat (-1) = Some e /\
             GetChildEdgeAtIndex greeting_root (-1) = Ok e) /\
  (-1 < 0 \/ GetNumberOfChildEdges greeting_root <= -1 ->
   GetChildEdgeAtIndex greeting_root (-1) = Undefined).
Proof.
  apply child_edge_accessor_is_unchecked;
    unfold size, PTRDIFF_MAX, INT_MIN, INT_MAX; cbn; lia.
Defined.

(** X12: an edge added to a node is its last child edge: the edge count
    grows by one, the accessor returns the new edge at the old count and the
    old edges at their old indices, and the answers and the chatbot of the
    node are untouched. *)
Theorem added_edge_is_the_last_child node edge :
  size (_childEdges node) <= INT_MAX ->
  GetNumberOfChildEdges (AddEdgeToChildNode edge node) = GetNumberOfChildEdges node + 1 /\
  GetChildEdgeAtIndex (AddEdgeToChildNode edge node) (GetNumberOfChildEdges node) = Ok edge /\
  (forall index,
     0 <= index < GetNumberOfChildEdges node ->
     GetChildEdgeAtIndex (AddEdgeToChildNode edge node) index =
     GetChildEdgeAtIndex node index) /\
  _answers (AddEdgeToChildNode edge node) = _answers node /\
  _chatBot (AddEdgeToChildNode edge node) = _chatBot node.
Proof.
  unfold GetNumberOfChildEdges, size, INT_MAX, GetChildEdgeAtIndex, AddEdgeToChildNode.
  cbn [_childEdges _answers _chatBot]. intros Hsize.
  split; [rewrite length_app; cbn [length]; lia|].
  split.
  { rewrite to_size_t_small by (unfold SIZE_MODULUS; lia).
    rewrite Nat2Z.id, lookup_app_r by lia. rewrite Nat.sub_diag. reflexivity. }
  split; [|split; reflexivity].
  intros index Hin. rewrite to_size_t_small by (unfold SIZE_MODULUS; lia).
  rewrite lookup_app_l by lia. reflexivity.
Qed.

Lemma added_edge_is_the_last_child_witness :
  GetNumberOfChildEdges
    (AddEdgeToChildNode {| _keywords := [str "hey"]; _childNode := Some 1%nat |} greeting_root)
    = GetNumberOfChildEdges greeting_root + 1 /\
  GetChildEdgeAtIndex
    (AddEdgeToChildNode {| _keywords := [str "hey"]; _childNode := Some 1%nat |} greeting_root)
    (GetNumberOfChildEdges greeting_root)
    = Ok {| _keywords := [str "hey"]; _childNode := Some 1%nat |} /\
  (forall index,
     0 <= index < GetNumberOfChildEdges greeting_root ->
     GetChildEdgeAtIndex
       (AddEdgeToChildNode {| _keywords := [str "hey"]; _childNode := Some 1%nat |}
          greeting_root) index =
     GetChildEdgeAtIndex greeting_root index) /\
  _answers (AddEdgeToChildNode {| _keywords := [str "hey"]; _childNode := Some 1%nat |}
              greeting_root) = _answers greeting_root /\
  _chatBot (AddEdgeToChildNode {| _keywords := [str "hey"]; _childNode := Some 1%nat |}
              greeting_root) = _chatBot greeting_root.
Proof.
  apply added_edge_is_the_last_child. unfold size, INT_MAX. cbn. lia.
Defined.

(** ** Ownership of the images *)

(** A successful step of a sequence: the first call returned. *)
Lemma bind_Ok_inv {A B} (r : result A) (k : A -> result B) b :
  bind r k = Ok b -> exists a, r = Ok a /\ k a = Ok b.
Proof. destruct r as [a| |]; cbn; try discriminate. eauto. Qed.

Section Ownership.
Import Objects.

Lemma ownership_ext O O' L L' :
  (forall this, O' this = O this) -> (forall image, L' image <-> L image) ->
  ownership O L -> ownership O' L'.
Proof.
  intros HO HL (H1 & H2 & H3). split; [|split].
  - intros this image. rewrite HO, HL. apply H1.
  - intros this other image. rewrite !HO. apply H2.
  - intros image. rewrite HL. intros H. destruct (H3 _ H) as [this Ht].
    exists this. rewrite HO. exact Ht.
Qed.

(** A chatbot without an image takes a fresh one. *)
Lemma ownership_alloc O L this image :
  ownership O L -> O this = None -> ~ L image ->
  ownership (update O this (Some image)) (fun b => L b \/ b = image).
Proof.
  intros (H1 & H2 & H3) Hthis Hfresh. unfold update. split; [|split].
  - intros t a. destruct (decide (t = this)); [intros [= <-]; right; reflexivity|].
    intros H. left. eapply H1, H.
  - intros t u a. destruct (decide (t = this)) as [->|], (decide (u = this)) as [->|];
      try reflexivity.
    + intros [= <-] H. exfalso. eapply Hfresh, H1, H.
    + intros H [= <-]. exfalso. eapply Hfresh, H1, H.
    + apply H2.
  - intros a [Ha| ->].
    + destruct (H3 _ Ha) as [t Ht]. exists t.
      destruct (decide (t = this)) as [->|]; [congruence|exact Ht].
    + exists this. destruct (decide (this = this)); [reflexivity|contradiction].
Qed.

(** A chatbot gives up its image, if it holds one, and the image is
    deleted. *)
Lemma ownership_free O L this :
  ownership O L ->
  ownership (update O this None) (fun b => L b /\ O this <> Some b).
Proof.
  intros (H1 & H2 & H3). unfold update. split; [|split].
  - intros t a. destruct (decide (t = this)); [discriminate|].
    intros H. split; [eapply H1, H|]. intros Hthis. apply n. eapply H2; eassumption.
  - intros t u a. destruct (decide (t = this)), (decide (u = this)); try discriminate.
    apply H2.
  - intros a [Ha Hne]. destruct (H3 _ Ha) as [t Ht]. exists t.
    destruct (decide (t = this)) as [->|]; [congruence|exact Ht].
Qed.

(** A chatbot without an image takes over what another one holds. *)
Lemma ownership_transfer O L source this :
  ownership O L -> this <> source -> O this = None ->
  ownership (update (update O this (O source)) source None) L.
Proof.
  intros (H1 & H2 & H3) Hne Hthis. unfold update. split; [|split].
  - intros t a. destruct (decide (t = source)); [discriminate|].
    destruct (decide (t = this)); apply H1.
  - intros t u a.
    destruct (decide (t = source)), (decide (u = source)); try discriminate.
    destruct (decide (t = this)) as [->|], (decide (u = this)) as [->|]; try reflexivity.
    + intros Hs Hu. exfalso. apply n0. eapply H2; eassumption.
    + intros Ht Hs. exfalso. apply n. eapply H2; eassumption.
    + apply H2.
  - intros a Ha. destruct (H3 _ Ha) as [t Ht].
    destruct (decide (t = source)) as [->|Hts].
    + exists this. destruct (decide (this = source)); [contradiction|].
      destruct (decide (this = this)); [exact Ht|contradiction].
    + exists t. destruct (decide (t = source)); [contradiction|].
      destruct (decide (t = this)) as [->|]; [congruence|exact Ht].
Qed.

Lemma exclusive_ownership_ownership p :
  exclusive_ownership p <-> ownership (image_of p) (live p).
Proof. reflexivity. Qed.

(** *** The chatbots of a process *)

Lemma get_same p q this :
  _nodes p = _nodes q -> stack p = stack q -> get this p = get this q.
Proof. unfold get. intros -> ->. reflexivity. Qed.

Lemma image_of_same p q this :
  _nodes p = _nodes q -> stack p = stack q -> image_of p this = image_of q this.
Proof. unfold image_of. intros Hn Hs. rewrite (get_same p q) by assumption. reflexivity. Qed.

Lemma live_same p q image : free_store p = free_store q -> live p image <-> live q image.
Proof. unfold live. intros ->. reflexivity. Qed.

Lemma get_print this line p : get this (print line p) = get this p.
Proof. reflexivity. Qed.

Lemma get_with_free_store this store p : get this (with_free_store store p) = get this p.
Proof. reflexivity. Qed.

Lemma get_SetChatbotHandle this chatbot p : get this (SetChatbotHandle chatbot p) = get this p.
Proof. reflexivity. Qed.

Lemma get_SendMessageToUser this message p :
  get this (SendMessageToUser message p) = get this p.
Proof. reflexivity. Qed.

Lemma free_store_put this bot p : free_store (put this bot p) = free_store p.
Proof. destruct this; reflexivity. Qed.

Lemma panel_put this bot p : _panelDialog (put this bot p) = _panelDialog p.
Proof. destruct this; reflexivity. Qed.

Lemma handle_put this bot p : _chatBotHandle (put this bot p) = _chatBotHandle p.
Proof. destruct this; reflexivity. Qed.

Lemma cout_put this bot p : cout (put this bot p) = cout p.
Proof. destruct this; reflexivity. Qed.

Lemma get_put_eq this bot p old :
  get this p = Ok old -> get this (put this bot p) = Ok bot.
Proof.
  destruct this as [a|k]; cbn.
  - destruct (_nodes p !! a) as [n|] eqn:E; [|discriminate]. intros _.
    rewrite list_lookup_alter_eq, E. reflexivity.
  - destruct (stack p !! k) as [b|] eqn:E; [|discriminate]. intros _.
    rewrite list_lookup_insert_eq by (eapply lookup_lt_Some, E). reflexivity.
Qed.

Lemma get_put_ne this other bot p :
  other <> this -> get other (put this bot p) = get other p.
Proof.
  intros Hne. destruct this as [a|k], other as [b|j]; cbn; try reflexivity.
  - rewrite list_lookup_alter_ne by congruence. reflexivity.
  - rewrite list_lookup_insert_ne by congruence. reflexivity.
Qed.

Lemma get_no_throw this p e : get this p <> Throw e.
Proof.
  destruct this as [a|k]; cbn; [destruct (_nodes p !! a)|destruct (stack p !! k)];
    discriminate.
Qed.

Lemma image_of_put this bot p old other :
  get this p = Ok old ->
  image_of (put this bot p) other = update (image_of p) this (_image bot) other.
Proof.
  intros Hget. unfold image_of, update. destruct (decide (other = this)) as [->|Hne].
  - rewrite (get_put_eq _ _ _ _ Hget). reflexivity.
  - rewrite get_put_ne by exact Hne. reflexivity.
Qed.

Lemma get_top p : get (top p) p = Undefined.
Proof. unfold top. cbn. rewrite lookup_ge_None_2 by lia. reflexivity. Qed.

Lemma image_of_top p : image_of p (top p) = None.
Proof. unfold image_of. rewrite get_top. reflexivity. Qed.

Lemma get_declare_top bot p : get (top p) (declare bot p) = Ok bot.
Proof.
  unfold top, declare. cbn. rewrite lookup_app_r by lia.
  rewrite Nat.sub_diag. reflexivity.
Qed.

Lemma get_declare_ne bot p other :
  other <> top p -> get other (declare bot p) = get other p.
Proof.
  unfold top, declare. intros Hne. destruct other as [a|k]; cbn; [reflexivity|].
  destruct (decide (k < length (stack p))%nat) as [Hlt|Hge].
  - rewrite lookup_app_l by exact Hlt. reflexivity.
  - rewrite !lookup_ge_None_2; [reflexivity|lia|].
    rewrite length_app. cbn. assert (k <> length (stack p)) by congruence. lia.
Qed.

Lemma image_of_declare bot p other :
  image_of (declare bot p) other = update (image_of p) (top p) (_image bot) other.
Proof.
  unfold image_of, update. destruct (decide (other = top p)) as [->|Hne].
  - rewrite get_declare_top. reflexivity.
  - rewrite get_declare_ne by exact Hne. reflexivity.
Qed.

(** Releasing the storage of a chatbot that holds no image takes no image
    from any chatbot. *)
Lemma image_of_release p objects bot other :
  stack p = objects ++ [bot] -> _image bot = None ->
  image_of (release p) other = image_of p other.
Proof.
  intros Hs Hnull. unfold image_of, release. destruct other as [a|k]; cbn; [reflexivity|].
  rewrite Hs, length_app. cbn [length].
  replace (length objects + 1 - 1)%nat with (length objects) by lia.
  rewrite take_app_length.
  destruct (decide (k < length objects)%nat) as [Hlt|Hge].
  - rewrite lookup_app_l by exact Hlt. reflexivity.
  - rewrite (lookup_ge_None_2 objects) by lia.
    destruct (decide (k = length objects)) as [->|Hne].
    + rewrite lookup_app_r by lia. rewrite Nat.sub_diag. cbn. symmetry. exact Hnull.
    + rewrite lookup_ge_None_2; [reflexivity|]. rewrite length_app. cbn. lia.
Qed.

(** *** The images of a process *)

Lemma live_lt p image : live p image -> (image < length (free_store p))%nat.
Proof. intros [bitmap H]. eapply lookup_lt_Some, H. Qed.

Lemma live_new bitmap p image :
  live (new bitmap p).2 image <-> live p image \/ image = (new bitmap p).1.
Proof.
  unfold live, new. cbn. split.
  - intros [b Hb]. apply lookup_app_Some in Hb as [Hb|[Hge Hb]]; [left; eauto|right].
    destruct (image - length (free_store p))%nat as [|k] eqn:E; [lia|].
    cbn in Hb. discriminate.
  - intros [[b Hb]| ->].
    + exists b. apply lookup_app_l_Some, Hb.
    + exists bitmap. rewrite lookup_app_r by lia. rewrite Nat.sub_diag. reflexivity.
Qed.

Lemma delete_inv image p p' :
  delete image p = Ok p' ->
  live p image /\ p' = with_free_store (<[image := None]> (free_store p)) p.
Proof.
  unfold delete, live. destruct (free_store p !! image) as [[bitmap|]|]; try discriminate.
  intros [= <-]. eauto.
Qed.

Lemma live_delete image p b :
  live (with_free_store (<[image := None]> (free_store p)) p) b <-> live p b /\ b <> image.
Proof.
  unfold live. cbn. split.
  - intros [bitmap H]. apply list_lookup_insert_Some in H as [(_ & [=] & _)|[Hne H]].
    split; [eauto|congruence].
  - intros [[bitmap H] Hne]. exists bitmap.
    rewrite list_lookup_insert_ne by congruence. exact H.
Qed.

Lemma assign_bitmap_inv image bitmap p p' :
  assign_bitmap image bitmap p = Ok p' ->
  live p image /\ p' = with_free_store (<[image := Some bitmap]> (free_store p)) p.
Proof.
  unfold assign_bitmap, live.
  destruct (free_store p !! image) as [[old|]|]; try discriminate.
  intros [= <-]. eauto.
Qed.

Lemma live_assign image bitmap p b :
  live p image ->
  live (with_free_store (<[image := Some bitmap]> (free_store p)) p) b <-> live p b.
Proof.
  unfold live. cbn. intros [old Hold]. split.
  - intros [x H]. apply list_lookup_insert_Some in H as [(-> & _ & _)|[_ H]]; eauto.
  - intros [x H]. destruct (decide (image = b)) as [->|Hne].
    + exists bitmap. apply list_lookup_insert_eq. eapply lookup_lt_Some, H.
    + exists x. rewrite list_lookup_insert_ne by exact Hne. exact H.
Qed.

Lemma bitmap_at_inv image p bitmap :
  bitmap_at image p = Ok bitmap ->
  exists a, image = Some a /\ free_store p !! a = Some (Some bitmap).
Proof.
  unfold bitmap_at. destruct image as [a|]; [|discriminate].
  destruct (free_store p !! a) as [[b|]|] eqn:E; try discriminate.
  intros [= <-]. eauto.
Qed.

Lemma rvalue_inv {A} (v : value A) a : rvalue v = Ok a -> v = determinate a.
Proof. destruct v; cbn; [discriminate|]. intros [= <-]. reflexivity. Qed.

Lemma arrow_inv logic u : arrow logic = Ok u -> logic = Some u.
Proof. destruct logic; cbn; [|discriminate]. intros [= <-]. reflexivity. Qed.

(** *** The special member functions keep the policy *)

Lemma ChatBot_from_file_ownership filename p :
  exclusive_ownership p -> exclusive_ownership (ChatBot_from_file filename p).
Proof.
  intros Hinv. unfold ChatBot_from_file, new. cbn.
  eapply ownership_ext; [..|apply (ownership_alloc _ _ (top p) (length (free_store p)) Hinv)].
  - intros this. rewrite image_of_declare. cbn [_image]. unfold update.
    destruct (decide _); [reflexivity|]. apply image_of_same; reflexivity.
  - intros image. cbn beta.
    rewrite <- (live_new (wxBitmap_png filename) p image). apply live_same. reflexivity.
  - apply image_of_top.
  - intros H. apply live_lt in H. lia.
Qed.

Lemma destructor_inv this p p' :
  destructor this p = Ok p' ->
  exists bot,
    get this p = Ok bot /\
    match _image bot with
    | Some image =>
        live p image /\
        p' = put this {| _image := None; _currentNode := _currentNode bot;
                         _rootNode := _rootNode bot; _chatLogic := _chatLogic bot |}
               (with_free_store (<[image := None]> (free_store p))
                  (print (Destructor_line this) p))
    | None => p' = print (Destructor_line this) p
    end.
Proof.
  unfold destructor. intros H. apply bind_Ok_inv in H as (bot & Hget & H).
  rewrite (get_same _ p) in Hget by reflexivity. exists bot. split; [exact Hget|].
  destruct (_image bot) as [image|]; [|congruence].
  apply bind_Ok_inv in H as (p1 & Hdel & [= <-]).
  apply delete_inv in Hdel as [Hlive ->]. split; [exact Hlive|reflexivity].
Qed.

Lemma destructor_ownership this p p' :
  exclusive_ownership p -> destructor this p = Ok p' ->
  exclusive_ownership p' /\ image_of p' this = None.
Proof.
  intros Hinv H. apply destructor_inv in H as (bot & Hget & H).
  destruct (_image bot) as [image|] eqn:Himg.
  - destruct H as [Hlive ->].
    assert (Hown : image_of p this = Some image) by (unfold image_of; rewrite Hget; exact Himg).
    split.
    + eapply ownership_ext; [..|apply (ownership_free _ _ this Hinv)].
      * intros other. erewrite image_of_put by (erewrite get_same; [exact Hget|reflexivity..]).
        cbn [_image]. unfold update. destruct (decide _); [reflexivity|].
        apply image_of_same; reflexivity.
      * intros b. cbn beta. rewrite Hown.
        rewrite (live_same _ (with_free_store (<[image := None]> (free_store p)) p))
          by (rewrite free_store_put; reflexivity).
        rewrite live_delete. split; intros [? ?]; split; congruence.
    + erewrite image_of_put by (erewrite get_same; [exact Hget|reflexivity..]).
      unfold update. destruct (decide (this = this)); [reflexivity|contradiction].
  - subst p'. split.
    + eapply ownership_ext; [..|exact Hinv].
      * intros other. apply image_of_same; reflexivity.
      * intros b. apply live_same. reflexivity.
    + rewrite (image_of_same _ p) by reflexivity.
      unfold image_of. rewrite Hget. exact Himg.
Qed.

Lemma length_released image store : length (released image store) = length store.
Proof. destruct image; cbn; [apply length_insert|reflexivity]. Qed.

Lemma delete_if_not_null_inv image p p' :
  delete_if_not_null image p = Ok p' ->
  (forall a, image = Some a -> live p a) /\
  p' = with_free_store (released image (free_store p)) p.
Proof.
  destruct image as [a|]; cbn.
  - intros H. apply delete_inv in H as [Hlive ->]. split; [|reflexivity].
    intros ? [= <-]. exact Hlive.
  - intros [= <-]. split; [discriminate|]. destruct p; reflexivity.
Qed.

Lemma live_released image p q b :
  free_store q = released image (free_store p) ->
  live q b <-> live p b /\ image <> Some b.
Proof.
  intros Hq. destruct image as [a|]; cbn in Hq.
  - rewrite (live_same q (with_free_store (<[a := None]> (free_store p)) p)) by exact Hq.
    rewrite live_delete. split; intros [? ?]; split; congruence.
  - rewrite (live_same q p) by exact Hq. split; [intros ?; split; [assumption|discriminate]|].
    intros [? _]. assumption.
Qed.

Lemma live_snoc q store bitmap b :
  free_store q = store ++ [Some bitmap] ->
  live q b <-> (exists x, store !! b = Some (Some x)) \/ b = length store.
Proof.
  intros Hq. unfold live. rewrite Hq. split.
  - intros [x Hx]. apply lookup_app_Some in Hx as [Hx|[Hge Hx]]; [left; eauto|right].
    destruct (b - length store)%nat as [|k] eqn:E; [lia|]. cbn in Hx. discriminate.
  - intros [[x Hx]| ->].
    + exists x. apply lookup_app_l_Some, Hx.
    + exists bitmap. rewrite lookup_app_r by lia. rewrite Nat.sub_diag. reflexivity.
Qed.

Lemma insert_snoc {A} (l : list A) x y : <[length l := y]> (l ++ [x]) = l ++ [y].
Proof. rewrite insert_app_r_alt by lia. rewrite Nat.sub_diag. reflexivity. Qed.

Lemma copy_constructor_inv source p p' :
  copy_constructor source p = Ok p' ->
  exists src image bitmap node logic,
    get source p = Ok src /\ _image src = Some image /\
    (free_store p ++ [Some wxBitmap_empty]) !! image = Some (Some bitmap) /\
    _currentNode src = determinate node /\ _chatLogic src = Some logic /\
    p' = SetChatbotHandle (top p)
           (declare (taking (Some (length (free_store p))) node src)
              (with_free_store (free_store p ++ [Some bitmap])
                 (print (CopyConstructor_line source (top p)) p))).
Proof.
  unfold copy_constructor, new. cbn [fst snd]. intros H.
  apply bind_Ok_inv in H as (src & Hget & H).
  rewrite (get_same _ p) in Hget by reflexivity.
  apply bind_Ok_inv in H as (bitmap & Hbmp & H).
  apply bitmap_at_inv in Hbmp as (image & Himg & Hbmp). cbn in Hbmp.
  apply bind_Ok_inv in H as (p1 & Hassign & H).
  apply assign_bitmap_inv in Hassign as [_ ->]. cbn in H.
  apply bind_Ok_inv in H as (node & Hnode & H). apply rvalue_inv in Hnode.
  apply bind_Ok_inv in H as (logic & Hlogic & [= <-]). apply arrow_inv in Hlogic.
  exists src, image, bitmap, node, logic.
  repeat (split; [assumption|]).
  rewrite insert_snoc. reflexivity.
Qed.

Lemma copy_constructor_ownership source p p' :
  exclusive_ownership p -> copy_constructor source p = Ok p' ->
  exclusive_ownership p'.
Proof.
  intros Hinv H.
  apply copy_constructor_inv in H
    as (src & image & bitmap & node & logic & Hget & Himg & Hbmp & Hnode & Hlogic & ->).
  eapply ownership_ext; [..|apply (ownership_alloc _ _ (top p) (length (free_store p)) Hinv)].
  - intros this. rewrite (image_of_same _ (declare (taking (Some (length (free_store p))) node src) p))
      by reflexivity.
    rewrite image_of_declare. reflexivity.
  - intros b. cbn beta.
    rewrite (live_snoc _ (free_store p) bitmap) by reflexivity. reflexivity.
  - apply image_of_top.
  - intros H. apply live_lt in H. lia.
Qed.

Lemma copy_assignment_inv this source p p' :
  this <> source ->
  copy_assignment this source p = Ok p' ->
  exists self src image bitmap node logic,
    get this p = Ok self /\ (forall a, _image self = Some a -> live p a) /\
    get source p = Ok src /\ _image src = Some image /\
    (released (_image self) (free_store p) ++ [Some wxBitmap_empty]) !! image
      = Some (Some bitmap) /\
    _currentNode src = determinate node /\ _chatLogic src = Some logic /\
    p' = SetChatbotHandle this
           (put this (taking (Some (length (free_store p))) node src)
              (with_free_store (released (_image self) (free_store p) ++ [Some bitmap])
                 (print (CopyAssignment_line source this) p))).
Proof.
  unfold copy_assignment, new. intros Hne H.
  destruct (decide (this = source)); [contradiction|].
  apply bind_Ok_inv in H as (self & Hself & H).
  rewrite (get_same _ p) in Hself by reflexivity.
  apply bind_Ok_inv in H as (p1 & Hdel & H).
  apply delete_if_not_null_inv in Hdel as [Hlive ->]. cbn [fst snd] in H.
  apply bind_Ok_inv in H as (src & Hget & H).
  rewrite (get_same _ p) in Hget by reflexivity.
  apply bind_Ok_inv in H as (bitmap & Hbmp & H).
  apply bitmap_at_inv in Hbmp as (image & Himg & Hbmp). cbn in Hbmp.
  apply bind_Ok_inv in H as (p2 & Hassign & H).
  apply assign_bitmap_inv in Hassign as [_ ->]. cbn in H.
  apply bind_Ok_inv in H as (node & Hnode & H). apply rvalue_inv in Hnode.
  apply bind_Ok_inv in H as (logic & Hlogic & [= <-]). apply arrow_inv in Hlogic.
  exists self, src, image, bitmap, node, logic.
  split; [exact Hself|]. split; [exact Hlive|].
  repeat (split; [assumption|]).
  rewrite <- (length_released (_image self) (free_store p)), insert_snoc.
  rewrite length_released. reflexivity.
Qed.

Lemma copy_assignment_ownership this source p p' :
  exclusive_ownership p -> copy_assignment this source p = Ok p' ->
  exclusive_ownership p'.
Proof.
  intros Hinv H. destruct (decide (this = source)) as [->|Hne].
  { unfold copy_assignment in H. destruct (decide (source = source)); [|contradiction].
    injection H as <-. eapply ownership_ext; [..|exact Hinv].
    - intros t. apply image_of_same; reflexivity.
    - intros b. apply live_same. reflexivity. }
  apply (copy_assignment_inv _ _ _ _ Hne) in H
    as (self & src & image & bitmap & node & logic
        & Hself & Hlive & Hget & Himg & Hbmp & Hnode & Hlogic & ->).
  pose proof (ownership_free _ _ this Hinv) as H1.
  eapply ownership_ext;
    [..|apply (ownership_alloc _ _ this (length (free_store p)) H1)].
  - intros t. rewrite (image_of_same _
      (put this (taking (Some (length (free_store p))) node src) p)).
    2:{ destruct this; reflexivity. }
    2:{ destruct this; reflexivity. }
    rewrite (image_of_put _ _ _ _ _ Hself). cbn [taking _image]. unfold update.
    destruct (decide (t = this)); reflexivity.
  - intros b. cbn beta.
    rewrite (live_snoc _ (released (_image self) (free_store p)) bitmap)
      by (cbn [free_store SetChatbotHandle]; rewrite free_store_put; reflexivity).
    rewrite length_released.
    assert (Himage : image_of p this = _image self) by (unfold image_of; rewrite Hself; reflexivity).
    rewrite Himage.
    pose proof (live_released (_image self) p
                  (with_free_store (released (_image self) (free_store p)) p) b eq_refl) as Hr.
    unfold live in Hr at 1. cbn [free_store with_free_store] in Hr. rewrite Hr.
    split; (intros [[? ?]|?]; [left; split; [assumption|congruence]|right; assumption]).
  - unfold update. destruct (decide (this = this)); [reflexivity|contradiction].
  - intros [H _]. apply live_lt in H. lia.
Qed.

Lemma get_source_not_top source p src : get source p = Ok src -> top p <> source.
Proof. intros Hget <-. rewrite get_top in Hget. discriminate. Qed.

Lemma move_constructor_inv source p p' :
  move_constructor source p = Ok p' ->
  exists src node logic,
    get source p = Ok src /\
    _currentNode src = determinate node /\ _chatLogic src = Some logic /\
    p' = put source moved_from
           (SetChatbotHandle (top p)
              (declare (taking (_image src) node src)
                 (print (MoveConstructor_line source (top p)) p))).
Proof.
  unfold move_constructor. intros H.
  apply bind_Ok_inv in H as (src & Hget & H).
  rewrite (get_same _ p) in Hget by reflexivity.
  apply bind_Ok_inv in H as (node & Hnode & H). apply rvalue_inv in Hnode.
  apply bind_Ok_inv in H as (logic & Hlogic & [= <-]). apply arrow_inv in Hlogic.
  exists src, node, logic. repeat (split; [assumption|]). reflexivity.
Qed.

Lemma move_constructor_ownership source p p' :
  exclusive_ownership p -> move_constructor source p = Ok p' ->
  exclusive_ownership p'.
Proof.
  intros Hinv H.
  apply move_constructor_inv in H as (src & node & logic & Hget & Hnode & Hlogic & ->).
  pose proof (get_source_not_top _ _ _ Hget) as Hne.
  eapply ownership_ext;
    [..|apply (ownership_transfer _ _ source (top p) Hinv Hne (image_of_top p))].
  - intros t.
    erewrite image_of_put.
    2:{ rewrite get_SetChatbotHandle.
        rewrite get_declare_ne by (intros E; apply Hne; rewrite E; reflexivity).
        rewrite get_print. exact Hget. }
    cbn [moved_from _image]. unfold update at 1 2.
    destruct (decide (t = source)); [reflexivity|].
    rewrite (image_of_same _ (declare (taking (_image src) node src) p)) by reflexivity.
    rewrite image_of_declare. cbn [taking _image]. unfold update.
    destruct (decide (t = top p)); [|reflexivity].
    unfold image_of. rewrite Hget. reflexivity.
  - intros b. apply live_same. rewrite free_store_put. reflexivity.
Qed.

Lemma move_assignment_inv this source p p' :
  this <> source ->
  move_assignment this source p = Ok p' ->
  exists self src node logic,
    get this p = Ok self /\ (forall a, _image self = Some a -> live p a) /\
    get source p = Ok src /\
    _currentNode src = determinate node /\ _chatLogic src = Some logic /\
    p' = put source moved_from
           (SetChatbotHandle this
              (put this (taking (_image src) node src)
                 (with_free_store (released (_image self) (free_store p))
                    (print (MoveAssignment_line source this) p)))).
Proof.
  unfold move_assignment. intros Hne H.
  destruct (decide (this = source)); [contradiction|].
  apply bind_Ok_inv in H as (self & Hself & H).
  rewrite (get_same _ p) in Hself by reflexivity.
  apply bind_Ok_inv in H as (p1 & Hdel & H).
  apply delete_if_not_null_inv in Hdel as [Hlive ->].
  apply bind_Ok_inv in H as (src & Hget & H).
  rewrite (get_same _ p) in Hget by reflexivity.
  apply bind_Ok_inv in H as (node & Hnode & H). apply rvalue_inv in Hnode.
  apply bind_Ok_inv in H as (logic & Hlogic & [= <-]). apply arrow_inv in Hlogic.
  exists self, src, node, logic.
  split; [exact Hself|]. split; [exact Hlive|].
  repeat (split; [assumption|]). reflexivity.
Qed.

Lemma move_assignment_ownership this source p p' :
  exclusive_ownership p -> move_assignment this source p = Ok p' ->
  exclusive_ownership p'.
Proof.
  intros Hinv H. destruct (decide (this = source)) as [->|Hne].
  { unfold move_assignment in H. destruct (decide (source = source)); [|contradiction].
    injection H as <-. eapply ownership_ext; [..|exact Hinv].
    - intros t. apply image_of_same; reflexivity.
    - intros b. apply live_same. reflexivity. }
  apply (move_assignment_inv _ _ _ _ Hne) in H
    as (self & src & node & logic & Hself & Hlive & Hget & Hnode & Hlogic & ->).
  pose proof (ownership_free _ _ this Hinv) as H1.
  assert (Hfree : update (image_of p) this None this = None).
  { unfold update. destruct (decide (this = this)); [reflexivity|contradiction]. }
  eapply ownership_ext; [..|apply (ownership_transfer _ _ source this H1 Hne Hfree)].
  - intros t.
    erewrite image_of_put.
    2:{ rewrite get_SetChatbotHandle, get_put_ne by congruence.
        rewrite get_with_free_store, get_print. exact Hget. }
    cbn [moved_from _image]. unfold update at 1 2.
    destruct (decide (t = source)); [reflexivity|].
    rewrite (image_of_same _ (put this (taking (_image src) node src) p)).
    2:{ destruct this; reflexivity. }
    2:{ destruct this; reflexivity. }
    rewrite (image_of_put _ _ _ _ _ Hself). cbn [taking _image]. unfold update.
    destruct (decide (t = this)); [|reflexivity].
    destruct (decide (source = this)); [congruence|].
    unfold image_of. rewrite Hget. reflexivity.
  - intros b. cbn beta.
    assert (Himage : image_of p this = _image self)
      by (unfold image_of; rewrite Hself; reflexivity).
    rewrite Himage. apply live_released.
    rewrite free_store_put. cbn [free_store SetChatbotHandle].
    rewrite free_store_put. reflexivity.
Qed.

Lemma release_ownership p :
  exclusive_ownership p ->
  image_of p (automatic (length (stack p) - 1)) = None ->
  exclusive_ownership (release p).
Proof.
  intros Hinv Hnull. eapply ownership_ext; [..|exact Hinv].
  - intros t. destruct (stack p) as [|bot objects] eqn:Hs using rev_ind.
    + apply image_of_same; [reflexivity|]. unfold release. cbn. rewrite Hs. reflexivity.
    + apply (image_of_release p objects bot); [exact Hs|].
      unfold image_of in Hnull. cbn in Hnull. rewrite Hs, length_app in Hnull.
      cbn [length] in Hnull.
      replace (length objects + 1 - 1)%nat with (length objects) in Hnull by lia.
      rewrite lookup_app_r in Hnull by lia. rewrite Nat.sub_diag in Hnull. exact Hnull.
  - intros b. apply live_same. reflexivity.
Qed.

End Ownership.

(** ** Running the special member functions *)

Section Running.
Import Objects.

Lemma bitmap_at_live image p bitmap :
  free_store p !! image = Some (Some bitmap) -> bitmap_at (Some image) p = Ok bitmap.
Proof. unfold bitmap_at. intros ->. reflexivity. Qed.

Lemma assign_bitmap_live image bitmap p old :
  free_store p !! image = Some (Some old) ->
  assign_bitmap image bitmap p =
  Ok (with_free_store (<[image := Some bitmap]> (free_store p)) p).
Proof. unfold assign_bitmap. intros ->. reflexivity. Qed.

Lemma delete_live image p old :
  free_store p !! image = Some (Some old) ->
  delete image p = Ok (with_free_store (<[image := None]> (free_store p)) p).
Proof. unfold delete. intros ->. reflexivity. Qed.

Lemma delete_if_not_null_live image p :
  (forall a, image = Some a -> live p a) ->
  delete_if_not_null image p = Ok (with_free_store (released image (free_store p)) p).
Proof.
  destruct image as [a|]; cbn.
  - intros H. destruct (H a eq_refl) as [old Hold]. apply (delete_live _ _ _ Hold).
  - intros _. destruct p; reflexivity.
Qed.

Lemma lookup_snoc_length {A} (l : list A) x : (l ++ [x]) !! length l = Some x.
Proof. rewrite lookup_app_r by lia. rewrite Nat.sub_diag. reflexivity. Qed.

Lemma copy_constructor_run source p src image bitmap node logic :
  get source p = Ok src -> _image src = Some image ->
  free_store p !! image = Some (Some bitmap) ->
  _currentNode src = determinate node -> _chatLogic src = Some logic ->
  copy_constructor source p =
  Ok (SetChatbotHandle (top p)
        (declare (taking (Some (length (free_store p))) node src)
           (with_free_store (free_store p ++ [Some bitmap])
              (print (CopyConstructor_line source (top p)) p)))).
Proof.
  intros Hget Himg Hbmp Hnode Hlogic. unfold copy_constructor, new, taking.
  rewrite get_print, Hget. cbn [bind fst snd]. rewrite Himg.
  rewrite (bitmap_at_live image _ bitmap)
    by (cbn; apply lookup_app_l_Some, Hbmp).
  cbn [bind].
  rewrite (assign_bitmap_live _ _ _ wxBitmap_empty) by (cbn; apply lookup_snoc_length).
  cbn [bind free_store with_free_store print]. rewrite Hnode, Hlogic. cbn [bind rvalue arrow].
  rewrite insert_snoc. reflexivity.
Qed.

Lemma released_lookup image store a x :
  store !! a = Some (Some x) -> image <> Some a ->
  released image store !! a = Some (Some x).
Proof.
  intros Ha Hne. destruct image as [b|]; cbn; [|exact Ha].
  rewrite list_lookup_insert_ne by congruence. exact Ha.
Qed.

Lemma copy_assignment_run this source p self src image bitmap node logic :
  this <> source ->
  get this p = Ok self -> (forall a, _image self = Some a -> live p a) ->
  get source p = Ok src -> _image src = Some image -> _image self <> Some image ->
  free_store p !! image = Some (Some bitmap) ->
  _currentNode src = determinate node -> _chatLogic src = Some logic ->
  copy_assignment this source p =
  Ok (SetChatbotHandle this
        (put this (taking (Some (length (free_store p))) node src)
           (with_free_store (released (_image self) (free_store p) ++ [Some bitmap])
              (print (CopyAssignment_line source this) p)))).
Proof.
  intros Hne Hself Hlive Hget Himg Hdiff Hbmp Hnode Hlogic.
  unfold copy_assignment, new, taking.
  destruct (decide (this = source)); [contradiction|].
  rewrite get_print, Hself. cbn [bind].
  rewrite delete_if_not_null_live by exact Hlive.
  cbn [bind fst snd free_store with_free_store print].
  rewrite get_with_free_store, get_with_free_store, get_print, Hget. cbn [bind]. rewrite Himg.
  rewrite (bitmap_at_live image _ bitmap).
  2:{ cbn. apply lookup_app_l_Some, released_lookup; assumption. }
  cbn [bind].
  rewrite (assign_bitmap_live _ _ _ wxBitmap_empty) by (cbn; apply lookup_snoc_length).
  cbn [bind free_store with_free_store print]. rewrite Hnode, Hlogic. cbn [bind rvalue arrow].
  rewrite insert_snoc, length_released. reflexivity.
Qed.

Lemma destructor_run this p bot image old :
  get this p = Ok bot -> _image bot = Some image ->
  free_store p !! image = Some (Some old) ->
  destructor this p =
  Ok (put this {| _image := None; _currentNode := _currentNode bot;
                  _rootNode := _rootNode bot; _chatLogic := _chatLogic bot |}
        (with_free_store (<[image := None]> (free_store p))
           (print (Destructor_line this) p))).
Proof.
  intros Hget Himg Hold. unfold destructor. rewrite get_print, Hget. cbn [bind].
  rewrite Himg. rewrite (delete_live _ _ old) by exact Hold. reflexivity.
Qed.

Lemma move_constructor_run source p src node logic :
  get source p = Ok src ->
  _currentNode src = determinate node -> _chatLogic src = Some logic ->
  move_constructor source p =
  Ok (put source moved_from
        (SetChatbotHandle (top p)
           (declare (taking (_image src) node src)
              (print (MoveConstructor_line source (top p)) p)))).
Proof.
  intros Hget Hnode Hlogic. unfold move_constructor, taking.
  rewrite get_print, Hget. cbn [bind]. rewrite Hnode, Hlogic. reflexivity.
Qed.

Lemma move_assignment_run this source p self src node logic :
  this <> source ->
  get this p = Ok self -> (forall a, _image self = Some a -> live p a) ->
  get source p = Ok src ->
  _currentNode src = determinate node -> _chatLogic src = Some logic ->
  move_assignment this source p =
  Ok (put source moved_from
        (SetChatbotHandle this
           (put this (taking (_image src) node src)
              (with_free_store (released (_image self) (free_store p))
                 (print (MoveAssignment_line source this) p))))).
Proof.
  intros Hne Hself Hlive Hget Hnode Hlogic. unfold move_assignment, taking.
  destruct (decide (this = source)); [contradiction|].
  rewrite get_print, Hself. cbn [bind].
  rewrite delete_if_not_null_live by exact Hlive. cbn [bind].
  rewrite get_with_free_store, get_print, Hget. cbn [bind].
  rewrite Hnode, Hlogic. reflexivity.
Qed.

End Running.

(** ** Handing the chatbot over, on objects *)

Section HandOver.
Import Objects.
Context {R : StdRandom}.

Lemma Process_eq p q :
  _nodes p = _nodes q -> _chatBotHandle p = _chatBotHandle q ->
  _panelDialog p = _panelDialog q -> free_store p = free_store q ->
  stack p = stack q -> cout p = cout q -> p = q.
Proof. destruct p, q. cbn. congruence. Qed.

Lemma alter_lookup {A} (f : A -> A) (l : list A) i x :
  l !! i = Some x -> alter f i l = <[i := f x]> l.
Proof.
  intros Hx. apply list_eq. intros j. destruct (decide (i = j)) as [<-|Hne].
  - rewrite list_lookup_alter_eq, Hx.
    rewrite list_lookup_insert_eq by (eapply lookup_lt_Some, Hx). reflexivity.
  - rewrite list_lookup_alter_ne, list_lookup_insert_ne by exact Hne. reflexivity.
Qed.

Lemma SetCurrentNode_member a node now p n logic :
  _nodes p !! a = Some n -> _chatLogic (_chatBot n) = Some logic ->
  SetCurrentNode (member a) (Some node) now p =
  let bot := {| _image := _image (_chatBot n); _currentNode := determinate (Some node);
                _rootNode := _rootNode (_chatBot n);
                _chatLogic := _chatLogic (_chatBot n) |} in
  let q := put (member a) bot p in
  do current <- deref q (Some node);
  do answer <- select_answer now (_answers current);
  Ok (SendMessageToUser answer q).
Proof.
  intros Hn Hlogic. unfold SetCurrentNode. cbn [get]. rewrite Hn. cbn [bind].
  cbv zeta. destruct (deref _ (Some node)) as [current| |]; try reflexivity. cbn [bind].
  unfold select_answer. destruct (_ <? 0); [reflexivity|].
  destruct (vector_at _ _); try reflexivity. cbn [bind]. rewrite Hlogic. reflexivity.
Qed.

(** Handing the chatbot of node [this] to node [target]: the parameter is
    copied from the chatbot, assigned to the chatbot of [target] and
    destroyed; an answer of [target] is selected on the way. *)
Lemma MoveChatbotToNewNode_handed_over p this sn target tn image bitmap node logic now :
  _nodes p !! this = Some sn ->
  _image (_chatBot sn) = Some image ->
  free_store p !! image = Some (Some bitmap) ->
  _currentNode (_chatBot sn) = determinate node ->
  _chatLogic (_chatBot sn) = Some logic ->
  _nodes p !! target = Some tn ->
  (forall a, _image (_chatBot tn) = Some a -> live p a) ->
  MoveChatbotToNewNode this (Some target) now p =
  do answer <- select_answer now (_answers tn);
  Ok (handed_over p this (_chatBot sn) target tn bitmap answer).
Proof.
  intros Hs Himg Hbmp Hnode Hlogic Ht Hlive.
  set (L := length (free_store p)). set (src := _chatBot sn).
  assert (Hget : get (member this) p = Ok src) by (cbn; rewrite Hs; reflexivity).
  unfold MoveChatbotToNewNode. unfold deref at 1. rewrite Hs. cbn [bind].
  rewrite (copy_constructor_run _ _ _ _ _ _ _ Hget Himg Hbmp Hnode Hlogic). cbn [bind].
  fold L. set (c := taking (Some L) node src).
  set (p1 := SetChatbotHandle _ _).
  assert (Hfs1 : free_store p1 = free_store p ++ [Some bitmap]) by reflexivity.
  assert (Hc : get (top p) p1 = Ok c).
  { exact (get_declare_top c
             (with_free_store (free_store p ++ [Some bitmap])
                (print (CopyConstructor_line (member this) (top p)) p))). }
  unfold MoveChatbotHere. unfold deref at 1.
  change (_nodes p1) with (_nodes p). rewrite Ht. cbn [bind].
  rewrite (copy_assignment_run (member target) (top p) p1 (_chatBot tn) c L bitmap node logic).
  2:{ discriminate. }
  2:{ cbn. change (_nodes p1) with (_nodes p). rewrite Ht. reflexivity. }
  2:{ intros a Ha. destruct (Hlive a Ha) as [x Hx]. exists x.
      rewrite Hfs1. apply lookup_app_l_Some, Hx. }
  2:{ exact Hc. }
  2:{ reflexivity. }
  2:{ intros Ha. apply Hlive, live_lt in Ha. unfold L in Ha. lia. }
  2:{ rewrite Hfs1. apply lookup_snoc_length. }
  2:{ reflexivity. }
  2:{ exact Hlogic. }
  cbn [bind]. rewrite Hfs1, length_app. cbn [length].
  replace (length (free_store p) + 1)%nat with (Datatypes.S L) by (unfold L; lia).
  set (b2 := taking (Some (Datatypes.S L)) node c).
  set (p2 := SetChatbotHandle (member target) _).
  assert (Hn2 : _nodes p2 = alter (with_chatBot b2) target (_nodes p)) by reflexivity.
  rewrite (SetCurrentNode_member target target now p2 (with_chatBot b2 tn) logic).
  2:{ rewrite Hn2, list_lookup_alter_eq, Ht. reflexivity. }
  2:{ exact Hlogic. }
  cbv zeta. cbn [_chatBot with_chatBot b2 taking _image _rootNode _chatLogic c].
  set (b3 := {| _image := Some (Datatypes.S L); _currentNode := determinate (Some target);
                _rootNode := _rootNode src; _chatLogic := _chatLogic src |}).
  set (q := put (member target) b3 p2).
  assert (Hnq : _nodes q = <[target := with_chatBot b3 tn]> (_nodes p)).
  { unfold q. cbn [put _nodes with_nodes]. rewrite Hn2.
    rewrite list_alter_alter_eq. apply alter_lookup, Ht. }
  unfold deref. rewrite Hnq.
  rewrite list_lookup_insert_eq by (eapply lookup_lt_Some, Ht). cbn [bind _answers with_chatBot].
  destruct (select_answer now (_answers tn)) as [answer| |]; try reflexivity. cbn [bind].
  set (p3 := SendMessageToUser answer q).
  assert (Hfs3 : free_store p3 = released (_image (_chatBot tn)) (free_store p ++ [Some bitmap])
                                   ++ [Some bitmap]) by reflexivity.
  assert (Hrel : released (_image (_chatBot tn)) (free_store p ++ [Some bitmap]) =
                 released (_image (_chatBot tn)) (free_store p) ++ [Some bitmap]).
  { destruct (_image (_chatBot tn)) as [old|] eqn:Hold; [|reflexivity]. cbn.
    apply insert_app_l. apply (live_lt p), Hlive. reflexivity. }
  rewrite (destructor_run (top p) p3 c L bitmap).
  2:{ exact Hc. }
  2:{ reflexivity. }
  2:{ rewrite Hfs3, Hrel, <- app_assoc. rewrite lookup_app_r by (rewrite length_released; unfold L; lia).
      rewrite length_released. unfold L. rewrite Nat.sub_diag. reflexivity. }
  cbn [bind]. f_equal. apply Process_eq.
  - exact Hnq.
  - reflexivity.
  - reflexivity.
  - change (<[L := None]> (free_store p3) = free_store (handed_over p this src target tn bitmap answer)).
    rewrite Hfs3, Hrel, <- app_assoc.
    rewrite insert_app_r_alt by (rewrite length_released; unfold L; lia).
    rewrite length_released. unfold L. rewrite Nat.sub_diag. reflexivity.
  - change (take (length (<[length (stack p) := taking None node src]> (stack p ++ [c])) - 1)
                 (<[length (stack p) := taking None node src]> (stack p ++ [c])) = stack p).
    rewrite length_insert, length_app. cbn [length].
    replace (length (stack p) + 1 - 1)%nat with (length (stack p)) by lia.
    rewrite insert_app_r_alt by lia. rewrite take_app_length. reflexivity.
  - cbn. rewrite <- !app_assoc. reflexivity.
Qed.

End HandOver.

(** ** The objects against the engine *)

Lemma erase_handed_over p this src target tn bitmap answer :
  Objects.erase (Objects.handed_over p this src target tn bitmap answer) =
  arrive (Objects.erase p) (Objects._rootNode src) target (Objects.erase_GraphNode tn) answer.
Proof.
  unfold Objects.erase, Objects.handed_over, arrive. cbn.
  rewrite list_fmap_insert. reflexivity.
Qed.

Lemma erase_lookup p a :
  _nodes (Objects.erase p) !! a = Objects.erase_GraphNode <$> Objects._nodes p !! a.
Proof. unfold Objects.erase. cbn. apply list_lookup_fmap. Qed.

Lemma exclusive_ownership_live p this bot image :
  Objects.exclusive_ownership p -> Objects.get this p = Ok bot ->
  Objects._image bot = Some image -> Objects.live p image.
Proof.
  intros (H1 & _) Hget Himg. apply (H1 this). unfold Objects.image_of. rewrite Hget. exact Himg.
Qed.

Lemma handed_over_ownership p this src target tn bitmap answer :
  Objects.exclusive_ownership p -> Objects._nodes p !! target = Some tn ->
  Objects.exclusive_ownership (Objects.handed_over p this src target tn bitmap answer).
Proof.
  intros Hinv Ht.
  set (L := length (Objects.free_store p)).
  pose proof (ownership_free _ _ (Objects.member target) Hinv) as H1.
  assert (Himage : Objects.image_of p (Objects.member target) =
                   Objects._image (Objects._chatBot tn)).
  { unfold Objects.image_of. cbn. rewrite Ht. reflexivity. }
  eapply ownership_ext;
    [..|apply (ownership_alloc _ _ (Objects.member target) (Datatypes.S L) H1)].
  - intros t. unfold Objects.update, Objects.image_of.
    destruct (decide (t = Objects.member target)) as [->|Hne].
    + cbn. rewrite list_lookup_insert_eq by (eapply lookup_lt_Some, Ht). reflexivity.
    + destruct t as [a|k]; [|reflexivity]. cbn.
      rewrite list_lookup_insert_ne by congruence. reflexivity.
  - intros b. cbn beta. rewrite Himage. unfold Objects.live at 1. cbn.
    fold (Objects.released (Objects._image (Objects._chatBot tn)) (Objects.free_store p)).
    split.
    + intros [x Hx]. apply lookup_app_Some in Hx as [Hx|[Hge Hx]].
      * left. apply (live_released _ p (Objects.with_free_store
                  (Objects.released (Objects._image (Objects._chatBot tn)) (Objects.free_store p)) p) b
                  eq_refl). exists x. exact Hx.
      * right. rewrite length_released in Hge, Hx. fold L in Hge, Hx.
        destruct (b - L)%nat as [|[|k]] eqn:E; cbn in Hx; try discriminate. lia.
    + intros [Hb| ->].
      * apply (live_released _ p (Objects.with_free_store
                  (Objects.released (Objects._image (Objects._chatBot tn)) (Objects.free_store p)) p) b
                  eq_refl) in Hb as [x Hx].
        exists x. apply lookup_app_l_Some, Hx.
      * exists bitmap. rewrite lookup_app_r by (rewrite length_released; fold L; lia).
        rewrite length_released. fold L.
        replace (Datatypes.S L - L)%nat with 1%nat by lia. reflexivity.
  - unfold Objects.update. destruct (decide _); [reflexivity|contradiction].
  - intros [Hb _]. apply live_lt in Hb. fold L in Hb. lia.
Qed.

Lemma handed_over_serving p this src target tn bitmap answer logic :
  Objects.stack p = [] -> Objects._nodes p !! target = Some tn ->
  Objects._chatLogic src = Some logic ->
  Objects.serving (Objects.handed_over p this src target tn bitmap answer) target.
Proof.
  intros Hstack Ht Hlogic. split; [reflexivity|]. split; [exact Hstack|].
  eexists. split.
  - cbn. rewrite list_lookup_insert_eq by (eapply lookup_lt_Some, Ht). reflexivity.
  - cbn. split; [|reflexivity]. split; [eexists; reflexivity|].
    split; [eexists; reflexivity|]. rewrite Hlogic. eexists; reflexivity.
Qed.

Section Refinement.
Context {R : StdRandom}.

(** With the chatbot in service and the ownership policy in force, the
    hand-over on objects ends as the hand-over of the engine does. *)
Lemma MoveChatbotToNewNode_refines p this sn newNode now :
  Objects.exclusive_ownership p ->
  Objects._nodes p !! this = Some sn -> Objects.in_service (Objects._chatBot sn) ->
  Objects.refines (Objects.MoveChatbotToNewNode this newNode now p)
                  (MoveChatbotToNewNode this newNode now (Objects.erase p)).
Proof.
  intros Hinv Hs ([image Himg] & [node Hnode] & [logic Hlogic]).
  assert (Hget : Objects.get (Objects.member this) p = Ok (Objects._chatBot sn))
    by (cbn; rewrite Hs; reflexivity).
  destruct (exclusive_ownership_live p _ _ _ Hinv Hget Himg) as [bitmap Hbmp].
  assert (Hes : _nodes (Objects.erase p) !! this = Some (Objects.erase_GraphNode sn))
    by (rewrite erase_lookup, Hs; reflexivity).
  destruct newNode as [target|].
  2:{ unfold Objects.MoveChatbotToNewNode, MoveChatbotToNewNode, Objects.deref, deref.
      rewrite Hs, Hes. cbn [bind].
      rewrite (copy_constructor_run _ _ _ _ _ _ _ Hget Himg Hbmp Hnode Hlogic).
      exact I. }
  destruct (Objects._nodes p !! target) as [tn|] eqn:Ht.
  2:{ unfold Objects.MoveChatbotToNewNode, MoveChatbotToNewNode, Objects.deref, deref.
      rewrite Hs, Hes. cbn [bind].
      rewrite (copy_constructor_run _ _ _ _ _ _ _ Hget Himg Hbmp Hnode Hlogic). cbn [bind].
      unfold Objects.MoveChatbotHere, MoveChatbotHere, Objects.deref, deref.
      rewrite erase_lookup. cbn [Objects._nodes Objects.SetChatbotHandle Objects.declare
        Objects.with_stack Objects.with_free_store Objects.print].
      rewrite Ht. exact I. }
  assert (Het : _nodes (Objects.erase p) !! target = Some (Objects.erase_GraphNode tn))
    by (rewrite erase_lookup, Ht; reflexivity).
  assert (Hlive : forall a, Objects._image (Objects._chatBot tn) = Some a -> Objects.live p a).
  { intros a Ha.
    apply (exclusive_ownership_live p (Objects.member target) (Objects._chatBot tn));
      [exact Hinv|cbn; rewrite Ht; reflexivity|exact Ha]. }
  rewrite (MoveChatbotToNewNode_handed_over p this sn target tn image bitmap node logic now)
    by assumption.
  rewrite (MoveChatbotToNewNode_cases _ _ _ _ _ now Hes Het).
  change (_answers (Objects.erase_GraphNode tn)) with (Objects._answers tn).
  destruct (select_answer now (Objects._answers tn)) as [answer|e|]; cbn [bind Objects.refines];
    [|reflexivity|exact I].
  apply erase_handed_over.
Qed.

(** A hand-over that returns ends in a state [handed_over]. *)
Lemma MoveChatbotToNewNode_Ok_inv p this sn newNode now p' :
  Objects.exclusive_ownership p ->
  Objects._nodes p !! this = Some sn -> Objects.in_service (Objects._chatBot sn) ->
  Objects.MoveChatbotToNewNode this newNode now p = Ok p' ->
  exists target tn bitmap answer,
    newNode = Some target /\ Objects._nodes p !! target = Some tn /\
    answer ∈ Objects._answers tn /\
    p' = Objects.handed_over p this (Objects._chatBot sn) target tn bitmap answer.
Proof.
  intros Hinv Hs ([image Himg] & [node Hnode] & [logic Hlogic]) Hrun.
  assert (Hget : Objects.get (Objects.member this) p = Ok (Objects._chatBot sn))
    by (cbn; rewrite Hs; reflexivity).
  destruct (exclusive_ownership_live p _ _ _ Hinv Hget Himg) as [bitmap Hbmp].
  destruct newNode as [target|].
  2:{ unfold Objects.MoveChatbotToNewNode, Objects.deref in Hrun.
      rewrite Hs in Hrun. cbn [bind] in Hrun.
      rewrite (copy_constructor_run _ _ _ _ _ _ _ Hget Himg Hbmp Hnode Hlogic) in Hrun.
      discriminate. }
  destruct (Objects._nodes p !! target) as [tn|] eqn:Ht.
  2:{ unfold Objects.MoveChatbotToNewNode, Objects.deref in Hrun.
      rewrite Hs in Hrun. cbn [bind] in Hrun.
      rewrite (copy_constructor_run _ _ _ _ _ _ _ Hget Himg Hbmp Hnode Hlogic) in Hrun.
      cbn [bind] in Hrun. unfold Objects.MoveChatbotHere, Objects.deref in Hrun.
      cbn [Objects._nodes Objects.SetChatbotHandle Objects.declare
        Objects.with_stack Objects.with_free_store Objects.print] in Hrun.
      rewrite Ht in Hrun. discriminate. }
  assert (Hlive : forall a, Objects._image (Objects._chatBot tn) = Some a -> Objects.live p a).
  { intros a Ha.
    apply (exclusive_ownership_live p (Objects.member target) (Objects._chatBot tn));
      [exact Hinv|cbn; rewrite Ht; reflexivity|exact Ha]. }
  rewrite (MoveChatbotToNewNode_handed_over p this sn target tn image bitmap node logic now)
    in Hrun by assumption.
  destruct (select_answer now (Objects._answers tn)) as [answer| |] eqn:Hsel; try discriminate.
  injection Hrun as <-. exists target, tn, bitmap, answer.
  split; [reflexivity|]. split; [exact Ht|].
  split; [eapply select_answer_elem, Hsel|reflexivity].
Qed.

End Refinement.

Lemma serving_node p h :
  Objects.serving p h ->
  exists hn,
    Objects._nodes p !! h = Some hn /\ Objects.in_service (Objects._chatBot hn) /\
    Objects._currentNode (Objects._chatBot hn) = Objects.determinate (Some h).
Proof.
  intros (_ & _ & bot & Hget & Hin & Hcur). cbn in Hget.
  destruct (Objects._nodes p !! h) as [hn|]; [|discriminate].
  injection Hget as <-. eauto.
Qed.

Section Messages.
Context {S : StdSort} {R : StdRandom}.

(** With the chat logic served by the chatbot of node [h], a message is a
    hand-over from [h], for the objects as for the engine. *)
Lemma SendMessageToChatbot_objects p h hn message now :
  Objects._chatBotHandle p = Some (Objects.member h) ->
  Objects._nodes p !! h = Some hn ->
  Objects._currentNode (Objects._chatBot hn) = Objects.determinate (Some h) ->
  Objects.SendMessageToChatbot message now p =
  do levDists <- enumerate_pairs (Objects.erase_GraphNode hn) message;
  do newNode <- select_new_node (Objects.erase_ChatBot (Objects._chatBot hn)) levDists;
  Objects.MoveChatbotToNewNode h newNode now p.
Proof.
  intros Hh Hn Hcur. unfold Objects.SendMessageToChatbot. rewrite Hh.
  unfold Objects.ReceiveMessageFromUser. cbn [Objects.get]. rewrite Hn. cbn [bind].
  rewrite Hcur. cbn [Objects.rvalue bind]. unfold Objects.deref. rewrite Hn. reflexivity.
Qed.

Lemma SendMessageToChatbot_engine p h hn message now :
  Objects._chatBotHandle p = Some (Objects.member h) ->
  Objects._nodes p !! h = Some hn ->
  Objects._currentNode (Objects._chatBot hn) = Objects.determinate (Some h) ->
  SendMessageToChatbot message now (Objects.erase p) =
  do levDists <- enumerate_pairs (Objects.erase_GraphNode hn) message;
  do newNode <- select_new_node (Objects.erase_ChatBot (Objects._chatBot hn)) levDists;
  MoveChatbotToNewNode h newNode now (Objects.erase p).
Proof.
  intros Hh Hn Hcur. unfold SendMessageToChatbot.
  assert (Hen : _nodes (Objects.erase p) !! h = Some (Objects.erase_GraphNode hn))
    by (rewrite erase_lookup, Hn; reflexivity).
  change (_chatBotHandle (Objects.erase p)) with (Objects.erase_ptr (Objects._chatBotHandle p)).
  rewrite Hh. cbn [Objects.erase_ptr].
  unfold ReceiveMessageFromUser. unfold deref at 1. rewrite Hen. cbn [bind].
  cbn [_chatBot _currentNode Objects.erase_GraphNode Objects.erase_ChatBot].
  rewrite Hcur. cbn [Objects.erase_value]. unfold deref at 1. rewrite Hen. reflexivity.
Qed.

Lemma SendMessageToChatbot_refines p h message now :
  Objects.exclusive_ownership p -> Objects.serving p h ->
  Objects.refines (Objects.SendMessageToChatbot message now p)
                  (SendMessageToChatbot message now (Objects.erase p)).
Proof.
  intros Hinv Hserv. destruct (serving_node p h Hserv) as (hn & Hn & Hin & Hcur).
  rewrite (SendMessageToChatbot_objects p h hn) by (assumption || apply Hserv).
  rewrite (SendMessageToChatbot_engine p h hn) by (assumption || apply Hserv).
  destruct (enumerate_pairs _ message) as [levDists|e|]; cbn [bind Objects.refines];
    [|reflexivity|exact I].
  destruct (select_new_node _ levDists) as [newNode|e|]; cbn [bind Objects.refines];
    [|reflexivity|exact I].
  apply (MoveChatbotToNewNode_refines p h hn); assumption.
Qed.

Lemma SendMessageToChatbot_serving p h message now p' :
  Objects.exclusive_ownership p -> Objects.serving p h ->
  Objects.SendMessageToChatbot message now p = Ok p' ->
  Objects.exclusive_ownership p' /\ exists t, Objects.serving p' t.
Proof.
  intros Hinv Hserv Hrun. destruct (serving_node p h Hserv) as (hn & Hn & Hin & Hcur).
  rewrite (SendMessageToChatbot_objects p h hn) in Hrun by (assumption || apply Hserv).
  apply bind_Ok_inv in Hrun as (levDists & _ & Hrun).
  apply bind_Ok_inv in Hrun as (newNode & _ & Hrun).
  apply (MoveChatbotToNewNode_Ok_inv p h hn) in Hrun
    as (target & tn & bitmap & answer & _ & Ht & _ & ->); try assumption.
  split; [apply handed_over_ownership; assumption|].
  exists target. destruct Hin as (_ & _ & [logic Hlogic]).
  eapply handed_over_serving; [apply Hserv|exact Ht|exact Hlogic].
Qed.

Lemma converse_objects inputs :
  forall p h,
    Objects.exclusive_ownership p -> Objects.serving p h ->
    Objects.converse inputs p = converse inputs (Objects.erase p).
Proof.
  induction inputs as [|[message now] rest IH]; intros p h Hinv Hserv; [reflexivity|].
  cbn [Objects.converse converse].
  pose proof (SendMessageToChatbot_refines p h message now Hinv Hserv) as Href.
  pose proof (SendMessageToChatbot_serving p h message now) as Hkeep.
  destruct (Objects.SendMessageToChatbot message now p) as [p'|e|],
           (SendMessageToChatbot message now (Objects.erase p)) as [w'|e'|];
    cbn [Objects.refines] in Href; try contradiction; cbn [bind];
    [|congruence|reflexivity].
  destruct (Hkeep p' Hinv Hserv eq_refl) as (Hinv' & t & Hserv').
  rewrite (IH p' t Hinv' Hserv'), Href. subst w'. reflexivity.
Qed.

End Messages.

(** ** The rule of five *)

Section RuleOfFive.
Import Objects.

Lemma declare_default_ownership p :
  exclusive_ownership p -> exclusive_ownership (declare ChatBot_default p).
Proof.
  intros Hinv. eapply ownership_ext; [..|exact Hinv].
  - intros t. rewrite image_of_declare. unfold update.
    destruct (decide (t = top p)) as [->|]; [|reflexivity].
    rewrite image_of_top. reflexivity.
  - intros b. apply live_same. reflexivity.
Qed.

Lemma stack_put_length this bot p : length (stack (put this bot p)) = length (stack p).
Proof. destruct this; cbn; [reflexivity|apply length_insert]. Qed.

Lemma destructor_stack this p p' :
  destructor this p = Ok p' -> length (stack p') = length (stack p).
Proof.
  intros H. apply destructor_inv in H as (bot & _ & H).
  destruct (_image bot); [destruct H as [_ ->]|subst p']; [|reflexivity].
  rewrite stack_put_length. reflexivity.
Qed.

Lemma leave_scope_ownership p p' :
  exclusive_ownership p -> leave_scope p = Ok p' -> exclusive_ownership p'.
Proof.
  unfold leave_scope. intros Hinv H. apply bind_Ok_inv in H as (p1 & Hd & [= <-]).
  pose proof (destructor_stack _ _ _ Hd) as Hlen.
  destruct (destructor_ownership _ _ _ Hinv Hd) as [Hinv1 Hnull].
  apply release_ownership; [exact Hinv1|]. rewrite Hlen. exact Hnull.
Qed.

Lemma call_ownership f p p' :
  exclusive_ownership p -> call f p = Ok p' -> exclusive_ownership p'.
Proof.
  intros Hinv. destruct f; cbn [call].
  - intros [= <-]. apply declare_default_ownership, Hinv.
  - intros [= <-]. apply ChatBot_from_file_ownership, Hinv.
  - apply copy_constructor_ownership, Hinv.
  - apply move_constructor_ownership, Hinv.
  - apply copy_assignment_ownership, Hinv.
  - apply move_assignment_ownership, Hinv.
  - apply leave_scope_ownership, Hinv.
Qed.

End RuleOfFive.

(** ** The example processes keep the policy *)

Ltac solve_ownership :=
  split; [|split];
  [ intros [[|[|[|a]]]|[|[|k]]] image H; vm_compute in H; try discriminate;
    injection H as <-; eexists; reflexivity
  | intros [[|[|[|a]]]|[|[|k]]] [[|[|[|b]]]|[|[|j]]] image H1 H2;
    vm_compute in H1, H2; congruence
  | intros [|[|[|image]]] [bitmap H]; vm_compute in H; try discriminate;
    first [ exists (Objects.member 0); reflexivity
          | exists (Objects.automatic 0); reflexivity
          | exists (Objects.automatic 1); reflexivity
          | exists (Objects.member 1); reflexivity
          | exists (Objects.member 2); reflexivity ] ].

Lemma greeting_process_ownership : Objects.exclusive_ownership greeting_process.
Proof. solve_ownership. Qed.

Lemma visiting_process_ownership : Objects.exclusive_ownership visiting_process.
Proof. solve_ownership. Qed.

Lemma greeting_process_serving : Objects.serving greeting_process 0.
Proof.
  split; [reflexivity|]. split; [reflexivity|]. exists chatbot_at_root.
  split; [reflexivity|]. split; [|reflexivity].
  split; [eexists; reflexivity|]. split; eexists; reflexivity.
Qed.

Lemma greeting_process_erase : Objects.erase greeting_process = greeting_graph.
Proof. reflexivity. Qed.

(** X13: the special member functions keep the ownership policy: after any
    sequence of declarations, copies, moves, assignments and scope exits
    that returns, every image is held by exactly one chatbot and every
    chatbot holds a live image or none. *)
Theorem special_members_keep_exclusive_ownership fs :
  forall p p',
    Objects.exclusive_ownership p -> Objects.calls fs p = Ok p' ->
    Objects.exclusive_ownership p'.
Proof.
  induction fs as [|f rest IH]; intros p p' Hinv; cbn [Objects.calls].
  - intros [= <-]. exact Hinv.
  - intros H. apply bind_Ok_inv in H as (p1 & Hcall & Hrest).
    eapply IH; [|exact Hrest]. eapply call_ownership; eassumption.
Qed.

Lemma special_members_keep_exclusive_ownership_witness :
  exists p',
    Objects.calls visit visiting_process = Ok p' /\ Objects.exclusive_ownership p'.
Proof.
  eexists. split; [vm_compute; reflexivity|].
  apply (special_members_keep_exclusive_ownership visit visiting_process);
    [exact visiting_process_ownership|vm_compute; reflexivity].
Defined.

(** ** What each special member function does *)

Section SpecialMembers.
Import Objects.

Lemma in_service_inv src :
  in_service src ->
  exists image node logic,
    _image src = Some image /\ _currentNode src = determinate node /\
    _chatLogic src = Some logic.
Proof. intros ([image H1] & [node H2] & [logic H3]). eauto 7. Qed.

(** Without an image, a cursor or the chat logic, no copy is made. *)
Lemma copy_constructor_out_of_service source p src :
  get source p = Ok src -> ~ in_service src -> copy_constructor source p = Undefined.
Proof.
  intros Hget Hout. unfold copy_constructor, new. rewrite get_print, Hget. cbn [bind fst snd].
  destruct (_image src) as [image|] eqn:Himg; [|reflexivity].
  destruct (bitmap_at _ _) as [bitmap| |] eqn:Hbmp; cbn [bind]; try reflexivity.
  { destruct (assign_bitmap _ _ _) as [p1| |] eqn:Ha; cbn [bind]; try reflexivity.
    - destruct (_currentNode src) as [|node] eqn:Hnode; [reflexivity|]. cbn [rvalue bind].
      destruct (_chatLogic src) as [logic|] eqn:Hlogic; [|reflexivity].
      exfalso. apply Hout. split; [eauto|]. split; eauto.
    - exfalso. unfold assign_bitmap in Ha.
      destruct (free_store _ !! _) as [[?|]|]; discriminate. }
  exfalso. unfold bitmap_at in Hbmp. destruct (free_store _ !! _) as [[?|]|]; discriminate.
Qed.

Lemma delete_if_not_null_cases image p :
  delete_if_not_null image p = Undefined \/ exists p', delete_if_not_null image p = Ok p'.
Proof.
  destruct image as [a|]; cbn; [|eauto]. unfold delete.
  destruct (free_store p !! a) as [[?|]|]; eauto.
Qed.

Lemma copy_assignment_out_of_service this source p src :
  this <> source -> get source p = Ok src -> ~ in_service src ->
  copy_assignment this source p = Undefined.
Proof.
  intros Hne Hget Hout. unfold copy_assignment, new.
  destruct (decide (this = source)); [contradiction|].
  destruct (get this (print _ p)) as [self| |] eqn:Hself; cbn [bind]; try reflexivity.
  2:{ exfalso. eapply get_no_throw, Hself. }
  destruct (delete_if_not_null_cases (_image self) (print (CopyAssignment_line source this) p))
    as [->|[p1 Hdel]]; [reflexivity|].
  rewrite Hdel. cbn [bind fst snd].
  apply delete_if_not_null_inv in Hdel as [_ ->].
  rewrite !get_with_free_store, get_print, Hget. cbn [bind].
  destruct (_image src) as [image|] eqn:Himg; [|reflexivity].
  destruct (bitmap_at _ _) as [bitmap| |] eqn:Hbmp; cbn [bind]; try reflexivity.
  { destruct (assign_bitmap _ _ _) as [p2| |] eqn:Ha; cbn [bind]; try reflexivity.
    - destruct (_currentNode src) as [|node] eqn:Hnode; [reflexivity|]. cbn [rvalue bind].
      destruct (_chatLogic src) as [logic|] eqn:Hlogic; [|reflexivity].
      exfalso. apply Hout. split; [eauto|]. split; eauto.
    - exfalso. unfold assign_bitmap in Ha.
      destruct (free_store _ !! _) as [[?|]|]; discriminate. }
  exfalso. unfold bitmap_at in Hbmp. destruct (free_store _ !! _) as [[?|]|]; discriminate.
Qed.

Lemma move_constructor_detached source p src :
  get source p = Ok src ->
  _chatLogic src = None \/ _currentNode src = indeterminate ->
  move_constructor source p = Undefined.
Proof.
  intros Hget Hout. unfold move_constructor. rewrite get_print, Hget. cbn [bind].
  destruct (_currentNode src) as [|node]; [reflexivity|]. cbn [rvalue bind].
  destruct Hout as [->|]; [reflexivity|discriminate].
Qed.

Lemma move_assignment_detached this source p src :
  this <> source -> get source p = Ok src ->
  _chatLogic src = None \/ _currentNode src = indeterminate ->
  move_assignment this source p = Undefined.
Proof.
  intros Hne Hget Hout. unfold move_assignment.
  destruct (decide (this = source)); [contradiction|].
  destruct (get this (print _ p)) as [self| |] eqn:Hself; cbn [bind]; try reflexivity.
  2:{ exfalso. eapply get_no_throw, Hself. }
  destruct (delete_if_not_null_cases (_image self) (print (MoveAssignment_line source this) p))
    as [->|[p1 Hdel]]; [reflexivity|].
  rewrite Hdel. cbn [bind].
  apply delete_if_not_null_inv in Hdel as [_ ->].
  rewrite !get_with_free_store, get_print, Hget. cbn [bind].
  destruct (_currentNode src) as [|node]; [reflexivity|]. cbn [rvalue bind].
  destruct Hout as [->|]; [reflexivity|discriminate].
Qed.

End SpecialMembers.

(** X14: the copy constructor makes a deep copy. From a chatbot in service a
    chatbot is built that holds an image of its own, at a fresh address,
    with the picture of the source's image, and the same three handles; the
    source and its image are left as they were, the chat logic is pointed at
    the copy, and the ownership policy is kept. From a chatbot without an
    image, with an unset cursor or detached from the chat logic the copy is
    undefined. *)
Theorem copy_constructor_makes_a_deep_copy source p src :
  Objects.exclusive_ownership p ->
  Objects.get source p = Ok src ->
  (Objects.in_service src ->
   exists p' copy bitmap,
     Objects.copy_constructor source p = Ok p' /\
     Objects.get (Objects.top p) p' = Ok copy /\
     Objects._image copy = Some (length (Objects.free_store p)) /\
     Objects._currentNode copy = Objects._currentNode src /\
     Objects._rootNode copy = Objects._rootNode src /\
     Objects._chatLogic copy = Objects._chatLogic src /\
     Objects.bitmap_at (Objects._image src) p = Ok bitmap /\
     Objects.bitmap_at (Objects._image copy) p' = Ok bitmap /\
     Objects.bitmap_at (Objects._image src) p' = Ok bitmap /\
     Objects.get source p' = Ok src /\
     Objects._chatBotHandle p' = Some (Objects.top p) /\
     Objects.exclusive_ownership p') /\
  (~ Objects.in_service src -> Objects.copy_constructor source p = Undefined).
Proof.
  intros Hinv Hget. split; [|apply copy_constructor_out_of_service, Hget].
  intros Hin. destruct (in_service_inv _ Hin) as (image & node & logic & Himg & Hnode & Hlogic).
  destruct (exclusive_ownership_live p _ _ _ Hinv Hget Himg) as [bitmap Hbmp].
  pose proof (copy_constructor_run _ _ _ _ _ _ _ Hget Himg Hbmp Hnode Hlogic) as Hrun.
  eexists _, (Objects.taking (Some (length (Objects.free_store p))) node src), bitmap.
  split; [exact Hrun|].
  split.
  { exact (get_declare_top _
             (Objects.with_free_store (Objects.free_store p ++ [Some bitmap])
                (Objects.print (Objects.CopyConstructor_line source (Objects.top p)) p))). }
  split; [reflexivity|]. split; [symmetry; exact Hnode|].
  split; [reflexivity|]. split; [reflexivity|].
  split; [rewrite Himg; apply bitmap_at_live, Hbmp|].
  split; [apply bitmap_at_live; cbn; apply lookup_snoc_length|].
  split; [rewrite Himg; apply bitmap_at_live; cbn; apply lookup_app_l_Some, Hbmp|].
  split.
  { rewrite get_SetChatbotHandle, get_declare_ne.
    - rewrite get_with_free_store, get_print. exact Hget.
    - intros E. apply (get_source_not_top _ _ _ Hget). rewrite E. reflexivity. }
  split; [reflexivity|].
  eapply copy_constructor_ownership; eassumption.
Qed.

Lemma copy_constructor_makes_a_deep_copy_witness :
  exists p' copy bitmap,
    Objects.copy_constructor (Objects.member 0) visiting_process = Ok p' /\
    Objects.get (Objects.top visiting_process) p' = Ok copy /\
    Objects._image copy = Some (length (Objects.free_store visiting_process)) /\
    Objects._currentNode copy = Objects._currentNode chatbot_at_root /\
    Objects._rootNode copy = Objects._rootNode chatbot_at_root /\
    Objects._chatLogic copy = Objects._chatLogic chatbot_at_root /\
    Objects.bitmap_at (Objects._image chatbot_at_root) visiting_process = Ok bitmap /\
    Objects.bitmap_at (Objects._image copy) p' = Ok bitmap /\
    Objects.bitmap_at (Objects._image chatbot_at_root) p' = Ok bitmap /\
    Objects.get (Objects.member 0) p' = Ok chatbot_at_root /\
    Objects._chatBotHandle p' = Some (Objects.top visiting_process) /\
    Objects.exclusive_ownership p'.
Proof.
  apply (proj1 (copy_constructor_makes_a_deep_copy (Objects.member 0) visiting_process
                  chatbot_at_root visiting_process_ownership eq_refl)).
  split; [eexists; reflexivity|]. split; eexists; reflexivity.
Defined.

(** X15: the copy assignment gives the target an image of its own. Assigning
    a chatbot to itself changes nothing (a line is printed). Otherwise, from
    a source in service, the image the target held is deleted, the target
    holds a new image with the picture of the source's image and the three
    handles of the source, the source is left as it was, the chat logic is
    pointed at the target, and the ownership policy is kept; from a source
    out of service the assignment is undefined. *)
Theorem copy_assignment_replaces_the_image target source p self src :
  Objects.exclusive_ownership p ->
  Objects.get target p = Ok self ->
  Objects.get source p = Ok src ->
  (target = source ->
   Objects.copy_assignment target source p =
   Ok (Objects.print (Objects.CopyAssignment_line source target) p)) /\
  (target <> source -> Objects.in_service src ->
   exists p' copy bitmap,
     Objects.copy_assignment target source p = Ok p' /\
     Objects.get target p' = Ok copy /\
     Objects._image copy = Some (length (Objects.free_store p)) /\
     Objects._currentNode copy = Objects._currentNode src /\
     Objects._rootNode copy = Objects._rootNode src /\
     Objects._chatLogic copy = Objects._chatLogic src /\
     (forall old, Objects._image self = Some old -> ~ Objects.live p' old) /\
     Objects.bitmap_at (Objects._image src) p = Ok bitmap /\
     Objects.bitmap_at (Objects._image copy) p' = Ok bitmap /\
     Objects.bitmap_at (Objects._image src) p' = Ok bitmap /\
     Objects.get source p' = Ok src /\
     Objects._chatBotHandle p' = Some target /\
     Objects.exclusive_ownership p') /\
  (target <> source -> ~ Objects.in_service src ->
   Objects.copy_assignment target source p = Undefined).
Proof.
  intros Hinv Hself Hget. split; [|split].
  - intros ->. unfold Objects.copy_assignment.
    destruct (decide (source = source)); [reflexivity|contradiction].
  - intros Hne Hin.
    destruct (in_service_inv _ Hin) as (image & node & logic & Himg & Hnode & Hlogic).
    destruct (exclusive_ownership_live p _ _ _ Hinv Hget Himg) as [bitmap Hbmp].
    assert (Hlive : forall a, Objects._image self = Some a -> Objects.live p a).
    { intros a Ha. exact (exclusive_ownership_live p target self a Hinv Hself Ha). }
    assert (Hdiff : Objects._image self <> Some image).
    { intros Ha. apply Hne. destruct Hinv as (_ & Hshare & _).
      apply (Hshare _ _ image); unfold Objects.image_of;
        [rewrite Hself; exact Ha|rewrite Hget; exact Himg]. }
    pose proof (copy_assignment_run target source p self src image bitmap node logic
                  Hne Hself Hlive Hget Himg Hdiff Hbmp Hnode Hlogic) as Hrun.
    set (store := Objects.released (Objects._image self) (Objects.free_store p)) in *.
    eexists _, (Objects.taking (Some (length (Objects.free_store p))) node src), bitmap.
    split; [exact Hrun|].
    split.
    { rewrite get_SetChatbotHandle. eapply get_put_eq.
      rewrite get_with_free_store, get_print. exact Hself. }
    split; [reflexivity|]. split; [symmetry; exact Hnode|].
    split; [reflexivity|]. split; [reflexivity|].
    split.
    { intros old Hold [x Hx]. cbn in Hx. rewrite free_store_put in Hx. cbn in Hx.
      fold store in Hx. apply lookup_app_Some in Hx as [Hx|[Hge _]].
      - unfold store in Hx. rewrite Hold in Hx. cbn in Hx.
        apply list_lookup_insert_Some in Hx as [(_ & [=] & _)|[Hx _]]. congruence.
      - unfold store in Hge. rewrite length_released in Hge.
        apply Hlive, live_lt in Hold. lia. }
    split; [rewrite Himg; apply bitmap_at_live, Hbmp|].
    split.
    { apply bitmap_at_live. cbn. rewrite free_store_put. cbn. fold store.
      rewrite <- (length_released (Objects._image self)). apply lookup_snoc_length. }
    split.
    { rewrite Himg. apply bitmap_at_live. cbn. rewrite free_store_put. cbn.
      apply lookup_app_l_Some, released_lookup; assumption. }
    split.
    { rewrite get_SetChatbotHandle, get_put_ne by congruence.
      rewrite get_with_free_store, get_print. exact Hget. }
    split; [reflexivity|].
    eapply copy_assignment_ownership; eassumption.
  - intros Hne. apply copy_assignment_out_of_service; assumption.
Qed.

Lemma copy_assignment_replaces_the_image_witness :
  exists p' copy bitmap,
    Objects.copy_assignment (Objects.automatic 0) (Objects.member 0) visiting_process
      = Ok p' /\
    Objects.get (Objects.automatic 0) p' = Ok copy /\
    Objects._image copy = Some 2%nat /\
    Objects.bitmap_at (Some 0%nat) visiting_process = Ok bitmap /\
    Objects.bitmap_at (Objects._image copy) p' = Ok bitmap /\
    ~ Objects.live p' 1 /\
    Objects.exclusive_ownership p'.
Proof.
  destruct (proj1 (proj2 (copy_assignment_replaces_the_image
             (Objects.automatic 0) (Objects.member 0) visiting_process _ chatbot_at_root
             visiting_process_ownership eq_refl eq_refl)))
    as (p' & copy & bitmap & H1 & H2 & H3 & _ & _ & _ & H7 & H8 & H9 & _ & _ & _ & H13).
  - discriminate.
  - split; [eexists; reflexivity|]. split; eexists; reflexivity.
  - exists p', copy, bitmap. split; [exact H1|]. split; [exact H2|]. split; [exact H3|].
    split; [exact H8|]. split; [exact H9|].
    split; [apply H7; reflexivity|exact H13].
Defined.

(** X16: the move constructor takes the image over. From a source whose
    cursor is set and that is attached to the chat logic, a chatbot is built
    that holds the very image the source held (or none, if it held none) and
    its three handles; the source is left without image and handles, no
    image is created or deleted, the chat logic is pointed at the new
    chatbot, the ownership policy is kept, and destroying the source
    afterwards deletes nothing. From a detached source, or one whose cursor
    was never set, the move is undefined. *)
Theorem move_constructor_takes_the_image source p src :
  Objects.get source p = Ok src ->
  ((exists node, Objects._currentNode src = Objects.determinate node) ->
   is_Some (Objects._chatLogic src) ->
   exists p' moved,
     Objects.move_constructor source p = Ok p' /\
     Objects.get (Objects.top p) p' = Ok moved /\
     Objects._image moved = Objects._image src /\
     Objects._currentNode moved = Objects._currentNode src /\
     Objects._rootNode moved = Objects._rootNode src /\
     Objects._chatLogic moved = Objects._chatLogic src /\
     Objects.get source p' = Ok Objects.moved_from /\
     Objects.free_store p' = Objects.free_store p /\
     Objects._chatBotHandle p' = Some (Objects.top p) /\
     (Objects.exclusive_ownership p -> Objects.exclusive_ownership p') /\
     Objects.destructor source p' = Ok (Objects.print (Objects.Destructor_line source) p')) /\
  (Objects._chatLogic src = None \/ Objects._currentNode src = Objects.indeterminate ->
   Objects.move_constructor source p = Undefined).
Proof.
  intros Hget. split; [|apply move_constructor_detached, Hget].
  intros [node Hnode] [logic Hlogic].
  pose proof (move_constructor_run _ _ _ _ _ Hget Hnode Hlogic) as Hrun.
  pose proof (get_source_not_top _ _ _ Hget) as Hne.
  set (q := Objects.SetChatbotHandle (Objects.top p)
              (Objects.declare (Objects.taking (Objects._image src) node src)
                 (Objects.print (Objects.MoveConstructor_line source (Objects.top p)) p))) in *.
  assert (Hq : Objects.get source q = Ok src).
  { unfold q. rewrite get_SetChatbotHandle, get_declare_ne.
    - rewrite get_print. exact Hget.
    - intros E. apply Hne. rewrite E. reflexivity. }
  assert (Hsrc' : Objects.get source (Objects.put source Objects.moved_from q)
                  = Ok Objects.moved_from) by (eapply get_put_eq, Hq).
  eexists _, (Objects.taking (Objects._image src) node src).
  split; [exact Hrun|].
  split.
  { rewrite get_put_ne by exact Hne.
    exact (get_declare_top _
             (Objects.print (Objects.MoveConstructor_line source (Objects.top p)) p)). }
  split; [reflexivity|]. split; [symmetry; exact Hnode|].
  split; [reflexivity|]. split; [reflexivity|].
  split; [exact Hsrc'|].
  split; [rewrite free_store_put; reflexivity|].
  split; [rewrite handle_put; reflexivity|].
  split; [intros Hinv; eapply move_constructor_ownership; eassumption|].
  unfold Objects.destructor. rewrite get_print, Hsrc'. reflexivity.
Qed.

Lemma move_constructor_takes_the_image_witness :
  exists p' moved,
    Objects.move_constructor (Objects.automatic 0) visiting_process = Ok p' /\
    Objects.get (Objects.automatic 1) p' = Ok moved /\
    Objects._image moved = Some 1%nat /\
    Objects.get (Objects.automatic 0) p' = Ok Objects.moved_from /\
    Objects.free_store p' = Objects.free_store visiting_process /\
    Objects.exclusive_ownership p' /\
    Objects.destructor (Objects.automatic 0) p' =
      Ok (Objects.print (Objects.Destructor_line (Objects.automatic 0)) p').
Proof.
  destruct (proj1 (move_constructor_takes_the_image (Objects.automatic 0) visiting_process
                     _ eq_refl))
    as (p' & moved & H1 & H2 & H3 & _ & _ & _ & H7 & H8 & _ & H10 & H11).
  - eexists; reflexivity.
  - eexists; reflexivity.
  - exists p', moved. split; [exact H1|]. split; [exact H2|]. split; [exact H3|].
    split; [exact H7|]. split; [exact H8|].
    split; [exact (H10 visiting_process_ownership)|exact H11].
Defined.

(** X17: the move assignment takes the image over. Assigning a chatbot to
    itself changes nothing (a line is printed). Otherwise, from a source
    whose cursor is set and that is attached to the chat logic, the image
    the target held is deleted, the target holds the very image the source
    held and its three handles, the source is left without image and
    handles, the chat logic is pointed at the target, and the ownership
    policy is kept; from a detached source the assignment is undefined. *)
Theorem move_assignment_takes_the_image target source p self src :
  Objects.exclusive_ownership p ->
  Objects.get target p = Ok self ->
  Objects.get source p = Ok src ->
  (target = source ->
   Objects.move_assignment target source p =
   Ok (Objects.print (Objects.MoveAssignment_line source target) p)) /\
  (target <> source ->
   (exists node, Objects._currentNode src = Objects.determinate node) ->
   is_Some (Objects._chatLogic src) ->
   exists p' moved,
     Objects.move_assignment target source p = Ok p' /\
     Objects.get target p' = Ok moved /\
     Objects._image moved = Objects._image src /\
     Objects._currentNode moved = Objects._currentNode src /\
     Objects._rootNode moved = Objects._rootNode src /\
     Objects._chatLogic moved = Objects._chatLogic src /\
     Objects.get source p' = Ok Objects.moved_from /\
     (forall image,
        Objects.live p' image <-> Objects.live p image /\ Objects._image self <> Some image) /\
     Objects._chatBotHandle p' = Some target /\
     Objects.exclusive_ownership p') /\
  (target <> source ->
   Objects._chatLogic src = None \/ Objects._currentNode src = Objects.indeterminate ->
   Objects.move_assignment target source p = Undefined).
Proof.
  intros Hinv Hself Hget. split; [|split].
  - intros ->. unfold Objects.move_assignment.
    destruct (decide (source = source)); [reflexivity|contradiction].
  - intros Hne [node Hnode] [logic Hlogic].
    assert (Hlive : forall a, Objects._image self = Some a -> Objects.live p a).
    { intros a Ha. exact (exclusive_ownership_live p target self a Hinv Hself Ha). }
    pose proof (move_assignment_run target source p self src node logic
                  Hne Hself Hlive Hget Hnode Hlogic) as Hrun.
    set (q := Objects.SetChatbotHandle target _) in *.
    assert (Hq : Objects.get source q = Ok src).
    { unfold q. rewrite get_SetChatbotHandle, get_put_ne by congruence.
      rewrite get_with_free_store, get_print. exact Hget. }
    eexists _, (Objects.taking (Objects._image src) node src).
    split; [exact Hrun|].
    split.
    { rewrite get_put_ne by exact Hne. unfold q. rewrite get_SetChatbotHandle.
      eapply get_put_eq. rewrite get_with_free_store, get_print. exact Hself. }
    split; [reflexivity|]. split; [symmetry; exact Hnode|].
    split; [reflexivity|]. split; [reflexivity|].
    split; [eapply get_put_eq, Hq|].
    split.
    { intros image. apply live_released. rewrite free_store_put. unfold q.
      cbn [Objects.free_store Objects.SetChatbotHandle]. rewrite free_store_put. reflexivity. }
    split; [rewrite handle_put; reflexivity|].
    eapply move_assignment_ownership; eassumption.
  - intros Hne. apply move_assignment_detached; assumption.
Qed.

Lemma move_assignment_takes_the_image_witness :
  exists p' moved,
    Objects.move_assignment (Objects.member 0) (Objects.automatic 0) visiting_process
      = Ok p' /\
    Objects.get (Objects.member 0) p' = Ok moved /\
    Objects._image moved = Some 1%nat /\
    Objects.get (Objects.automatic 0) p' = Ok Objects.moved_from /\
    (forall image,
       Objects.live p' image <->
       Objects.live visiting_process image /\ Some 0%nat <> Some image) /\
    Objects.exclusive_ownership p'.
Proof.
  destruct (proj1 (proj2 (move_assignment_takes_the_image
             (Objects.member 0) (Objects.automatic 0) visiting_process chatbot_at_root _
             visiting_process_ownership eq_refl eq_refl)))
    as (p' & moved & H1 & H2 & H3 & _ & _ & _ & H7 & H8 & _ & H10).
  - discriminate.
  - eexists; reflexivity.
  - eexists; reflexivity.
  - exists p', moved. split; [exact H1|]. split; [exact H2|]. split; [exact H3|].
    split; [exact H7|]. split; [exact H8|exact H10].
Defined.

(** X18: a chatbot fresh from a constructor cannot be copied or moved: both
    constructors leave it detached from the chat logic (and its cursor
    unset), and each of the four copy and move operations calls the chat
    logic through that handle. *)
Theorem fresh_chatbot_cannot_be_copied_or_moved filename p q target :
  q = Objects.declare Objects.ChatBot_default p \/ q = Objects.ChatBot_from_file filename p ->
  target <> Objects.top p ->
  Objects.copy_constructor (Objects.top p) q = Undefined /\
  Objects.move_constructor (Objects.top p) q = Undefined /\
  Objects.copy_assignment target (Objects.top p) q = Undefined /\
  Objects.move_assignment target (Objects.top p) q = Undefined.
Proof.
  intros Hq Hne.
  assert (exists fresh,
            Objects.get (Objects.top p) q = Ok fresh /\ Objects._chatLogic fresh = None)
    as (fresh & Hget & Hlogic).
  { destruct Hq as [->| ->].
    - exists Objects.ChatBot_default. split; [apply get_declare_top|reflexivity].
    - exists {| Objects._image := Some (length (Objects.free_store p));
                Objects._currentNode := Objects.indeterminate;
                Objects._rootNode := None; Objects._chatLogic := None |}.
      split; [|reflexivity].
      exact (get_declare_top _
               (Objects.with_free_store _
                  (Objects.print (Objects.Constructor_line (Objects.top p)) p))). }
  assert (Hout : ~ Objects.in_service fresh).
  { intros (_ & _ & [logic Hl]). congruence. }
  split; [eapply copy_constructor_out_of_service; eassumption|].
  split; [eapply move_constructor_detached; [eassumption|left; exact Hlogic]|].
  split; [eapply copy_assignment_out_of_service; eassumption|].
  eapply move_assignment_detached; [eassumption..|left; exact Hlogic].
Qed.

Lemma fresh_chatbot_cannot_be_copied_or_moved_witness :
  Objects.copy_constructor (Objects.top greeting_process)
    (Objects.ChatBot_from_file (str "chatbot.png") greeting_process) = Undefined /\
  Objects.move_constructor (Objects.top greeting_process)
    (Objects.ChatBot_from_file (str "chatbot.png") greeting_process) = Undefined /\
  Objects.copy_assignment (Objects.member 1) (Objects.top greeting_process)
    (Objects.ChatBot_from_file (str "chatbot.png") greeting_process) = Undefined /\
  Objects.move_assignment (Objects.member 1) (Objects.top greeting_process)
    (Objects.ChatBot_from_file (str "chatbot.png") greeting_process) = Undefined.
Proof.
  apply (fresh_chatbot_cannot_be_copied_or_moved (str "chatbot.png") greeting_process);
    [right; reflexivity|discriminate].
Defined.

(** X19: what a constructor allocates the destructor releases: a chatbot
    built from an image file and gone out of scope leaves the nodes, the
    stack, the chat logic and the set of live images as they were; its image
    took one address of the free store and is deleted, and two lines were
    printed. *)
Theorem constructed_then_destroyed_leaves_no_image filename p :
  exists p',
    Objects.leave_scope (Objects.ChatBot_from_file filename p) = Ok p' /\
    Objects._nodes p' = Objects._nodes p /\
    Objects.stack p' = Objects.stack p /\
    Objects._chatBotHandle p' = Objects._chatBotHandle p /\
    Objects._panelDialog p' = Objects._panelDialog p /\
    Objects.free_store p' = Objects.free_store p ++ [None] /\
    (forall image, Objects.live p' image <-> Objects.live p image) /\
    Objects.cout p' = Objects.cout p ++ [ Objects.Constructor_line (Objects.top p);
                                          Objects.Destructor_line (Objects.top p) ].
Proof.
  set (L := length (Objects.free_store p)). set (K := length (Objects.stack p)).
  set (fresh := {| Objects._image := Some L; Objects._currentNode := Objects.indeterminate;
                   Objects._rootNode := None; Objects._chatLogic := None |}).
  set (q := Objects.ChatBot_from_file filename p).
  assert (Hstack : Objects.stack q = Objects.stack p ++ [fresh]) by reflexivity.
  assert (Hstore : Objects.free_store q =
                   Objects.free_store p ++ [Some (Objects.wxBitmap_png filename)])
    by reflexivity.
  assert (Htop : (length (Objects.stack q) - 1)%nat = K).
  { rewrite Hstack, length_app. cbn [length]. fold K. lia. }
  unfold Objects.leave_scope. rewrite Htop.
  rewrite (destructor_run (Objects.automatic K) q fresh L (Objects.wxBitmap_png filename)).
  2:{ cbn [Objects.get]. rewrite Hstack. unfold K. rewrite lookup_snoc_length. reflexivity. }
  2:{ reflexivity. }
  2:{ rewrite Hstore. apply lookup_snoc_length. }
  cbn [bind]. eexists. split; [reflexivity|].
  split; [reflexivity|].
  split.
  { unfold Objects.release. cbn [Objects.stack Objects.with_stack Objects.put
      Objects.with_free_store Objects.print].
    rewrite Hstack, length_insert, length_app. cbn [length].
    replace (length (Objects.stack p) + 1 - 1)%nat with (length (Objects.stack p)) by lia.
    unfold K. rewrite insert_app_r_alt by lia. rewrite take_app_length. reflexivity. }
  split; [reflexivity|]. split; [reflexivity|].
  assert (Hfinal : <[L := None]> (Objects.free_store q) = Objects.free_store p ++ [None]).
  { rewrite Hstore. unfold L. apply insert_snoc. }
  split; [exact Hfinal|].
  split.
  { intros image. unfold Objects.live. cbn [Objects.free_store Objects.release
      Objects.with_stack Objects.put Objects.with_free_store Objects.print].
    rewrite Hfinal. split.
    - intros [x Hx]. apply lookup_app_Some in Hx as [Hx|[_ Hx]]; [eauto|].
      destruct (image - length (Objects.free_store p))%nat as [|k]; discriminate.
    - intros [x Hx]. exists x. apply lookup_app_l_Some, Hx. }
  cbn. rewrite <- app_assoc. reflexivity.
Qed.

(** ** The conversation on objects *)

Lemma handed_over_live p this src target tn bitmap answer image :
  Objects.live p image -> Objects._image (Objects._chatBot tn) <> Some image ->
  Objects.live (Objects.handed_over p this src target tn bitmap answer) image.
Proof.
  intros [x Hx] Hne. exists x. cbn. apply lookup_app_l_Some.
  apply released_lookup; assumption.
Qed.

Lemma handed_over_fresh p this src target tn bitmap answer :
  (forall a, Objects._image (Objects._chatBot tn) = Some a -> Objects.live p a) ->
  Objects.live (Objects.handed_over p this src target tn bitmap answer)
               (Datatypes.S (length (Objects.free_store p))).
Proof.
  intros Hlive. exists bitmap. cbn.
  fold (Objects.released (Objects._image (Objects._chatBot tn)) (Objects.free_store p)).
  rewrite lookup_app_r by (rewrite length_released; lia).
  rewrite length_released.
  replace (Datatypes.S (length (Objects.free_store p)) - length (Objects.free_store p))%nat
    with 1%nat by lia.
  reflexivity.
Qed.

(** X20: the chatbot is handed over by copy. With the ownership policy in
    force, handing the chatbot of a node, in service, to a node ends as the
    hand-over of the engine does (same node contents, same handle, same
    answer, or the same failure). When it returns, the chatbot of the target
    is in service with its cursor on the target, the root of the source and
    a new image; one copy construction, one copy assignment and one
    destruction were run, on a parameter that is gone; the policy still
    holds; and the node left behind keeps its chatbot, which still holds its
    image. *)
Theorem hand_over_copies_the_chatbot (R : StdRandom) p this sn newNode now :
  Objects.exclusive_ownership p ->
  Objects._nodes p !! this = Some sn ->
  Objects.in_service (Objects._chatBot sn) ->
  Objects.refines (Objects.MoveChatbotToNewNode this newNode now p)
                  (MoveChatbotToNewNode this newNode now (Objects.erase p)) /\
  forall p',
    Objects.MoveChatbotToNewNode this newNode now p = Ok p' ->
    exists target arrived image,
      newNode = Some target /\
      Objects.exclusive_ownership p' /\
      Objects.stack p' = Objects.stack p /\
      Objects.cout p' =
        Objects.cout p ++ [ Objects.CopyConstructor_line (Objects.member this) (Objects.top p);
                            Objects.CopyAssignment_line (Objects.top p) (Objects.member target);
                            Objects.Destructor_line (Objects.top p) ] /\
      Objects._chatBotHandle p' = Some (Objects.member target) /\
      Objects.get (Objects.member target) p' = Ok arrived /\
      Objects.in_service arrived /\
      Objects._image arrived = Some image /\
      ~ Objects.live p image /\ Objects.live p' image /\
      Objects._currentNode arrived = Objects.determinate (Some target) /\
      Objects._rootNode arrived = Objects._rootNode (Objects._chatBot sn) /\
      (target <> this ->
       Objects._nodes p' !! this = Some sn /\
       forall held, Objects._image (Objects._chatBot sn) = Some held -> Objects.live p' held).
Proof.
  intros Hinv Hs Hin. split; [apply (MoveChatbotToNewNode_refines p this sn); assumption|].
  intros p' Hrun.
  apply (MoveChatbotToNewNode_Ok_inv p this sn) in Hrun
    as (target & tn & bitmap & answer & -> & Ht & _ & ->); try assumption.
  destruct (in_service_inv _ Hin) as (image & node & logic & Himg & Hnode & Hlogic).
  assert (Hlive : forall a, Objects._image (Objects._chatBot tn) = Some a -> Objects.live p a).
  { intros a Ha.
    apply (exclusive_ownership_live p (Objects.member target) (Objects._chatBot tn));
      [exact Hinv|cbn; rewrite Ht; reflexivity|exact Ha]. }
  eexists target, _, (Datatypes.S (length (Objects.free_store p))).
  split; [reflexivity|].
  split; [apply handed_over_ownership; assumption|].
  split; [reflexivity|]. split; [reflexivity|]. split; [reflexivity|].
  split.
  { cbn. rewrite list_lookup_insert_eq by (eapply lookup_lt_Some, Ht). reflexivity. }
  split.
  { cbn. split; [eexists; reflexivity|]. split; [eexists; reflexivity|].
    rewrite Hlogic. eexists; reflexivity. }
  split; [reflexivity|].
  split; [intros H; apply live_lt in H; lia|].
  split; [apply handed_over_fresh, Hlive|].
  split; [reflexivity|]. split; [reflexivity|].
  intros Hne. split.
  - cbn. rewrite list_lookup_insert_ne by exact Hne. exact Hs.
  - intros held Hheld. apply handed_over_live.
    + apply (exclusive_ownership_live p (Objects.member this) (Objects._chatBot sn));
        [exact Hinv|cbn; rewrite Hs; reflexivity|exact Hheld].
    + intros Hsame. apply Hne. destruct Hinv as (_ & Hshare & _).
      assert (E : Objects.member target = Objects.member this).
      { apply (Hshare _ _ held); unfold Objects.image_of; cbn;
          [rewrite Ht; exact Hsame|rewrite Hs; exact Hheld]. }
      congruence.
Qed.

Lemma hand_over_copies_the_chatbot_witness :
  Objects.refines
    (Objects.MoveChatbotToNewNode (R := clock_random_model) 0 (Some 1%nat) 1 greeting_process)
    (MoveChatbotToNewNode (R := clock_random_model) 0 (Some 1%nat) 1
       (Objects.erase greeting_process)) /\
  exists p',
    Objects.MoveChatbotToNewNode (R := clock_random_model) 0 (Some 1%nat) 1 greeting_process
      = Ok p' /\
    Objects.exclusive_ownership p' /\
    Objects.stack p' = [] /\
    Objects._chatBotHandle p' = Some (Objects.member 1) /\
    Objects._panelDialog p' = [str "Hey"] /\
    Objects.live p' 0 /\ Objects.live p' 2.
Proof.
  destruct (hand_over_copies_the_chatbot clock_random_model greeting_process 0 _ (Some 1%nat) 1
              greeting_process_ownership eq_refl) as [Href Hpost].
  { split; [eexists; reflexivity|]. split; eexists; reflexivity. }
  split; [exact Href|].
  eexists. split; [vm_compute; reflexivity|].
  edestruct Hpost as (target & arrived & image & _ & Hinv & _); [vm_compute; reflexivity|].
  split; [exact Hinv|]. split; [reflexivity|]. split; [reflexivity|]. split; [reflexivity|].
  split; eexists; reflexivity.
Defined.

Section ConversationOnObjects.
Context {S : StdSort} {R : StdRandom}.

Lemma converse_answers inputs :
  forall w, well_formed w ->
    exists answers, converse inputs w = Ok answers /\ length answers = length inputs.
Proof.
  induction inputs as [|[message now] rest IH]; intros w Hwf.
  - exists []. split; reflexivity.
  - cbn [converse].
    destruct (SendMessageToChatbot_well_formed w message now Hwf)
      as (w' & answer & -> & Hwf' & Hpanel).
    cbn [bind]. destruct (IH w' Hwf') as (later & -> & Hlen).
    cbn [bind]. eexists. split; [reflexivity|].
    rewrite Hpanel, drop_app_length. cbn [length app]. rewrite Hlen. reflexivity.
Qed.

End ConversationOnObjects.

(** X21: a message keeps the chatbot in service and the ownership policy in
    force. With the chat logic served by the chatbot of a node and no call
    in progress, a message ends on the objects as it does in the engine;
    when it returns, every image is still held by exactly one chatbot, and
    the chat logic is served by the chatbot of the node arrived at. *)
Theorem message_keeps_the_chatbot_in_service (S : StdSort) (R : StdRandom)
    p h message now :
  Objects.exclusive_ownership p ->
  Objects.serving p h ->
  Objects.refines (Objects.SendMessageToChatbot message now p)
                  (SendMessageToChatbot message now (Objects.erase p)) /\
  forall p',
    Objects.SendMessageToChatbot message now p = Ok p' ->
    Objects.exclusive_ownership p' /\ exists t, Objects.serving p' t.
Proof.
  intros Hinv Hserv. split; [eapply SendMessageToChatbot_refines; eassumption|].
  intros p'. apply SendMessageToChatbot_serving with (h := h); assumption.
Qed.

Lemma message_keeps_the_chatbot_in_service_witness :
  Objects.refines
    (Objects.SendMessageToChatbot (S := stable_sort_model) (R := clock_random_model)
       (str "helo") 0 greeting_process)
    (SendMessageToChatbot (S := stable_sort_model) (R := clock_random_model)
       (str "helo") 0 (Objects.erase greeting_process)) /\
  forall p',
    Objects.SendMessageToChatbot (S := stable_sort_model) (R := clock_random_model)
      (str "helo") 0 greeting_process = Ok p' ->
    Objects.exclusive_ownership p' /\ exists t, Objects.serving p' t.
Proof.
  apply (message_keeps_the_chatbot_in_service stable_sort_model clock_random_model
           greeting_process 0 (str "helo") 0).
  - exact greeting_process_ownership.
  - exact greeting_process_serving.
Defined.

(** X22: a conversation on objects gives the answers of the engine: with the
    ownership policy in force and the chat logic served by a chatbot in
    service, the images, the copies and the destructions between the
    messages never get in the way. On a well-formed graph every message is
    answered. *)
Theorem conversation_on_objects (S : StdSort) (R : StdRandom) p h inputs :
  Objects.exclusive_ownership p ->
  Objects.serving p h ->
  Objects.converse inputs p = converse inputs (Objects.erase p) /\
  (well_formed (Objects.erase p) ->
   exists answers,
     Objects.converse inputs p = Ok answers /\ length answers = length inputs).
Proof.
  intros Hinv Hserv.
  pose proof (converse_objects inputs p h Hinv Hserv) as Hsame.
  split; [exact Hsame|]. intros Hwf. rewrite Hsame. apply converse_answers, Hwf.
Qed.

Lemma conversation_on_objects_witness :
  Objects.converse (S := stable_sort_model) (R := clock_random_model)
    [(str "helo", 2); (str "bye", 3); (str "hi", 5)] greeting_process =
  converse (S := stable_sort_model) (R := clock_random_model)
    [(str "helo", 2); (str "bye", 3); (str "hi", 5)] (Objects.erase greeting_process) /\
  (well_formed (Objects.erase greeting_process) ->
   exists answers,
     Objects.converse (S := stable_sort_model) (R := clock_random_model)
       [(str "helo", 2); (str "bye", 3); (str "hi", 5)] greeting_process = Ok answers /\
     length answers = length [(str "helo", 2); (str "bye", 3); (str "hi", 5)]).
Proof.
  apply (conversation_on_objects stable_sort_model clock_random_model greeting_process 0).
  - exact greeting_process_ownership.
  - exact greeting_process_serving.
Defined.

(** ** Building nodes *)

Lemma AddToken_answers tokens :
  forall n,
    Objects._answers (foldl (fun n token => Objects.AddToken token n) n tokens) =
    Objects._answers n ++ tokens.
Proof.
  induction tokens as [|token rest IH]; intros n; cbn [foldl].
  - rewrite app_nil_r. reflexivity.
  - rewrite IH. cbn. rewrite <- app_assoc. reflexivity.
Qed.

Lemma AddToken_chatBot tokens :
  forall n,
    Objects._chatBot (foldl (fun n token => Objects.AddToken token n) n tokens) =
    Objects._chatBot n.
Proof.
  induction tokens as [|token rest IH]; intros n; cbn [foldl]; [reflexivity|].
  rewrite IH. reflexivity.
Qed.

(** X23: a node answers with its tokens. A node fresh from its constructor
    has no answer, and handing the chatbot to it is undefined; once tokens
    were added (at most [2^31]) to a node that had none, the hand-over
    returns and the answer handed to the panel is one of the tokens added. *)
Theorem node_answers_with_its_tokens (R : StdRandom) p this sn target now :
  Objects.exclusive_ownership p ->
  Objects._nodes p !! this = Some sn ->
  Objects.in_service (Objects._chatBot sn) ->
  (forall id,
     Objects._nodes p !! target = Some (Objects.GraphNode_new id) ->
     Objects.MoveChatbotToNewNode this (Some target) now p = Undefined) /\
  (forall n tokens,
     Objects._nodes p !! target =
       Some (foldl (fun n token => Objects.AddToken token n) n tokens) ->
     Objects._answers n = [] ->
     1 <= size tokens <= INT_MAX + 1 ->
     exists p' answer,
       Objects.MoveChatbotToNewNode this (Some target) now p = Ok p' /\
       answer ∈ tokens /\
       Objects._panelDialog p' = Objects._panelDialog p ++ [answer]).
Proof.
  intros Hinv Hs Hin.
  destruct (in_service_inv _ Hin) as (image & node & logic & Himg & Hnode & Hlogic).
  assert (Hget : Objects.get (Objects.member this) p = Ok (Objects._chatBot sn))
    by (cbn; rewrite Hs; reflexivity).
  destruct (exclusive_ownership_live p _ _ _ Hinv Hget Himg) as [bitmap Hbmp].
  assert (Hlive : forall tn, Objects._nodes p !! target = Some tn ->
                    forall a, Objects._image (Objects._chatBot tn) = Some a -> Objects.live p a).
  { intros tn Ht a Ha.
    apply (exclusive_ownership_live p (Objects.member target) (Objects._chatBot tn));
      [exact Hinv|cbn; rewrite Ht; reflexivity|exact Ha]. }
  split.
  - intros id Ht.
    rewrite (MoveChatbotToNewNode_handed_over p this sn target _ image bitmap node logic now)
      by (try eassumption; apply Hlive, Ht).
    reflexivity.
  - intros n tokens Ht Hnone Hfit.
    rewrite (MoveChatbotToNewNode_handed_over p this sn target _ image bitmap node logic now)
      by (try eassumption; apply Hlive, Ht).
    rewrite AddToken_answers, Hnone, app_nil_l.
    destruct (select_answer_fit now tokens Hfit) as (answer & -> & Hanswer).
    cbn [bind]. eexists _, answer. split; [reflexivity|]. split; [exact Hanswer|reflexivity].
Qed.

Lemma node_answers_with_its_tokens_witness :
  exists p' answer,
    Objects.MoveChatbotToNewNode (R := clock_random_model) 0 (Some 2%nat) 4 greeting_process
      = Ok p' /\
    answer ∈ [str "Hello to you"; str "Good day"] /\
    Objects._panelDialog p' = Objects._panelDialog greeting_process ++ [answer].
Proof.
  apply (proj2 (node_answers_with_its_tokens clock_random_model greeting_process 0 _ 2 4
                  greeting_process_ownership eq_refl
                  ltac:(split; [eexists; reflexivity|split; eexists; reflexivity]))
           (Objects.AddEdgeToParentNode
              {| _keywords := [str "hello"]; _childNode := Some 2%nat |}
              (Objects.GraphNode_new 2))
           [str "Hello to you"; str "Good day"]).
  - reflexivity.
  - reflexivity.
  - unfold size, INT_MAX. cbn. lia.
Defined.

(** ** Tearing the graph down *)

Section TearDown.
Import Objects.

Lemma destructor_member p a :
  exclusive_ownership p -> (a < length (_nodes p))%nat ->
  exists p',
    destructor (member a) p = Ok p' /\
    exclusive_ownership p' /\
    length (_nodes p') = length (_nodes p) /\ stack p' = stack p /\
    image_of p' (member a) = None /\
    forall this, image_of p this = None -> image_of p' this = None.
Proof.
  intros Hinv Ha. destruct (lookup_lt_is_Some_2 _ _ Ha) as [n Hn].
  assert (Hget : get (member a) p = Ok (_chatBot n)) by (cbn; rewrite Hn; reflexivity).
  destruct (_image (_chatBot n)) as [image|] eqn:Himg.
  - destruct (exclusive_ownership_live p _ _ _ Hinv Hget Himg) as [bitmap Hbmp].
    pose proof (destructor_run _ _ _ _ _ Hget Himg Hbmp) as Hrun.
    destruct (destructor_ownership _ _ _ Hinv Hrun) as [Hinv' Hnull].
    eexists. split; [exact Hrun|]. split; [exact Hinv'|].
    split; [cbn; apply length_alter|]. split; [reflexivity|]. split; [exact Hnull|].
    intros this Hthis.
    erewrite image_of_put by (rewrite get_with_free_store, get_print; exact Hget).
    unfold Objects.update. destruct (decide _); [reflexivity|].
    rewrite <- Hthis. apply image_of_same; reflexivity.
  - assert (Hrun : destructor (member a) p = Ok (print (Destructor_line (member a)) p)).
    { unfold destructor. rewrite get_print, Hget. cbn [bind]. rewrite Himg. reflexivity. }
    destruct (destructor_ownership _ _ _ Hinv Hrun) as [Hinv' Hnull].
    eexists. split; [exact Hrun|]. split; [exact Hinv'|].
    split; [reflexivity|]. split; [reflexivity|]. split; [exact Hnull|].
    intros this Hthis. rewrite <- Hthis. apply image_of_same; reflexivity.
Qed.

Lemma destroy_nodes_members nodes :
  forall p,
    exclusive_ownership p ->
    Forall (fun a => (a < length (_nodes p))%nat) nodes ->
    exists p',
      destroy_nodes nodes p = Ok p' /\
      exclusive_ownership p' /\
      length (_nodes p') = length (_nodes p) /\ stack p' = stack p /\
      (forall a, a ∈ nodes -> image_of p' (member a) = None) /\
      forall this, image_of p this = None -> image_of p' this = None.
Proof.
  induction nodes as [|a rest IH]; intros p Hinv Hall.
  - exists p. split; [reflexivity|]. split; [exact Hinv|].
    split; [reflexivity|]. split; [reflexivity|].
    split; [intros a Ha; inversion Ha|auto].
  - apply Forall_cons in Hall as [Ha Hrest].
    destruct (destructor_member p a Hinv Ha)
      as (p1 & Hrun & Hinv1 & Hlen1 & Hstack1 & Hnull1 & Hkeep1).
    destruct (IH p1 Hinv1) as (p' & Hrun' & Hinv' & Hlen' & Hstack' & Hnull' & Hkeep').
    { rewrite Hlen1. exact Hrest. }
    exists p'. cbn [destroy_nodes]. unfold GraphNode_destructor. rewrite Hrun. cbn [bind].
    split; [exact Hrun'|]. split; [exact Hinv'|].
    split; [congruence|]. split; [congruence|]. split.
    + intros b Hb. apply elem_of_cons in Hb as [->|Hb]; [apply Hkeep', Hnull1|apply Hnull', Hb].
    + intros this Hthis. apply Hkeep', Hkeep1, Hthis.
Qed.

End TearDown.

(** X24: when the graph is torn down no image is left. With the ownership
    policy in force and no chatbot on the stack, destroying the nodes one
    after the other returns (no image is deleted twice) and leaves no live
    image on the free store (none is leaked). *)
Theorem tear_down_deletes_every_image p :
  Objects.exclusive_ownership p ->
  Objects.stack p = [] ->
  exists p',
    Objects.tear_down p = Ok p' /\
    forall image, ~ Objects.live p' image.
Proof.
  intros Hinv Hstack. unfold Objects.tear_down.
  destruct (destroy_nodes_members (seq 0 (length (Objects._nodes p))) p Hinv)
    as (p' & Hrun & Hinv' & Hlen & Hstack' & Hnull & _).
  { apply Forall_forall. intros a Ha. apply elem_of_seq in Ha. lia. }
  exists p'. split; [exact Hrun|].
  intros image Hlive. destruct Hinv' as (_ & _ & Hleak).
  destruct (Hleak image Hlive) as [[a|k] Hown].
  - destruct (decide (a < length (Objects._nodes p))%nat) as [Ha|Ha].
    + rewrite Hnull in Hown; [discriminate|]. apply elem_of_seq. lia.
    + unfold Objects.image_of in Hown. cbn in Hown.
      rewrite lookup_ge_None_2 in Hown by lia. discriminate.
  - unfold Objects.image_of in Hown. cbn in Hown.
    rewrite Hstack', Hstack in Hown. discriminate.
Qed.

Lemma tear_down_deletes_every_image_witness :
  exists p',
    Objects.tear_down greeting_process = Ok p' /\
    forall image, ~ Objects.live p' image.
Proof.
  apply tear_down_deletes_every_image; [exact greeting_process_ownership|reflexivity].
Defined.

(** ** Incoming edges *)

Section ParentEdges.
Context {S : StdSort} {R : StdRandom}.

Lemma AddEdgeToParentNode_get p a n edge this :
  Objects._nodes p !! a = Some n ->
  Objects.get this
    (Objects.with_nodes (<[a := Objects.AddEdgeToParentNode edge n]> (Objects._nodes p)) p) =
  Objects.get this p.
Proof.
  intros Hn. destruct this as [b|k]; cbn; [|reflexivity].
  destruct (decide (a = b)) as [<-|Hne].
  - rewrite list_lookup_insert_eq by (eapply lookup_lt_Some, Hn). rewrite Hn. reflexivity.
  - rewrite list_lookup_insert_ne by exact Hne. reflexivity.
Qed.

Lemma AddEdgeToParentNode_erase p a n edge :
  Objects._nodes p !! a = Some n ->
  Objects.erase
    (Objects.with_nodes (<[a := Objects.AddEdgeToParentNode edge n]> (Objects._nodes p)) p) =
  Objects.erase p.
Proof.
  intros Hn. unfold Objects.erase. cbn. f_equal.
  rewrite list_fmap_insert. apply list_insert_id.
  rewrite list_lookup_fmap, Hn. reflexivity.
Qed.

End ParentEdges.

(** X25: incoming edges are never read. Recording an edge with
    [AddEdgeToParentNode] in any node changes no answer of any conversation. *)
Theorem parent_edges_are_never_read (S : StdSort) (R : StdRandom) p h a n edge inputs :
  Objects.exclusive_ownership p ->
  Objects.serving p h ->
  Objects._nodes p !! a = Some n ->
  Objects.converse inputs
    (Objects.with_nodes (<[a := Objects.AddEdgeToParentNode edge n]> (Objects._nodes p)) p) =
  Objects.converse inputs p.
Proof.
  intros Hinv Hserv Hn.
  set (q := Objects.with_nodes _ p).
  assert (Hget : forall this, Objects.get this q = Objects.get this p)
    by (intros this; apply AddEdgeToParentNode_get, Hn).
  assert (Hinvq : Objects.exclusive_ownership q).
  { eapply ownership_ext; [..|exact Hinv].
    - intros this. unfold Objects.image_of. rewrite Hget. reflexivity.
    - intros image. apply live_same. reflexivity. }
  assert (Hservq : Objects.serving q h).
  { destruct Hserv as (Hh & Hs & bot & Hb & Hrest).
    split; [exact Hh|]. split; [exact Hs|]. exists bot. rewrite Hget. split; assumption. }
  rewrite (converse_objects inputs q h Hinvq Hservq).
  rewrite (converse_objects inputs p h Hinv Hserv).
  unfold q. rewrite (AddEdgeToParentNode_erase p a n edge Hn). reflexivity.
Qed.

Lemma parent_edges_are_never_read_witness :
  Objects.converse (S := stable_sort_model) (R := clock_random_model)
    [(str "hi", 1); (str "bye", 2)]
    (Objects.with_nodes
       (<[1%nat := Objects.AddEdgeToParentNode
                     {| _keywords := [str "hey"]; _childNode := Some 1%nat |}
                     (Objects.AddEdgeToParentNode
                        {| _keywords := [str "hi"]; _childNode := Some 1%nat |}
                        (Objects.AddToken (str "Hey")
                           (Objects.AddToken (str "Hi there") (Objects.GraphNode_new 1))))]>
          (Objects._nodes greeting_process)) greeting_process) =
  Objects.converse (S := stable_sort_model) (R := clock_random_model)
    [(str "hi", 1); (str "bye", 2)] greeting_process.
Proof.
  apply (parent_edges_are_never_read stable_sort_model clock_random_model
           greeting_process 0 1).
  - exact greeting_process_ownership.
  - exact greeting_process_serving.
  - reflexivity.
Defined.
